(** * Favicon cache coordination: path resolver, process lock, download coordinator

    A shallow embedding of [src/list-tabs.py] and [src/lockfile.py].

    - Python [str] values are Rocq [string]s; the model covers ASCII text
      (code points below 128), which is what URLs and decimal process
      identifiers are made of.
    - Timestamps ([time.time()], [st_mtime], timeouts) are integers of an
      unspecified unit; only their order and differences matter.
    - Operating-system effects are calls of a small signature [sys]; a
      Python method is a finite tree of such calls ([prog]).  The tree can
      be run against an explicit model of the file system, the advisory
      locks and the child processes ([exec]), or have its branches
      enumerated with arbitrary replies ([runs]). *)

From Stdlib Require Import ZArith List String Ascii Bool Lia.
From Stdlib Require Import DecimalString DecimalZ DecimalPos DecimalFacts.
Import ListNotations.
Local Open Scope string_scope.
Local Open Scope Z_scope.

Set Implicit Arguments.

(* ================================================================== *)
(** ** Text helpers *)

Module Text.

Definition code (c : ascii) : Z := Z.of_N (N_of_ascii c).

Definition LF : ascii := ascii_of_nat 10.

Definition between (lo hi : Z) (c : ascii) : bool :=
  (lo <=? code c) && (code c <=? hi).

Definition is_digit (c : ascii) : bool := between 48 57 c.

Definition is_alpha (c : ascii) : bool := between 65 90 c || between 97 122 c.

(** [\w] of the [re] module, on ASCII. *)
Definition is_word (c : ascii) : bool :=
  is_alpha c || is_digit c || Ascii.eqb c "_".

(** The characters [str.strip()] and [int()] skip: space, \t \n \v \f \r
    and the separators \x1c .. \x1f. *)
Definition is_space (c : ascii) : bool :=
  Ascii.eqb c " " || between 9 13 c || between 28 31 c.

(** Longest prefix whose characters satisfy [f], and the rest. *)
Fixpoint span (f : ascii -> bool) (s : string) : string * string :=
  match s with
  | EmptyString => (EmptyString, EmptyString)
  | String c r =>
      if f c then let (a, b) := span f r in (String c a, b)
      else (EmptyString, s)
  end.

Fixpoint strip_prefix (p s : string) : option string :=
  match p, s with
  | EmptyString, _ => Some s
  | String a p', String b s' =>
      if Ascii.eqb a b then strip_prefix p' s' else None
  | String _ _, EmptyString => None
  end.

Fixpoint forallb (f : ascii -> bool) (s : string) : bool :=
  match s with
  | EmptyString => true
  | String c r => f c && forallb f r
  end.

Definition is_empty (s : string) : bool :=
  match s with EmptyString => true | _ => false end.

Fixpoint rev_onto (s acc : string) : string :=
  match s with
  | EmptyString => acc
  | String c r => rev_onto r (String c acc)
  end.

Definition rev (s : string) : string := rev_onto s EmptyString.

Fixpoint lstrip (s : string) : string :=
  match s with
  | String c r => if is_space c then lstrip r else s
  | EmptyString => EmptyString
  end.

(** [str.strip()] *)
Definition strip (s : string) : string := rev (lstrip (rev (lstrip s))).

(** [sep.join(parts)] *)
Fixpoint join (sep : string) (parts : list string) : string :=
  match parts with
  | [] => EmptyString
  | [p] => p
  | p :: rest => p ++ sep ++ join sep rest
  end.

Definition hex_digit (upper : bool) (n : Z) : ascii :=
  if n <? 10 then ascii_of_N (Z.to_N (48 + n))
  else ascii_of_N (Z.to_N ((if upper then 55 else 87) + n)).

Definition hex_byte (upper : bool) (b : Z) : string :=
  String (hex_digit upper (b / 16)) (String (hex_digit upper (b mod 16)) EmptyString).

Definition bytes (s : string) : list Z := List.map code (list_ascii_of_string s).

End Text.

(* ================================================================== *)
(** ** [hashlib.sha256]: FIPS 180-4 on 32-bit words held in [Z] *)

Module Sha256.

Definition w32 (x : Z) : Z := x mod 2 ^ 32.
Definition add32 (x y : Z) : Z := w32 (x + y).
Definition rotr (n x : Z) : Z := Z.lor (Z.shiftr x n) (w32 (Z.shiftl x (32 - n))).
Definition not32 (x : Z) : Z := 2 ^ 32 - 1 - x.

Definition Ch (x y z : Z) : Z := Z.lxor (Z.land x y) (Z.land (not32 x) z).
Definition Maj (x y z : Z) : Z :=
  Z.lxor (Z.lxor (Z.land x y) (Z.land x z)) (Z.land y z).
Definition Sigma0 (x : Z) : Z := Z.lxor (Z.lxor (rotr 2 x) (rotr 13 x)) (rotr 22 x).
Definition Sigma1 (x : Z) : Z := Z.lxor (Z.lxor (rotr 6 x) (rotr 11 x)) (rotr 25 x).
Definition sigma0 (x : Z) : Z := Z.lxor (Z.lxor (rotr 7 x) (rotr 18 x)) (Z.shiftr x 3).
Definition sigma1 (x : Z) : Z := Z.lxor (Z.lxor (rotr 17 x) (rotr 19 x)) (Z.shiftr x 10).

(** The round constants and the initial state are the first 32 bits of the
    fractional parts of the cube roots, respectively square roots, of the
    first primes. *)
Definition is_prime (n : Z) : bool :=
  List.forallb (fun d => negb (n mod Z.of_nat d =? 0)) (seq 2 (Z.to_nat n - 2)).

Definition primes : list Z :=
  List.filter is_prime (List.map Z.of_nat (seq 2 310)).

(** Largest [m] below [2 ^ bits] with [m ^ 3 <= n]. *)
Fixpoint cube_root (bits : nat) (n m : Z) : Z :=
  match bits with
  | O => m
  | S b =>
      let m' := m + 2 ^ Z.of_nat b in
      cube_root b n (if m' * m' * m' <=? n then m' else m)
  end.

Definition K : list Z :=
  List.map (fun p => w32 (cube_root 40 (p * 2 ^ 96) 0)) (firstn 64 primes).

Definition H0 : list Z :=
  List.map (fun p => w32 (Z.sqrt (p * 2 ^ 64))) (firstn 8 primes).

(** Big-endian bytes of [x], [n] of them. *)
Fixpoint be_bytes (n : nat) (x : Z) : list Z :=
  match n with
  | O => []
  | S m => (x / 256 ^ Z.of_nat m) mod 256 :: be_bytes m x
  end.

Definition be_word (bs : list Z) : Z := fold_left (fun acc b => acc * 256 + b) bs 0.

(** Message followed by 0x80, zeros up to 56 modulo 64, and the bit length. *)
Definition pad (msg : list Z) : list Z :=
  let len := Z.of_nat (List.length msg) in
  let zeros := Z.to_nat ((55 - len) mod 64) in
  (msg ++ 0x80 :: repeat 0 zeros ++ be_bytes 8 (8 * len))%list.

Fixpoint chunks (fuel n : nat) (l : list Z) : list (list Z) :=
  match fuel, l with
  | S f, _ :: _ => firstn n l :: chunks f n (skipn n l)
  | _, _ => []
  end.

(** The message schedule, latest word first: [ws] holds W(t-1), W(t-2), ... *)
Fixpoint extend (n : nat) (ws : list Z) : list Z :=
  match n with
  | O => ws
  | S m =>
      let w := add32 (add32 (sigma1 (nth 1 ws 0)) (nth 6 ws 0))
                     (add32 (sigma0 (nth 14 ws 0)) (nth 15 ws 0)) in
      extend m (w :: ws)
  end.

Definition schedule (block : list Z) : list Z :=
  List.rev (extend 48 (List.rev (List.map be_word (chunks 16 4 block)))).

Record regs := Regs { ra : Z; rb : Z; rc : Z; rd : Z; re : Z; rf : Z; rg : Z; rh : Z }.

Definition round (r : regs) (kw : Z * Z) : regs :=
  let t1 := add32 (add32 (add32 (rh r) (Sigma1 (re r))) (Ch (re r) (rf r) (rg r)))
                  (add32 (fst kw) (snd kw)) in
  let t2 := add32 (Sigma0 (ra r)) (Maj (ra r) (rb r) (rc r)) in
  Regs (add32 t1 t2) (ra r) (rb r) (rc r) (add32 (rd r) t1) (re r) (rf r) (rg r).

Definition of_list (h : list Z) : regs :=
  Regs (nth 0 h 0) (nth 1 h 0) (nth 2 h 0) (nth 3 h 0)
       (nth 4 h 0) (nth 5 h 0) (nth 6 h 0) (nth 7 h 0).

Definition to_list (r : regs) : list Z :=
  [ra r; rb r; rc r; rd r; re r; rf r; rg r; rh r].

Definition compress (h block : list Z) : list Z :=
  let r := fold_left round (combine K (schedule block)) (of_list h) in
  List.map (fun p => add32 (fst p) (snd p)) (combine h (to_list r)).

Definition digest (msg : list Z) : list Z :=
  let p := pad msg in
  let state := fold_left compress (chunks (List.length p) 64 p) H0 in
  flat_map (be_bytes 4) state.

(** [hashlib.sha256(); update(data); hexdigest()] *)
Definition hexdigest (data : string) : string :=
  fold_right (fun b acc => Text.hex_byte false b ++ acc) EmptyString
             (digest (Text.bytes data)).

End Sha256.

(* ================================================================== *)
(** ** Integers as text: [str(n)] and [int(s)] *)

Module PyInt.

(** [str(n)] for an integer [n]. *)
Definition py_str (n : Z) : string := NilZero.string_of_int (Z.to_int n).

(** Digits with single underscores between them, as [int()] reads them;
    [after_digit] tells whether the previous character was a digit. *)
Fixpoint digits_from (s : string) (acc : Z) (after_digit : bool) : option Z :=
  match s with
  | EmptyString => if after_digit then Some acc else None
  | String c r =>
      if Text.is_digit c then digits_from r (acc * 10 + (Text.code c - 48)) true
      else if Ascii.eqb c "_" && after_digit then digits_from r acc false
      else None
  end.

(** [int(s)] in base 10: [None] stands for [ValueError]. *)
Definition py_int (s : string) : option Z :=
  match Text.strip s with
  | String "-" r => option_map Z.opp (digits_from r 0 false)
  | String "+" r => digits_from r 0 false
  | body => digits_from body 0 false
  end.

End PyInt.

(* ================================================================== *)
(** ** PathResolver: [get_favicon_url] and [get_favicon_path] *)

Module PathResolver.

Definition is_qh (c : ascii) : bool := Ascii.eqb c "?" || Ascii.eqb c "#".
Definition not_qh (c : ascii) : bool := negb (is_qh c).
Definition not_lf (c : ascii) : bool := negb (Ascii.eqb c Text.LF).

(** What [.*] leaves behind: the text from the next line feed on. *)
Definition drop_line (s : string) : string := snd (Text.span not_lf s).

(** [FAVICON_KEY_URL_RE.sub('', url)] with the pattern [[?#].*]: every
    [?] or [#] is deleted together with the rest of its line.
    [in_match] is true while [.*] is consuming. *)
Fixpoint key_url_sub (in_match : bool) (url : string) : string :=
  match url with
  | EmptyString => EmptyString
  | String c r =>
      if in_match then
        if Ascii.eqb c Text.LF then String c (key_url_sub false r)
        else key_url_sub true r
      else if is_qh c then key_url_sub true r
      else String c (key_url_sub false r)
  end.

Definition FAVICON_SIZE : Z := 32.

(** [FAVICON_URL_FORMAT.format(url=key_url, size=size)] *)
Definition get_favicon_url (url : string) (size : Z) : string :=
  let key_url := key_url_sub false url in
  "https://t2.gstatic.com/faviconV2?client=SOCIAL&type=FAVICON&fallback_opts=TYPE,SIZE,URL&url="
    ++ key_url ++ "&size=" ++ PyInt.py_str size.

(** [([^?#]+).*] at the start of [s]: the group and what follows the match. *)
Definition match_group (s : string) : option (string * string) :=
  let (g, rest) := Text.span not_qh s in
  if Text.is_empty g then None else Some (g, drop_line rest).

(** One attempt of [\w+://(?:www\.)?([^?#]+).*] at the start of [s]:
    group 1 and the text after the match.  [\w+] is greedy and [:] is not
    a word character, so only the longest run of word characters can be
    followed by [://]; the optional [www.] is tried first and given up
    when nothing is left for the group. *)
Definition match_here (s : string) : option (string * string) :=
  let (w, r1) := Text.span Text.is_word s in
  if Text.is_empty w then None
  else
    match Text.strip_prefix "://" r1 with
    | None => None
    | Some r2 =>
        match Text.strip_prefix "www." r2 with
        | Some r3 =>
            match match_group r3 with
            | Some m => Some m
            | None => match_group r2
            end
        | None => match_group r2
        end
    end.

(** [FAVICON_FILE_RE.sub(r'\1', url)]: each match, leftmost first, is
    replaced by its group; the scan resumes after the match.  [fuel]
    bounds the number of resumptions. *)
Fixpoint file_url_sub (fuel : nat) (s : string) : string :=
  match fuel with
  | O => s
  | S f =>
      match match_here s with
      | Some (g, rest) => g ++ file_url_sub f rest
      | None =>
          match s with
          | EmptyString => EmptyString
          | String c r => String c (file_url_sub f r)
          end
      end
  end.

(** [urllib.parse.quote(s, safe='')]: letters, digits and [_.-~] stay,
    every other byte becomes [%XX]. *)
Definition unreserved (c : ascii) : bool :=
  Text.is_alpha c || Text.is_digit c
  || Ascii.eqb c "_" || Ascii.eqb c "." || Ascii.eqb c "-" || Ascii.eqb c "~".

Fixpoint quote (s : string) : string :=
  match s with
  | EmptyString => EmptyString
  | String c r =>
      if unreserved c then String c (quote r)
      else String "%" (Text.hex_byte true (Text.code c) ++ quote r)
  end.

(** [dir / name] of [pathlib], for a directory written without a
    trailing slash. *)
Definition path_join (dir name : string) : string := dir ++ "/" ++ name.

Definition get_favicon_path (url dir : string) : string :=
  let file_url := file_url_sub (S (String.length url)) url in
  let quoted_url := quote file_url in
  path_join dir (Sha256.hexdigest quoted_url ++ ".png").

End PathResolver.

(* ================================================================== *)
(** ** Operating-system calls and programs over them *)

Module Os.

Definition fd := nat.
Definition handle := nat.

Inductive errno := EWOULDBLOCK | ESRCH | EPERM | ENOENT | EBADF.

Definition errno_eqb (a b : errno) : bool :=
  match a, b with
  | EWOULDBLOCK, EWOULDBLOCK | ESRCH, ESRCH | EPERM, EPERM
  | ENOENT, ENOENT | EBADF, EBADF => true
  | _, _ => false
  end.

(** Exceptions that can leave the modelled methods. *)
Inductive exn :=
| OSError (e : errno)
| ValueError          (* I/O operation on closed file *)
| OverflowError       (* a process identifier that does not fit a C int *)
| TimeoutExpired
| RecursionError.

(** The calls the two source files make, indexed by the type of their
    reply.  A reply of type [option errno] is [None] on success; an
    absent file is the reply [None] of [ReadText] and [StatMtime] and the
    reply [false] of [Unlink] (Python's [FileNotFoundError]).  Opening
    for writing, writing and closing are taken to succeed. *)
Inductive sys : Type -> Type :=
| OpenW (path : string) : sys fd                    (* Path.open('w') *)
| FlockExNb (f : fd) : sys (option errno)           (* flock(f, LOCK_EX | LOCK_NB) *)
| FlockUn (f : fd) : sys unit                       (* flock(f, LOCK_UN) *)
| WriteFlush (f : fd) (data : string) : sys unit    (* f.write(data); f.flush() *)
| Close (f : fd) : sys unit
| Getpid : sys Z
| ReadText (path : string) : sys (option string)    (* Path.read_text() *)
| Kill (pid : Z) (sig : Z) : sys (option errno)     (* os.kill(pid, sig) *)
| Time : sys Z                                      (* time.time() *)
| StatMtime (path : string) : sys (option Z)        (* Path.stat().st_mtime *)
| Unlink (path : string) : sys bool                 (* Path.unlink() *)
| Exists (path : string) : sys bool                 (* Path.exists() *)
| Popen (out : fd) : sys (option handle)            (* nohup curl --config - *)
| Communicate (h : handle) (input : string) : sys unit
| Wait (h : handle) (timeout : Z) : sys (option Z)  (* None: TimeoutExpired *)
| Poll (h : handle) : sys (option Z).               (* None: still running *)

Inductive prog (R : Type) : Type :=
| Ret (r : R)
| Raise (e : exn)
| Sys (X : Type) (c : sys X) (k : X -> prog R).

Arguments Ret {R} r.
Arguments Raise {R} e.
Arguments Sys {R X} c k.

Fixpoint bind {A B : Type} (p : prog A) (k : A -> prog B) : prog B :=
  match p with
  | Ret a => k a
  | Raise e => Raise e
  | Sys c h => Sys c (fun x => bind (h x) k)
  end.

Definition call {X : Type} (c : sys X) : prog X := Sys c (fun x => Ret x).

(** How a program ends. *)
Inductive outcome (R : Type) : Type :=
| Done (r : R)
| Exn (e : exn).

Arguments Done {R} r.
Arguments Exn {R} e.

(** A call together with the reply it got. *)
Inductive event : Type :=
| Ev (X : Type) (c : sys X) (x : X).

Arguments Ev {X} c x.

(** [runs p t o]: with the replies recorded in [t], [p] makes exactly
    the calls of [t] and ends as [o].  The replies are not constrained:
    this is the program against every environment. *)
Fixpoint runs {R : Type} (p : prog R) (t : list event) (o : outcome R) : Prop :=
  match p with
  | Ret r => t = [] /\ o = Done r
  | Raise e => t = [] /\ o = Exn e
  | Sys c k => exists x t', t = Ev c x :: t' /\ runs (k x) t' o
  end.

End Os.

Import Os.

Declare Scope prog_scope.
Delimit Scope prog_scope with prog.
Notation "x <- p ;; k" := (bind p (fun x => k))
  (at level 61, p at next level, right associativity) : prog_scope.
Notation "p ;;; k" := (bind p (fun _ => k))
  (at level 61, right associativity) : prog_scope.
Local Open Scope prog_scope.

(* ================================================================== *)
(** ** ProcessLock: [lockfile.py] *)

Module Lock.

(** A Python file object: its descriptor and whether [close()] ran. *)
Record file_obj := File { fileno : fd; closed : bool }.

Record LockFile := MkLockFile {
  lock_file_path : string;
  lock_file : option file_obj;
  stale_age_sec : Z
}.

(** [LockFile(lock_file_path, stale_age_sec=60)] *)
Definition init (path : string) (stale_age : Z) : LockFile :=
  MkLockFile path None stale_age.

Definition DEFAULT_STALE_AGE : Z := 60.

Definition set_lock_file (self : LockFile) (f : option file_obj) : LockFile :=
  MkLockFile (lock_file_path self) f (stale_age_sec self).

(** A file object that loses its last reference is finalised at once by
    the reference counter: an open one is closed. *)
Definition drop_ref (old : option file_obj) : prog unit :=
  match old with
  | Some f => if closed f then Ret tt else call (Close (fileno f))
  | None => Ret tt
  end.

(** [_is_file_stale]: the clock is read before the file is looked up. *)
Definition _is_file_stale (self : LockFile) : prog bool :=
  now <- call Time ;;
  m <- call (StatMtime (lock_file_path self)) ;;
  match m with
  | Some st_mtime =>
      let file_age := now - st_mtime in
      Ret (file_age >? stale_age_sec self)
  | None => Ret true
  end.

Definition fits_c_int (pid : Z) : bool := (- 2 ^ 31 <=? pid) && (pid <? 2 ^ 31).

(** The tail of [is_stale] after the [try] statement ("Process is running"). *)
Definition is_stale_running (self : LockFile) (pid : Z) : prog bool :=
  stale <- _is_file_stale self ;;
  if stale then
    r <- call (Kill pid 9) ;;
    match r with
    | None => Ret true
    | Some e => Raise (OSError e)
    end
  else Ret false.

Definition is_stale (self : LockFile) : prog bool :=
  text <- call (ReadText (lock_file_path self)) ;;
  match text with
  | None => Ret true                                   (* FileNotFoundError *)
  | Some s =>
      match PyInt.py_int (Text.strip s) with
      | None => _is_file_stale self                    (* ValueError *)
      | Some pid =>
          if fits_c_int pid then
            r <- call (Kill pid 0) ;;
            match r with
            | None => is_stale_running self pid
            | Some ENOENT => Ret true                  (* FileNotFoundError *)
            | Some ESRCH => Ret true                   (* No such process *)
            | Some _ => is_stale_running self pid      (* other errors fall through *)
            end
          else Raise OverflowError
      end
  end.

Definition break_lock (self : LockFile) : prog unit :=
  call (Unlink (lock_file_path self)) ;;; Ret tt.

(** [acquire(is_retry)].  [fuel] is the recursion depth still available
    to the interpreter; the method returns the flag together with the
    object as it has become. *)
Fixpoint acquire (fuel : nat) (self : LockFile) (is_retry : bool)
  : prog (bool * LockFile) :=
  match fuel with
  | O => Raise RecursionError
  | S fuel' =>
      f <- call (OpenW (lock_file_path self)) ;;
      drop_ref (lock_file self) ;;;
      let self := set_lock_file self (Some (File f false)) in
      r <- call (FlockExNb f) ;;
      match r with
      | None =>
          (* If we got here, we have the lock *)
          pid <- call Getpid ;;
          call (WriteFlush f (PyInt.py_str pid)) ;;;
          Ret (true, self)
      | Some e =>
          if negb (errno_eqb e EWOULDBLOCK) then Raise (OSError e)
          else
            (* Lock is held, check if it's stale *)
            stale <- is_stale self ;;
            if stale && negb is_retry then
              break_lock self ;;;
              acquire fuel' self true
            else
              call (Close f) ;;;
              Ret (false, set_lock_file self (Some (File f true)))
      end
  end.

Definition release (self : LockFile) : prog LockFile :=
  match lock_file self with
  | Some f =>                                (* a file object is truthy *)
      if closed f then Raise ValueError      (* flock() asks a closed file for fileno() *)
      else
        call (FlockUn (fileno f)) ;;;
        call (Close (fileno f)) ;;;
        let self := set_lock_file self None in
        call (Unlink (lock_file_path self)) ;;;
        Ret self
  | None => Ret self
  end.

(** The recursion depth a fresh call has at its disposal
    ([sys.getrecursionlimit()]). *)
Definition RECURSION_LIMIT : nat := 1000.

(** [__enter__] and [__exit__] *)
Definition enter (self : LockFile) : prog LockFile :=
  r <- acquire RECURSION_LIMIT self false ;;
  Ret (snd r).

Definition exit (self : LockFile) : prog LockFile := release self.

End Lock.

(* ================================================================== *)
(** ** The environment: files, advisory locks, processes, the clock *)

Module World.

(** A file: its text, its modification time, and the open file that
    holds the [flock] on it, if any. *)
Record inode := Inode { i_content : string; i_mtime : Z; i_lock : option fd }.

(** An open file description: owner, file, write position. *)
Record ofile := OFile { o_pid : Z; o_ino : nat; o_pos : nat; o_open : bool }.

(** A fetch batch: launched and reading its job list, or finished. *)
Inductive child := Launched | Finished (rc : Z).

Record world := MkWorld {
  now : Z;
  dir : string -> option nat;          (* directory entries *)
  inodes : nat -> inode;
  next_ino : nat;
  files : fd -> option ofile;
  next_fd : fd;
  alive : Z -> bool;                   (* live process identifiers *)
  children : handle -> option child;
  next_child : handle;
  can_launch : bool;                   (* whether nohup and curl can be started *)
  curl : string -> Z * Z * list string (* job list |-> run time, exit code, files written *)
}.

Definition upd {A : Type} (f : nat -> A) (i : nat) (a : A) : nat -> A :=
  fun j => if Nat.eqb j i then a else f j.

Definition bind_path (d : string -> option nat) (p : string) (i : option nat)
  : string -> option nat :=
  fun q => if String.eqb q p then i else d q.

Definition set_now (w : world) (t : Z) : world :=
  MkWorld t (dir w) (inodes w) (next_ino w) (files w) (next_fd w) (alive w)
          (children w) (next_child w) (can_launch w) (curl w).

Definition set_fs (w : world) (d : string -> option nat) (ino : nat -> inode) (n : nat)
  : world :=
  MkWorld (now w) d ino n (files w) (next_fd w) (alive w)
          (children w) (next_child w) (can_launch w) (curl w).

Definition set_inodes (w : world) (ino : nat -> inode) : world :=
  set_fs w (dir w) ino (next_ino w).

Definition set_files (w : world) (fs : fd -> option ofile) (n : fd) : world :=
  MkWorld (now w) (dir w) (inodes w) (next_ino w) fs n (alive w)
          (children w) (next_child w) (can_launch w) (curl w).

Definition set_alive (w : world) (a : Z -> bool) : world :=
  MkWorld (now w) (dir w) (inodes w) (next_ino w) (files w) (next_fd w) a
          (children w) (next_child w) (can_launch w) (curl w).

Definition set_children (w : world) (c : handle -> option child) (n : handle) : world :=
  MkWorld (now w) (dir w) (inodes w) (next_ino w) (files w) (next_fd w) (alive w)
          c n (can_launch w) (curl w).

(** Time passing with nobody running. *)
Definition tick (d : Z) (w : world) : world := set_now w (now w + Z.max 0 d).

Fixpoint skip (n : nat) (s : string) : string :=
  match n, s with
  | S m, String _ r => skip m r
  | _, _ => s
  end.

(** [data] written at offset [pos] of [old]; a gap is filled with NULs. *)
Fixpoint write_at (pos : nat) (data old : string) : string :=
  match pos with
  | O => data ++ skip (String.length data) old
  | S p =>
      match old with
      | EmptyString => String zero (write_at p data EmptyString)
      | String c r => String c (write_at p data r)
      end
  end.

(** O_WRONLY | O_CREAT | O_TRUNC: the file is created or emptied, and its
    modification time is set. *)
Definition create_or_truncate (path : string) (w : world) : world * nat :=
  match dir w path with
  | Some i =>
      let n := inodes w i in
      (set_inodes w (upd (inodes w) i (Inode EmptyString (now w) (i_lock n))), i)
  | None =>
      let i := next_ino w in
      (set_fs w (bind_path (dir w) path (Some i))
              (upd (inodes w) i (Inode EmptyString (now w) None)) (S i), i)
  end.

Definition unlock_if (f : fd) (n : inode) : inode :=
  match i_lock n with
  | Some g => if Nat.eqb g f then Inode (i_content n) (i_mtime n) None else n
  | None => n
  end.

Definition close_file (f : fd) (w : world) : world :=
  match files w f with
  | Some o =>
      let w := set_inodes w (upd (inodes w) (o_ino o) (unlock_if f (inodes w (o_ino o)))) in
      set_files w (upd (files w) f (Some (OFile (o_pid o) (o_ino o) (o_pos o) false)))
                (next_fd w)
  | None => w
  end.

Definition owned_by (w : world) (pid : Z) (f : fd) : bool :=
  match files w f with
  | Some o => Z.eqb (o_pid o) pid
  | None => false
  end.

(** A process that ends loses its open files and with them its locks. *)
Definition terminate (pid : Z) (w : world) : world :=
  let ino i :=
    let n := inodes w i in
    match i_lock n with
    | Some g => if owned_by w pid g then Inode (i_content n) (i_mtime n) None else n
    | None => n
    end in
  let fs f :=
    match files w f with
    | Some o =>
        if Z.eqb (o_pid o) pid
        then Some (OFile (o_pid o) (o_ino o) (o_pos o) false)
        else Some o
    | None => None
    end in
  set_alive (set_files (set_inodes w ino) fs (next_fd w))
            (fun p => if Z.eqb p pid then false else alive w p).

(** The reply to call [c] made by process [pid], and the world after it. *)
Definition exec (pid : Z) {X : Type} (c : sys X) (w : world) : world * X :=
  match c in sys X return world * X with
  | OpenW path =>
      let (w1, i) := create_or_truncate path w in
      let f := next_fd w1 in
      (set_files w1 (upd (files w1) f (Some (OFile pid i 0 true))) (S f), f)
  | FlockExNb f =>
      match files w f with
      | Some o =>
          if o_open o then
            let n := inodes w (o_ino o) in
            match i_lock n with
            | None =>
                (set_inodes w (upd (inodes w) (o_ino o)
                                   (Inode (i_content n) (i_mtime n) (Some f))), None)
            | Some g => if Nat.eqb g f then (w, None) else (w, Some EWOULDBLOCK)
            end
          else (w, Some EBADF)
      | None => (w, Some EBADF)
      end
  | FlockUn f =>
      match files w f with
      | Some o =>
          (set_inodes w (upd (inodes w) (o_ino o) (unlock_if f (inodes w (o_ino o)))), tt)
      | None => (w, tt)
      end
  | WriteFlush f data =>
      match files w f with
      | Some o =>
          if o_open o then
            let n := inodes w (o_ino o) in
            let n' := Inode (write_at (o_pos o) data (i_content n)) (now w) (i_lock n) in
            let o' := OFile (o_pid o) (o_ino o) (o_pos o + String.length data) true in
            (set_files (set_inodes w (upd (inodes w) (o_ino o) n'))
                       (upd (files w) f (Some o')) (next_fd w), tt)
          else (w, tt)
      | None => (w, tt)
      end
  | Close f => (close_file f w, tt)
  | Getpid => (w, pid)
  | ReadText path =>
      (w, match dir w path with
          | Some i => Some (i_content (inodes w i))
          | None => None
          end)
  | Kill p sig =>
      if alive w p then
        if Z.eqb sig 0 then (w, None) else (terminate p w, None)
      else (w, Some ESRCH)
  | Time => (w, now w)
  | StatMtime path =>
      (w, match dir w path with
          | Some i => Some (i_mtime (inodes w i))
          | None => None
          end)
  | Unlink path =>
      match dir w path with
      | Some _ => (set_fs w (bind_path (dir w) path None) (inodes w) (next_ino w), true)
      | None => (w, false)
      end
  | Exists path =>
      (w, match dir w path with Some _ => true | None => false end)
  | Popen _ =>
      if can_launch w then
        let h := next_child w in
        (set_children w (upd (children w) h (Some Launched)) (S h), Some h)
      else (w, None)
  | Communicate h input =>
      (* the job list is written to the child's stdin, stdin is closed,
         and the caller waits for the child to end *)
      match children w h with
      | Some Launched =>
          let '(d, rc, outs) := curl w input in
          let w1 := tick d w in
          let w2 := fold_left (fun a p => fst (create_or_truncate p a)) outs w1 in
          (set_children w2 (upd (children w2) h (Some (Finished rc))) (next_child w2), tt)
      | _ => (w, tt)
      end
  | Wait h timeout =>
      match children w h with
      | Some (Finished rc) => (w, Some rc)
      | _ => (tick timeout w, None)
      end
  | Poll h =>
      (w, match children w h with
          | Some (Finished rc) => Some rc
          | _ => None
          end)
  end.

(** A program run by process [pid] with nothing else running: the world
    it leaves, the calls it made, and how it ended. *)
Fixpoint exec_prog {R : Type} (pid : Z) (p : prog R) (w : world)
  : world * list event * outcome R :=
  match p with
  | Ret r => (w, [], Done r)
  | Raise e => (w, [], Exn e)
  | Sys c k =>
      let (w1, x) := exec pid c w in
      let '(w2, t, o) := exec_prog pid (k x) w1 in
      (w2, Ev c x :: t, o)
  end.

(** A cache directory with no file in it, no open file and no child. *)
Definition empty (t0 : Z) (live : Z -> bool) (fetch : string -> Z * Z * list string)
  : world :=
  MkWorld t0 (fun _ => None) (fun _ => Inode EmptyString 0 None) O
          (fun _ => None) O live (fun _ => None) O true fetch.

(** The text of the file at [path], if it is there. *)
Definition content_at (w : world) (path : string) : option string :=
  match dir w path with
  | Some i => Some (i_content (inodes w i))
  | None => None
  end.

(** The process whose open file holds the lock on the file at [path]. *)
Definition holder_at (w : world) (path : string) : option Z :=
  match dir w path with
  | Some i =>
      match i_lock (inodes w i) with
      | Some f => option_map o_pid (files w f)
      | None => None
      end
  | None => None
  end.

End World.

(* ================================================================== *)
(** ** DownloadCoordinator: [IconDownloader] and the loop of [main] *)

Module Download.

Import Lock PathResolver.

(** The cache directory and its two fixed files. *)
Definition LOCK_PATH (cache_dir : string) : string := path_join cache_dir "lock.pid".
Definition CURL_LOG_PATH (cache_dir : string) : string := path_join cache_dir "curl.log".

Record IconDownloader := MkDownloader {
  url_paths : list (string * string);
  timeout : Z;
  lockfile : LockFile;
  proc : option handle
}.

(** [IconDownloader(url_paths, timeout)] *)
Definition init (cache_dir : string) (pairs : list (string * string)) (timeout : Z)
  : IconDownloader :=
  MkDownloader pairs timeout (Lock.init (LOCK_PATH cache_dir) DEFAULT_STALE_AGE) None.

Definition set_lockfile (self : IconDownloader) (l : LockFile) : IconDownloader :=
  MkDownloader (url_paths self) (timeout self) l (proc self).

Definition set_proc (self : IconDownloader) (p : option handle) : IconDownloader :=
  MkDownloader (url_paths self) (timeout self) (lockfile self) p.

Definition has_key (k : string) (d : list (string * string)) : bool :=
  existsb (fun kv => String.eqb (fst kv) k) d.

(** [d[k] = v] on an ordered dictionary: a key that is present keeps its
    place and takes the new value, a new key goes last. *)
Fixpoint set_item (d : list (string * string)) (k v : string) : list (string * string) :=
  match d with
  | [] => [(k, v)]
  | (k', v') :: rest =>
      if String.eqb k' k then (k', v) :: rest
      else (k', v') :: set_item rest k v
  end.

(** [collections.OrderedDict(pairs).items()] *)
Definition ordered_dict (pairs : list (string * string)) : list (string * string) :=
  fold_left (fun d kv => set_item d (fst kv) (snd kv)) pairs [].

(** [[(u, p) for u, p in items if not p.exists()]] *)
Fixpoint not_existing (items : list (string * string)) : prog (list (string * string)) :=
  match items with
  | [] => Ret []
  | (u, p) :: rest =>
      e <- call (Exists p) ;;
      l <- not_existing rest ;;
      Ret (if e then l else (u, p) :: l)
  end.

Definition QUOTE : string := String (ascii_of_nat 34) EmptyString.
Definition NEWLINE : string := String Text.LF EmptyString.

(** One job of the list fed to curl: the output file and the URL. *)
Definition job (up : string * string) : string :=
  "output " ++ QUOTE ++ snd up ++ QUOTE ++ NEWLINE
  ++ "url " ++ QUOTE ++ get_favicon_url (fst up) FAVICON_SIZE ++ QUOTE.

Definition curl_in (needed : list (string * string)) : list string :=
  "parallel" :: List.map job needed.

(** [download]: the method returns nothing; the result is the object as
    it has become. *)
Definition download (cache_dir : string) (self : IconDownloader) : prog IconDownloader :=
  let unique_path_urls := ordered_dict (url_paths self) in
  needed_path_urls <- not_existing unique_path_urls ;;
  match needed_path_urls with
  | [] => Ret self                       (* No icons to download *)
  | _ :: _ =>
      r <- acquire RECURSION_LIMIT (lockfile self) false ;;
      let self := set_lockfile self (snd r) in
      if negb (fst r) then Ret self      (* Unable to acquire lock *)
      else
        log <- call (OpenW (CURL_LOG_PATH cache_dir)) ;;
        h <- call (Popen log) ;;
        match h with
        | None => Raise (OSError ENOENT)
        | Some h =>
            call (Close log) ;;;         (* the log's file object is dropped *)
            let self := set_proc self (Some h) in
            call (Communicate h (Text.join NEWLINE (curl_in needed_path_urls))) ;;;
            w <- call (Wait h (timeout self)) ;;
            match w with
            | Some _ => Ret self
            | None => Raise TimeoutExpired
            end
        end
  end.

Definition is_icon_downloaded (self : IconDownloader) (icon_path : string)
  : prog (bool * IconDownloader) :=
  is_downloaded <- call (Exists icon_path) ;;
  match proc self with
  | Some h =>
      r <- call (Poll h) ;;
      match r with
      | None =>
          l <- release (lockfile self) ;;
          Ret (is_downloaded, set_proc (set_lockfile self l) None)
      | Some _ => Ret (is_downloaded, self)
      end
  | None => Ret (is_downloaded, self)
  end.

(** The loop of [main] over the paths, in order. *)
Fixpoint check_all (self : IconDownloader) (paths : list string)
  : prog (list bool * IconDownloader) :=
  match paths with
  | [] => Ret ([], self)
  | p :: rest =>
      r <- is_icon_downloaded self p ;;
      rs <- check_all (snd r) rest ;;
      Ret (fst r :: fst rs, snd rs)
  end.

(** The coordinator as [main] drives it: build the downloader, download,
    then ask for each original pair whether its file is there.  The
    result tells, pair by pair, whether the tab gets its icon. *)
Definition run (cache_dir : string) (pairs : list (string * string)) (deadline : Z)
  : prog (list bool * IconDownloader) :=
  let downloader := init cache_dir pairs deadline in
  downloader <- download cache_dir downloader ;;
  check_all downloader (List.map snd pairs).

(** [main] from the tab list on: the paths come from [get_favicon_path]. *)
Definition main_icons (cache_dir : string) (urls : list string) (deadline : Z)
  : prog (list bool * IconDownloader) :=
  let paths := List.map (fun u => get_favicon_path u cache_dir) urls in
  run cache_dir (combine urls paths) deadline.

(** Kinds of calls, to count them in a trace. *)
Definition is_open_of (path : string) (e : event) : bool :=
  match e with
  | Ev (OpenW p) _ => String.eqb p path
  | _ => false
  end.

Definition is_flock (e : event) : bool :=
  match e with
  | Ev (FlockExNb _) _ => true
  | _ => false
  end.

Definition is_launch (e : event) : bool :=
  match e with
  | Ev (Popen _) _ => true
  | _ => false
  end.

Definition is_unlink (e : event) : bool :=
  match e with
  | Ev (Unlink _) _ => true
  | _ => false
  end.

Definition is_release (e : event) : bool :=
  match e with
  | Ev (FlockUn _) _ => true
  | Ev (Unlink _) _ => true
  | _ => false
  end.

Definition count (f : event -> bool) (t : list event) : nat :=
  List.length (List.filter f t).

End Download.

(* ================================================================== *)
(** ** Vocabulary of the statements *)

(** Shapes of URLs. *)
Module Shape.

Import Text PathResolver.

(** A text that is empty or starts with a character outside [f]. *)
Definition stops (f : ascii -> bool) (s : string) : Prop :=
  match s with
  | EmptyString => True
  | String c _ => f c = false
  end.

(** What may follow the part of a URL that is kept: nothing, or a [?] or
    [#] and then anything on the same line. *)
Definition droppable (suffix : string) : Prop :=
  match suffix with
  | EmptyString => True
  | String q tail => is_qh q = true /\ forallb not_lf tail = true
  end.

(** The group the pattern captures from what follows [://]. *)
Definition kept (rest : string) : string :=
  match strip_prefix "www." rest with
  | Some r => if is_empty r then rest else r
  | None => rest
  end.

End Shape.

(** Runs against a reply function, and replies seen without their type. *)
Module Replies.

(** [prog] is an inductive type, so a program ends along every choice
  of replies.  This is the run against a reply function. *)
Fixpoint run_with {R : Type} (reply : forall X, sys X -> X) (p : prog R)
: list event * outcome R :=
match p with
| Ret r => ([], Done r)
| Raise e => ([], Exn e)
| Sys c k =>
    let x := reply _ c in
    let (t, o) := run_with reply (k x) in
    (Ev c x :: t, o)
end.

(** Events carry their reply. *)
Inductive reply_view : Type :=
| VNat (n : nat) | VErr (e : option errno) | VUnit | VZ (z : Z)
| VText (s : option string) | VOptZ (z : option Z) | VBool (b : bool)
| VHandle (h : option handle).

Definition view {X : Type} (c : sys X) : X -> reply_view :=
match c in sys X return X -> reply_view with
| OpenW _ => VNat
| FlockExNb _ => VErr
| FlockUn _ => fun _ => VUnit
| WriteFlush _ _ => fun _ => VUnit
| Close _ => fun _ => VUnit
| Getpid => VZ
| ReadText _ => VText
| Kill _ _ => VErr
| Time => VZ
| StatMtime _ => VOptZ
| Unlink _ => VBool
| Exists _ => VBool
| Popen _ => VHandle
| Communicate _ _ => fun _ => VUnit
| Wait _ _ => VOptZ
| Poll _ => VOptZ
end.

Definition event_view (e : event) : reply_view :=
match e with Ev c x => view c x end.

End Replies.

(** The runs of [acquire], spelled out. *)
Module Behaviour.

Import Lock.

(** The object once attempt [f] has replaced its file, and once that file
    has been closed again. *)
Definition holding (self : LockFile) (f : fd) : LockFile :=
  set_lock_file self (Some (File f false)).

Definition given_up (self : LockFile) (f : fd) : LockFile :=
  set_lock_file self (Some (File f true)).

Definition drop_calls (old : option file_obj) : list event :=
  match old with
  | Some f => if closed f then [] else [Ev (Close (fileno f)) tt]
  | None => []
  end.

(** One acquisition attempt: the record is opened as [f] and [flock]
    replies [r]. *)
Definition attempt (self : LockFile) (f : fd) (r : option errno) : list event :=
  (Ev (OpenW (lock_file_path self)) f :: drop_calls (lock_file self)
   ++ [Ev (FlockExNb f) r])%list.

Definition record_pid (f : fd) (pid : Z) : list event :=
  [Ev Getpid pid; Ev (WriteFlush f (PyInt.py_str pid)) tt].

Definition busy : option errno := Some EWOULDBLOCK.

(** A failed attempt [f] followed by a staleness evaluation that says
    "stale" and by the deletion of the record. *)
Definition broken (self : LockFile) (f : fd) (ts : list event) (u : bool) : list event :=
  (attempt self f busy ++ ts ++ [Ev (Unlink (lock_file_path self)) u])%list.

Inductive acquire_run (self : LockFile)
  : list event -> outcome (bool * LockFile) -> Prop :=
(* the first attempt takes the lock *)
| run_won f pid :
    acquire_run self (attempt self f None ++ record_pid f pid)%list
                (Done (true, holding self f))
(* the first attempt fails, the record is not stale: false at once *)
| run_busy f ts :
    runs (is_stale (holding self f)) ts (Done false) ->
    acquire_run self (attempt self f busy ++ ts ++ [Ev (Close f) tt])%list
                (Done (false, given_up self f))
(* the record is stale: it is deleted and the second attempt takes the lock *)
| run_retry_won f ts u g pid :
    runs (is_stale (holding self f)) ts (Done true) ->
    acquire_run self
                (broken self f ts u ++ attempt (holding self f) g None
                 ++ record_pid g pid)%list
                (Done (true, holding self g))
(* the second attempt fails too: staleness is evaluated once more, and
   whatever it says the answer is false *)
| run_retry_busy f ts u g ts2 b :
    runs (is_stale (holding self f)) ts (Done true) ->
    runs (is_stale (holding self g)) ts2 (Done b) ->
    acquire_run self
                (broken self f ts u ++ attempt (holding self f) g busy
                 ++ ts2 ++ [Ev (Close g) tt])%list
                (Done (false, given_up self g))
(* exceptions: an error of flock other than EWOULDBLOCK, or one raised
   while staleness is evaluated *)
| run_error f e :
    e <> EWOULDBLOCK ->
    acquire_run self (attempt self f (Some e)) (Exn (OSError e))
| run_stale_raises f ts e :
    runs (is_stale (holding self f)) ts (Exn e) ->
    acquire_run self (attempt self f busy ++ ts)%list (Exn e)
| run_retry_error f ts u g e :
    runs (is_stale (holding self f)) ts (Done true) ->
    e <> EWOULDBLOCK ->
    acquire_run self (broken self f ts u ++ attempt (holding self f) g (Some e))%list
                (Exn (OSError e))
| run_retry_stale_raises f ts u g ts2 e :
    runs (is_stale (holding self f)) ts (Done true) ->
    runs (is_stale (holding self g)) ts2 (Exn e) ->
    acquire_run self
                (broken self f ts u ++ attempt (holding self f) g busy ++ ts2)%list
                (Exn e).

(** Calls that never occur while staleness is evaluated. *)
Definition is_open (e : event) : bool :=
  match e with
  | Ev (OpenW _) _ => true
  | _ => false
  end.

Definition locking (e : event) : bool :=
  Download.is_flock e || Download.is_unlink e || is_open e.

Definition is_kill (e : event) : bool :=
  match e with
  | Ev (Kill _ _) _ => true
  | _ => false
  end.

End Behaviour.

(** Concrete situations the statements are checked in. *)
Module Scenario.

Import Lock Download World.

Definition cache_dir : string := "/cache".
Definition lock_path : string := LOCK_PATH cache_dir.
Definition the_lock : LockFile := Lock.init lock_path DEFAULT_STALE_AGE.

(** An environment in which the lock is always taken and the record has
    always just vanished. *)
Definition contended (X : Type) (c : sys X) : X :=
  match c in sys X return X with
  | OpenW _ => 3%nat
  | FlockExNb _ => Some EWOULDBLOCK
  | FlockUn _ => tt
  | WriteFlush _ _ => tt
  | Close _ => tt
  | Getpid => 200
  | ReadText _ => None
  | Kill _ _ => None
  | Time => 1000
  | StatMtime _ => None
  | Unlink _ => false
  | Exists _ => false
  | Popen _ => None
  | Communicate _ _ => tt
  | Wait _ _ => None
  | Poll _ => None
  end.

(** Processes 100 and 200 are alive; a fetch batch takes [duration] and
    writes the files [outs]. *)
Definition live (p : Z) : bool := Z.eqb p 100 || Z.eqb p 200.

Definition start (duration : Z) (outs : list string) : world :=
  World.empty 1000 live (fun _ => (duration, 0, outs)).

(** Process 100 has acquired the lock in an empty cache directory. *)
Definition held : world :=
  fst (fst (exec_prog 100 (acquire RECURSION_LIMIT the_lock false) (start 0 []))).


End Scenario.

(* ================================================================== *)
(** ** Further code and vocabulary *)

(** The value of a decimal numeral read after the digits worth [acc]. *)
Module Numeral.

Fixpoint uint_value (d : Decimal.uint) (acc : Z) : Z :=
  match d with
  | Decimal.Nil => acc
  | Decimal.D0 l => uint_value l (acc * 10 + 0)
  | Decimal.D1 l => uint_value l (acc * 10 + 1)
  | Decimal.D2 l => uint_value l (acc * 10 + 2)
  | Decimal.D3 l => uint_value l (acc * 10 + 3)
  | Decimal.D4 l => uint_value l (acc * 10 + 4)
  | Decimal.D5 l => uint_value l (acc * 10 + 5)
  | Decimal.D6 l => uint_value l (acc * 10 + 6)
  | Decimal.D7 l => uint_value l (acc * 10 + 7)
  | Decimal.D8 l => uint_value l (acc * 10 + 8)
  | Decimal.D9 l => uint_value l (acc * 10 + 9)
  end.

Definition not_space (c : ascii) : bool := negb (Text.is_space c).

End Numeral.

(** [LockFile.__call__]: the decorator.  [wrapper] is the function it
    returns; [func] stands for the call of the decorated function
    with the arguments of the wrapper. *)
Module Decorator.

Import Lock.

(** The body of a [with self:] block followed by [__exit__], which runs
    whether the body returns or raises; [__exit__] returns nothing, so an
    exception of the body goes on, unless [__exit__] raises one itself. *)
Fixpoint with_exit {R : Type} (body : prog R) (self : LockFile) : prog (R * LockFile) :=
  match body with
  | Ret r => s <- exit self ;; Ret (r, s)
  | Raise e => exit self ;;; Raise e
  | Sys c k => Sys c (fun x => with_exit (k x) self)
  end.

Definition wrapper {R : Type} (self : LockFile) (func : prog R) : prog (R * LockFile) :=
  self <- enter self ;;
  with_exit func self.

End Decorator.

(** The runs of [is_stale], spelled out. *)
Module Staleness.

Import Lock.

(** The verdict of [_is_file_stale] from what the clock and [stat] said. *)
Definition aged (self : LockFile) (now : Z) (m : option Z) : bool :=
  match m with
  | Some st_mtime => now - st_mtime >? stale_age_sec self
  | None => true
  end.

Definition age_calls (self : LockFile) (now : Z) (m : option Z) : list event :=
  [Ev Time now; Ev (StatMtime (lock_file_path self)) m].

(** Replies of [os.kill(pid, 0)] that mean the process is gone. *)
Definition gone (r : option errno) : bool :=
  match r with
  | Some ESRCH | Some ENOENT => true
  | _ => false
  end.

Definition read (self : LockFile) (s : option string) : event :=
  Ev (ReadText (lock_file_path self)) s.

Definition parsed (s : string) : option Z := PyInt.py_int (Text.strip s).

Inductive is_stale_run (self : LockFile) : list event -> outcome bool -> Prop :=
| stale_vanished :
    is_stale_run self [read self None] (Done true)
| stale_unreadable s now m :
    parsed s = None ->
    is_stale_run self (read self (Some s) :: age_calls self now m)
                 (Done (aged self now m))
| stale_overflow s pid :
    parsed s = Some pid -> fits_c_int pid = false ->
    is_stale_run self [read self (Some s)] (Exn OverflowError)
| stale_dead s pid r :
    parsed s = Some pid -> fits_c_int pid = true -> gone r = true ->
    is_stale_run self [read self (Some s); Ev (Kill pid 0) r] (Done true)
| stale_young s pid r now m :
    parsed s = Some pid -> fits_c_int pid = true -> gone r = false ->
    aged self now m = false ->
    is_stale_run self (read self (Some s) :: Ev (Kill pid 0) r :: age_calls self now m)
                 (Done false)
| stale_aged s pid r now m k :
    parsed s = Some pid -> fits_c_int pid = true -> gone r = false ->
    aged self now m = true ->
    is_stale_run self
                 (read self (Some s) :: Ev (Kill pid 0) r :: age_calls self now m
                  ++ [Ev (Kill pid 9) k])
                 (match k with
                  | None => Done true
                  | Some e => Exn (OSError e)
                  end).

(** The process a call signals with something else than the probe 0. *)
Definition signalled (e : event) : option Z :=
  match e with
  | Ev (Kill pid sig) _ => if Z.eqb sig 0 then None else Some pid
  | _ => None
  end.

Definition is_flock_un (e : event) : bool :=
  match e with
  | Ev (FlockUn _) _ => true
  | _ => false
  end.

End Staleness.

(** Further environments. *)
Module Replying.

Import Lock.

(** The record names process 4711, which answers the probe, and the file
    is [age] old. *)
Definition hung_holder (age : Z) (X : Type) (c : sys X) : X :=
  match c in sys X return X with
  | OpenW _ => 3%nat
  | FlockExNb _ => Some EWOULDBLOCK
  | FlockUn _ => tt
  | WriteFlush _ _ => tt
  | Close _ => tt
  | Getpid => 200
  | ReadText _ => Some "4711"
  | Kill _ _ => None
  | Time => 1000
  | StatMtime _ => Some (1000 - age)
  | Unlink _ => true
  | Exists _ => false
  | Popen _ => None
  | Communicate _ _ => tt
  | Wait _ _ => None
  | Poll _ => None
  end.


(** Nobody holds the lock. *)
Definition uncontended (X : Type) (c : sys X) : X :=
  match c in sys X return X with
  | FlockExNb _ => None
  | c' => hung_holder 0 c'
  end.

(** The lock is free and curl starts, but every poll finds the batch
    still running. *)
Definition still_running (X : Type) (c : sys X) : X :=
  match c in sys X return X with
  | FlockExNb _ => None
  | Popen _ => Some 7%nat
  | Wait _ _ => Some 0
  | c' => hung_holder 0 c'
  end.

End Replying.

(** Reading the result of [World.exec_prog]. *)
Module Result.

Import World.

Definition world_after {R : Type} (r : world * list event * outcome R) : world :=
  fst (fst r).

Definition calls_of {R : Type} (r : world * list event * outcome R) : list event :=
  snd (fst r).

Definition outcome_of {R : Type} (r : world * list event * outcome R) : outcome R :=
  snd r.

(** No open file holds the lock on the file at [path], if there is one. *)
Definition free (w : world) (path : string) : Prop :=
  match dir w path with
  | Some i => i_lock (inodes w i) = None
  | None => True
  end.


End Result.

(** Vocabulary for the coordinator. *)
Module Coordinator.

Import World Lock Download.

(** Keys in order of first occurrence. *)
Definition first_occurrences (keys : list string) : list string :=
  fold_left (fun acc k => if existsb (String.eqb k) acc then acc else (acc ++ [k])%list)
            keys [].

(** The value of the first entry for [k]. *)
Fixpoint lookup (k : string) (d : list (string * string)) : option string :=
  match d with
  | [] => None
  | (k', v) :: rest => if String.eqb k' k then Some v else lookup k rest
  end.

(** The value of the last pair for [k]. *)
Definition last_value (k : string) (pairs : list (string * string)) : option string :=
  fold_left (fun r kv => if String.eqb (fst kv) k then Some (snd kv) else r) pairs None.

Definition exists_in (w : world) (path : string) : bool :=
  match dir w path with
  | Some _ => true
  | None => false
  end.

Definition exists_call (w : world) (path : string) : event :=
  Ev (Exists path) (exists_in w path).

(** The pairs of the dictionary whose file is missing in [w]. *)
Definition needed_in (w : world) (pairs : list (string * string)) : list (string * string) :=
  List.filter (fun up => negb (exists_in w (snd up))) (ordered_dict pairs).

(** The job list [download] feeds to curl for the pairs [needed]. *)
Definition job_list (needed : list (string * string)) : string :=
  Text.join NEWLINE (curl_in needed).

(** The world once process [pid] has opened, locked and signed the record
    at [path]. *)
Definition locked_by (pid : Z) (path : string) (w : world) : world :=
  let f := next_fd w in
  let w1 := fst (exec pid (OpenW path) w) in
  let w2 := fst (exec pid (FlockExNb f) w1) in
  fst (exec pid (WriteFlush f (PyInt.py_str pid)) w2).

Definition acquire_calls (pid : Z) (path : string) (f : fd) : list event :=
  [Ev (OpenW path) f; Ev (FlockExNb f) None; Ev Getpid pid;
   Ev (WriteFlush f (PyInt.py_str pid)) tt].

(** The readiness loop has nothing to release: no batch was started, or
    the batch has ended. *)
Definition settled (w : world) (self : IconDownloader) : Prop :=
  match proc self with
  | Some h => exists rc, children w h = Some (Finished rc)
  | None => True
  end.

(** The calls of the readiness loop when it has nothing to release. *)
Definition check_calls (w : world) (self : IconDownloader) (path : string) : list event :=
  match proc self with
  | Some h =>
      [exists_call w path;
       Ev (Poll h) (match children w h with
                    | Some (Finished rc) => Some rc
                    | _ => None
                    end)]
  | None => [exists_call w path]
  end.

Definition is_exists (e : event) : bool :=
  match e with
  | Ev (Exists _) _ => true
  | _ => false
  end.

(** A poll that answers "still running". *)
Definition poll_running (e : event) : bool :=
  match e with
  | Ev (Poll _) None => true
  | _ => false
  end.

(** The answers the [exists()] calls of a trace got, in order. *)
Definition exists_replies (t : list event) : list bool :=
  flat_map (fun e => match e with
                     | Ev (Exists _) b => [b]
                     | _ => []
                     end) t.

(** The [exists()] calls of a trace, each with the path asked about and
    the answer, in order. *)
Definition exists_log (t : list event) : list (string * bool) :=
  flat_map (fun e => match e with
                     | Ev (Exists p) b => [(p, b)]
                     | _ => []
                     end) t.

(** A call that neither unlocks nor is a poll answering "still running". *)
Definition calm (e : event) : Prop :=
  Staleness.is_flock_un e = false /\ poll_running e = false.

(** No unlock at all, or a single one that directly follows a poll
    answering "still running". *)
Definition unlocks_after_poll (t : list event) : Prop :=
  count Staleness.is_flock_un t = O
  \/ exists pre h f post,
       t = (pre ++ Ev (Poll h) None :: Ev (FlockUn f) tt :: post)%list
       /\ count Staleness.is_flock_un pre = O
       /\ count Staleness.is_flock_un post = O.

Definition is_wait (e : event) : bool :=
  match e with
  | Ev (Wait _ _) _ => true
  | _ => false
  end.

(** An empty cache directory on a machine where curl cannot be started. *)
Definition without_curl : world :=
  MkWorld 1000 (fun _ => None) (fun _ => Inode EmptyString 0 None) O
          (fun _ => None) O (fun p => Z.eqb p 100) (fun _ => None) O false
          (fun _ => (0, 0, [])).

End Coordinator.

(** Keeping a lock. *)
Module Keeping.

Import World.

(** Process [pid] holds the lock on the file [i] at [path] through its
    open file [f]. *)
Definition holds (pid : Z) (path : string) (i : nat) (f : fd) (a : world) : Prop :=
  dir a path = Some i
  /\ (i < next_ino a)%nat
  /\ i_lock (inodes a i) = Some f
  /\ (f < next_fd a)%nat
  /\ exists o, files a f = Some o /\ o_pid o = pid.

(** Calls that cannot take that lock away: anything but closing or
    unlocking [f], unlinking [path], or a signal other than the probe. *)
Definition keeps_lock (path : string) (f : fd) (e : event) : bool :=
  match e with
  | Ev (Close g) _ => negb (Nat.eqb g f)
  | Ev (FlockUn g) _ => negb (Nat.eqb g f)
  | Ev (Unlink q) _ => negb (String.eqb q path)
  | Ev (Kill _ sig) _ => Z.eqb sig 0
  | _ => true
  end.

(** The calls [download] makes once it has the lock. *)
Definition launch_calls (log_path : string) (log : fd) (h : handle)
           (input : string) (timeout rc : Z) : list event :=
  [Ev (OpenW log_path) log; Ev (Popen log) (Some h); Ev (Close log) tt;
   Ev (Communicate h input) tt; Ev (Wait h timeout) (Some rc)].

End Keeping.

(** Shapes of file names. *)
Module Names.

Definition is_lower_hex (c : ascii) : bool :=
  Text.is_digit c || Text.between 97 102 c.

Definition not_colon (c : ascii) : bool := negb (Ascii.eqb c ":").

Definition byte_range (b : Z) : Prop := 0 <= b < 256.

(** Lowercase hexadecimal text of a list of bytes. *)
Definition hex_of (bs : list Z) : string :=
  fold_right (fun b acc => Text.hex_byte false b ++ acc) EmptyString bs.

End Names.

(* ================================================================== *)
(** ** Two processes at once *)

(** Two processes run one program each.  Their system calls take effect
    one at a time, in the order a schedule gives, and time passes before
    each call. *)
Module Interleaving.

Import World.

(** The next call of the program of process [pid]; a program that has
    ended stays as it is. *)
Definition step_proc {R : Type} (pid : Z) (p : prog R) (w : world) : world * prog R :=
  match p with
  | Sys c k => let (w', x) := exec pid c w in (w', k x)
  | _ => (w, p)
  end.

(** Whose turn it is, after how long. *)
Inductive turn := RunA (dt : Z) | RunB (dt : Z).

Record config (R : Type) := Config { env : world; proc_a : prog R; proc_b : prog R }.
Arguments Config {R}.
Arguments env {R}.
Arguments proc_a {R}.
Arguments proc_b {R}.

Definition step {R : Type} (pa pb : Z) (c : config R) (t : turn) : config R :=
  match t with
  | RunA dt =>
      let (w, p) := step_proc pa (proc_a c) (tick dt (env c)) in
      Config w p (proc_b c)
  | RunB dt =>
      let (w, p) := step_proc pb (proc_b c) (tick dt (env c)) in
      Config w (proc_a c) p
  end.

Definition interleave {R : Type} (pa pb : Z) (s : list turn) (c : config R) : config R :=
  fold_left (step pa pb) s c.

Definition delay (t : turn) : Z :=
  match t with RunA dt | RunB dt => Z.max 0 dt end.

(** The time a schedule takes. *)
Definition elapsed (s : list turn) : Z := fold_right (fun t a => delay t + a) 0 s.

Definition is_a (t : turn) : bool := match t with RunA _ => true | RunB _ => false end.

Definition turns_of_a (s : list turn) : nat := List.length (filter is_a s).

Definition turns_of_b (s : list turn) : nat :=
  List.length (filter (fun t => negb (is_a t)) s).

(** Fourteen turns, seven each, twenty seconds in all. *)
Definition sample : list turn :=
  [RunA 1; RunB 1; RunB 2; RunA 0; RunA 3; RunB 1; RunB 1;
   RunA 1; RunB 1; RunB 5; RunB 1; RunA 1; RunA 1; RunA 1].

End Interleaving.

(** How far a process has come in [acquire], what it may call there, and
    what the other process may have done to the record meanwhile. *)
Module Race.

Import Lock World Result Interleaving.

Inductive stage := Fresh | Opened (f : fd) | Won (f : fd) | Written (f : fd) | Lost (f : fd).

(** The descriptor through which a process holds the lock. *)
Definition holder (st : stage) : option fd :=
  match st with Won f | Written f => Some f | _ => None end.

Definition descriptor (st : stage) : option fd :=
  match st with
  | Fresh => None
  | Opened f | Won f | Written f | Lost f => Some f
  end.

Definition lost (st : stage) : Prop := match st with Lost _ => True | _ => False end.

Definition written (st : stage) : Prop := match st with Written _ => True | _ => False end.

Definition apart (sm so : stage) : Prop :=
  match descriptor sm, descriptor so with
  | Some f, Some g => f <> g
  | _, _ => True
  end.

Definition lock_of (sm so : stage) : option fd :=
  match holder sm with Some f => Some f | None => holder so end.

Section Protocol.

(** The record, the time the race began and the time it is over by; the
    process looked at and the other one. *)
Variables (path : string) (t0 limit : Z).
Variables (me other : Z).

(** The calls a process makes at each stage. *)
Definition allowed (st : stage) {X : Type} (c : sys X) : Prop :=
  match st, c with
  | Fresh, OpenW p => p = path
  | Opened f, FlockExNb g => g = f
  | Won f, Getpid => True
  | Won f, WriteFlush g s => g = f /\ s = PyInt.py_str me
  | Lost f, ReadText p => p = path
  | Lost f, Kill p sig => sig = 0 /\ (p = me \/ p = other)
  | Lost f, Time => True
  | Lost f, StatMtime p => p = path
  | Lost f, Close g => g = f
  | _, _ => False
  end.

(** What the record can hold during the race. *)
Definition benign (s : string) : Prop :=
  s = "" \/ s = PyInt.py_str me \/ s = PyInt.py_str other.

(** The replies a process gets while only the two of them are at work. *)
Definition rely {X : Type} (c : sys X) : X -> Prop :=
  match c in sys X return X -> Prop with
  | FlockExNb _ => fun x => x = None \/ x = Some EWOULDBLOCK
  | Getpid => fun x => x = me
  | ReadText _ => fun x => exists s, x = Some s /\ benign s
  | Kill _ _ => fun x => x = None
  | Time => fun x => x <= limit
  | StatMtime _ => fun x => exists m, x = Some m /\ t0 <= m
  | _ => fun _ => True
  end.

Definition next (st : stage) {X : Type} (c : sys X) : X -> stage :=
  match c in sys X return X -> stage with
  | OpenW _ => fun f => Opened f
  | FlockExNb f => fun x => match x with None => Won f | Some _ => Lost f end
  | WriteFlush f _ => fun _ => Written f
  | _ => fun _ => st
  end.

(** The flag [acquire] returns at the stage it ends in. *)
Definition verdict (st : stage) (r : bool * LockFile) : Prop :=
  match st with
  | Written _ => fst r = true
  | Lost _ => fst r = false
  | _ => False
  end.

(** The program makes at most [n] more calls, each allowed at its stage,
    does not raise, and returns the flag of the stage it ends in, as long
    as the replies are as [rely] says. *)
Fixpoint within (n : nat) (st : stage) (p : prog (bool * LockFile)) {struct p} : Prop :=
  match p with
  | Ret r => verdict st r
  | Raise _ => False
  | Sys c k =>
      match n with
      | O => False
      | S m => allowed st c /\ forall x, rely c x -> within m (next st c x) (k x)
      end
  end.

(** The open file of process [pid] at stage [st], on file [i]. *)
Definition proc_ok (w : world) (i : nat) (pid : Z) (st : stage) : Prop :=
  match st with
  | Fresh => True
  | Opened f | Won f => (f < next_fd w)%nat /\ files w f = Some (OFile pid i 0 true)
  | Written f =>
      (f < next_fd w)%nat /\ exists pos, files w f = Some (OFile pid i pos true)
  | Lost f => (f < next_fd w)%nat /\ exists o, files w f = Some o /\ o_ino o = i
  end.

(** The record: locked by the process that won, touched since the race
    began, and empty unless the winner's identifier is in it. *)
Definition record_ok (w : world) (i : nat) (sm so : stage) : Prop :=
  i_lock (inodes w i) = lock_of sm so
  /\ t0 <= i_mtime (inodes w i)
  /\ (i_content (inodes w i) = ""
      \/ (written sm /\ i_content (inodes w i) = PyInt.py_str me)
      \/ (written so /\ i_content (inodes w i) = PyInt.py_str other)).

Definition inv (w : world) (sm so : stage) : Prop :=
  t0 <= now w /\ alive w me = true /\ alive w other = true
  /\ (holder sm = None \/ holder so = None) /\ apart sm so
  /\ (lost sm -> holder so <> None) /\ (lost so -> holder sm <> None)
  /\ match descriptor sm, descriptor so with
     | None, None => free w path
     | _, _ =>
         exists i, dir w path = Some i
                   /\ proc_ok w i me sm /\ proc_ok w i other so
                   /\ record_ok w i sm so
     end.

End Protocol.

(** Both processes follow the protocol, in an environment that fits. *)
Definition good (path : string) (t0 limit pa pb : Z) (na nb : nat)
           (c : config (bool * LockFile)) : Prop :=
  exists sa sb,
    inv path t0 pa pb (env c) sa sb
    /\ within path t0 limit pa pb na sa (proc_a c)
    /\ within path t0 limit pb pa nb sb (proc_b c).

End Race.

(* ================================================================== *)
(** ** Vocabulary for the claims on the lock and the coordinator *)

Module Findings.

Import World Lock Download Scenario.

(** The flag a call of [acquire] returned, if it returned. *)
Definition flag_of {S : Type} (o : outcome (bool * S)) : option bool :=
  match o with
  | Done r => Some (fst r)
  | Exn _ => None
  end.

(** The flags [run] returned, if it returned. *)
Definition ready_of {S : Type} (o : outcome (list bool * S)) : option (list bool) :=
  match o with
  | Done r => Some (fst r)
  | Exn _ => None
  end.


(** Every file asked about is there. *)
Definition all_present (X : Type) (c : sys X) : X :=
  match c in sys X return X with
  | Exists _ => true
  | c' => Replying.hung_holder 0 c'
  end.

Definition is_communicate (e : event) : bool :=
  match e with
  | Ev (Communicate _ _) _ => true
  | _ => false
  end.

(** The downloader remembers no batch, or its lock object holds an open
    file. *)
Definition armed (self : IconDownloader) : Prop :=
  proc self = None \/ exists f, lock_file (lockfile self) = Some (File f false).


(** The two pages of the scenario with one cache path. *)
Definition page_1 : string := "https://a.com/x?q=1".
Definition page_2 : string := "https://a.com/x?q=2".

End Findings.

(* ================================================================== *)
(** * Properties *)

Import PathResolver.

Unset Implicit Arguments.

(** ** Sanity checks of the text, digest and path functions *)

Example sha256_constants :
  List.length Sha256.K = 64%nat
  /\ firstn 2 Sha256.K = [0x428a2f98; 0x71374491]
  /\ last Sha256.K 0 = 0xc67178f2
  /\ firstn 2 Sha256.H0 = [0x6a09e667; 0xbb67ae85]
  /\ last Sha256.H0 0 = 0x5be0cd19.
Proof. vm_compute. repeat split. Qed.

Example sha256_abc :
  Sha256.hexdigest "abc"
  = "ba7816bf8f01cfea414140de5dae2223b00361a396177a9cb410ff61f20015ad".
Proof. vm_compute. reflexivity. Qed.

Example sha256_empty :
  Sha256.hexdigest ""
  = "e3b0c44298fc1c149afbf4c8996fb92427ae41e4649b934ca495991b7852b855".
Proof. vm_compute. reflexivity. Qed.

Example sha256_two_blocks :
  Sha256.hexdigest
    "aaaaaaaaaaaaaaaaaaaaaaaaaaaaaaaaaaaaaaaaaaaaaaaaaaaaaaaaaaaaaaaaaaaaaa"
  = "6bd5e5034855a11241f0dee8fc72850ffd9955b28347a86428b5fa19119f6ad0".
Proof. vm_compute. reflexivity. Qed.

Example py_int_plain : PyInt.py_int "4711" = Some 4711.
Proof. reflexivity. Qed.

Example py_int_spaces : PyInt.py_int "  -12_3  " = Some (-123).
Proof. reflexivity. Qed.

Example py_int_empty : PyInt.py_int "" = None.
Proof. reflexivity. Qed.

Example py_int_junk : PyInt.py_int "12a" = None.
Proof. reflexivity. Qed.

Example py_str_pid : PyInt.py_str 4711 = "4711".
Proof. reflexivity. Qed.

Example key_url_sub_lines :
  key_url_sub false ("a?b" ++ String Text.LF "c#d" ++ String Text.LF "e")
  = "a" ++ String Text.LF "c" ++ String Text.LF "e".
Proof. reflexivity. Qed.

Example file_url_sub_plain :
  file_url_sub 30 "https://example.com/a?x=1#y" = "example.com/a".
Proof. reflexivity. Qed.

Example file_url_sub_www_only : file_url_sub 20 "http://www.?a" = "www.".
Proof. reflexivity. Qed.

Example file_url_sub_two_matches :
  file_url_sub 40 ("x http://a.b/c?d" ++ String Text.LF "ftp://www.e/f#g")
  = "x a.b/c" ++ String Text.LF "e/f".
Proof. reflexivity. Qed.

Example file_url_sub_no_scheme : file_url_sub 20 "about:blank?x" = "about:blank?x".
Proof. reflexivity. Qed.

Example quote_sample :
  quote ("x a.b/c" ++ String Text.LF "e/f") = "x%20a.b%2Fc%0Ae%2Ff".
Proof. reflexivity. Qed.

Example favicon_path_sample :
  get_favicon_path "https://a.com/x?q=1" "/cache"
  = "/cache/0024b2b1f6aad4449f039610e0c1cb87550e7e92f49eb19becc3206514611c48.png".
Proof. vm_compute. reflexivity. Qed.

(* ================================================================== *)
(** ** PathResolver: what the file pattern removes *)

Section PathFacts.

Import Text Shape.

Lemma append_empty_r (s : string) : s ++ "" = s.
Proof. induction s as [|c s IH]; simpl; [reflexivity | now rewrite IH]. Qed.

Lemma append_assoc (a b c : string) : (a ++ b) ++ c = a ++ b ++ c.
Proof. induction a as [|x a IH]; simpl; [reflexivity | now rewrite IH]. Qed.

Lemma span_app (f : ascii -> bool) (a b : string) :
  forallb f a = true -> stops f b -> span f (a ++ b) = (a, b).
Proof.
  induction a as [|c a IH]; simpl; intros Ha Hb.
  - destruct b as [|c b]; simpl in *; [reflexivity | now rewrite Hb].
  - apply andb_prop in Ha as [Hc Ha]. now rewrite Hc, (IH Ha Hb).
Qed.

Lemma strip_prefix_app (p a b : string) :
  forallb not_qh p = true -> forallb not_qh a = true -> stops not_qh b ->
  strip_prefix p (a ++ b) = option_map (fun r => r ++ b) (strip_prefix p a).
Proof.
  revert a. induction p as [|x p IH]; intros a Hp Ha Hb; simpl.
  - reflexivity.
  - simpl in Hp. apply andb_prop in Hp as [Hx Hp].
    destruct a as [|y a]; simpl.
    + destruct b as [|z b]; simpl; [reflexivity|].
      simpl in Hb. destruct (Ascii.eqb_spec x z) as [->|]; [congruence | reflexivity].
    + simpl in Ha. apply andb_prop in Ha as [_ Ha].
      destruct (Ascii.eqb x y); [now apply IH | reflexivity].
Qed.

Lemma strip_prefix_sound (p s r : string) :
  strip_prefix p s = Some r -> s = p ++ r.
Proof.
  revert s. induction p as [|x p IH]; intros s; simpl.
  - now intros [= ->].
  - destruct s as [|y s]; [discriminate|].
    destruct (Ascii.eqb_spec x y) as [->|]; [|discriminate].
    intros H. now rewrite (IH _ H).
Qed.

Lemma strip_prefix_here (p r : string) : strip_prefix p (p ++ r) = Some r.
Proof.
  induction p as [|x p IH]; simpl; [reflexivity|].
  now rewrite Ascii.eqb_refl.
Qed.

Lemma forallb_app (f : ascii -> bool) (a b : string) :
  forallb f (a ++ b) = forallb f a && forallb f b.
Proof. induction a as [|c a IH]; simpl; [reflexivity | now rewrite IH, andb_assoc]. Qed.

Lemma droppable_stops (suffix : string) : droppable suffix -> stops not_qh suffix.
Proof.
  destruct suffix as [|q tail]; simpl; [trivial|].
  intros [Hq _]. unfold not_qh. now rewrite Hq.
Qed.

Lemma drop_line_droppable (suffix : string) : droppable suffix -> drop_line suffix = "".
Proof.
  destruct suffix as [|q tail]; [reflexivity|]. intros [Hq Ht].
  unfold drop_line.
  replace (String q tail) with (String q tail ++ "") by apply append_empty_r.
  rewrite span_app; [reflexivity | | exact I].
  simpl. rewrite Ht, andb_true_r. unfold not_lf, is_qh in *.
  destruct (Ascii.eqb_spec q LF) as [->|]; [discriminate Hq | reflexivity].
Qed.

Lemma match_group_app (r suffix : string) :
  forallb not_qh r = true -> droppable suffix ->
  match_group (r ++ suffix) = if is_empty r then None else Some (r, "").
Proof.
  intros Hr Hs. unfold match_group.
  rewrite (span_app _ _ _ Hr (droppable_stops _ Hs)).
  destruct r; simpl; [reflexivity | now rewrite drop_line_droppable].
Qed.

Lemma match_here_url (scheme rest suffix : string) :
  scheme <> "" -> forallb is_word scheme = true ->
  rest <> "" -> forallb not_qh rest = true ->
  droppable suffix ->
  match_here (scheme ++ "://" ++ rest ++ suffix) = Some (kept rest, "").
Proof.
  intros Hne Hw Hrne Hr Hs. unfold match_here.
  rewrite (span_app is_word scheme _ Hw) by reflexivity.
  destruct scheme as [|c scheme]; [congruence|]. cbn [is_empty].
  rewrite strip_prefix_here.
  rewrite (strip_prefix_app "www." rest suffix eq_refl Hr (droppable_stops _ Hs)).
  unfold kept. destruct (strip_prefix "www." rest) as [r|] eqn:E; cbn [option_map].
  - assert (Hr' : forallb not_qh r = true).
    { apply strip_prefix_sound in E. subst rest.
      rewrite forallb_app in Hr. now apply andb_prop in Hr as [_ Hr]. }
    rewrite (match_group_app _ _ Hr' Hs).
    destruct r; cbn [is_empty]; [|reflexivity].
    rewrite (match_group_app _ _ Hr Hs).
    destruct rest; [congruence | reflexivity].
  - rewrite (match_group_app _ _ Hr Hs).
    destruct rest; [congruence | reflexivity].
Qed.

Lemma file_url_sub_empty (fuel : nat) : file_url_sub fuel "" = "".
Proof. destruct fuel; reflexivity. Qed.

Lemma file_url_sub_url (fuel : nat) (scheme rest suffix : string) :
  scheme <> "" -> forallb is_word scheme = true ->
  rest <> "" -> forallb not_qh rest = true ->
  droppable suffix ->
  file_url_sub (S fuel) (scheme ++ "://" ++ rest ++ suffix) = kept rest.
Proof.
  intros. cbn [file_url_sub]. rewrite match_here_url by assumption.
  now rewrite file_url_sub_empty, append_empty_r.
Qed.

(** The cache path of [scheme://rest] followed by anything droppable
    depends on [kept rest] alone. *)
Lemma favicon_path_url (dir scheme rest suffix : string) :
  scheme <> "" -> forallb is_word scheme = true ->
  rest <> "" -> forallb not_qh rest = true ->
  droppable suffix ->
  get_favicon_path (scheme ++ "://" ++ rest ++ suffix) dir
  = path_join dir (Sha256.hexdigest (quote (kept rest)) ++ ".png").
Proof.
  intros. unfold get_favicon_path. now rewrite file_url_sub_url.
Qed.

Lemma kept_www (rest : string) :
  rest <> "" -> strip_prefix "www." rest = None -> kept ("www." ++ rest) = kept rest.
Proof.
  intros Hne Hno. unfold kept at 2. rewrite Hno.
  unfold kept. cbn. destruct rest; [congruence | reflexivity].
Qed.

End PathFacts.

Import Shape.

(** C10.  For a URL [scheme://rest] (a scheme of word characters, a
    non-empty remainder free of [?] and [#]): appending a query or a
    fragment ([?] or [#] and any text on the same line) does not change the
    cache path, and neither does a [www.] put after the scheme, when [rest]
    does not itself start with [www.]; the two equalities the
    specification lists are instances. *)
Theorem cache_path_ignores_query_and_www
  (dir scheme rest : string) (q : ascii) (tail : string)
  (Hscheme : scheme <> "" /\ Text.forallb Text.is_word scheme = true)
  (Hrest : rest <> "" /\ Text.forallb not_qh rest = true)
  (Hq : is_qh q = true) (Htail : Text.forallb not_lf tail = true) :
  get_favicon_path (scheme ++ "://" ++ rest ++ String q tail) dir
  = get_favicon_path (scheme ++ "://" ++ rest) dir
  /\ (Text.strip_prefix "www." rest = None ->
      get_favicon_path (scheme ++ "://" ++ "www." ++ rest) dir
      = get_favicon_path (scheme ++ "://" ++ rest) dir)
  /\ get_favicon_path "https://example.com/a?x=1#y" dir
     = get_favicon_path "https://example.com/a" dir
  /\ get_favicon_path "http://www.example.com/a" dir
     = get_favicon_path "http://example.com/a" dir.
Proof.
  destruct Hscheme as [Hs1 Hs2], Hrest as [Hr1 Hr2].
  assert (Hplain : forall s r, s <> "" -> Text.forallb Text.is_word s = true ->
            r <> "" -> Text.forallb not_qh r = true ->
            get_favicon_path (s ++ "://" ++ r) dir
            = path_join dir (Sha256.hexdigest (quote (kept r)) ++ ".png")).
  { intros s r ? ? ? ?.
    rewrite <- (append_empty_r r) at 1.
    now apply favicon_path_url. }
  split; [|split; [|split]].
  - rewrite favicon_path_url, Hplain by (simpl; auto). reflexivity.
  - intros Hno.
    rewrite (Hplain scheme ("www." ++ rest)), Hplain; auto.
    + now rewrite kept_www.
    + discriminate.
  - change "https://example.com/a?x=1#y"
      with ("https" ++ "://" ++ "example.com/a" ++ String "?" "x=1#y").
    change "https://example.com/a" with ("https" ++ "://" ++ "example.com/a").
    rewrite favicon_path_url, Hplain by (try discriminate; simpl; auto).
    reflexivity.
  - change "http://www.example.com/a" with ("http" ++ "://" ++ "www.example.com/a").
    change "http://example.com/a" with ("http" ++ "://" ++ "example.com/a").
    rewrite !Hplain by (try discriminate; reflexivity).
    reflexivity.
Qed.

Lemma cache_path_ignores_query_and_www_witness :
  get_favicon_path "https://example.com/a?x=1#y" "/cache"
  = get_favicon_path "https://example.com/a" "/cache"
  /\ get_favicon_path "http://www.example.com/a" "/cache"
     = get_favicon_path "http://example.com/a" "/cache".
Proof.
  assert (H1 : "https" <> "" /\ Text.forallb Text.is_word "https" = true)
    by (split; [discriminate | reflexivity]).
  assert (H2 : "example.com/a" <> "" /\ Text.forallb not_qh "example.com/a" = true)
    by (split; [discriminate | reflexivity]).
  assert (H3 : is_qh "?" = true) by reflexivity.
  assert (H4 : Text.forallb not_lf "x=1#y" = true) by reflexivity.
  pose proof (cache_path_ignores_query_and_www
                "/cache" "https" "example.com/a" "?" "x=1#y" H1 H2 H3 H4) as H.
  exact (proj2 (proj2 H)).
Defined.

(** C10, as the claim states it, fails.  Where the pattern finds no
    [scheme://] nothing is removed, so a fragment changes the path; where
    nothing follows [://] there is no match either, so a query changes the
    path; and of two [www.] only the first is removed. *)
Lemma cache_path_where_the_pattern_removes_less :
  get_favicon_path "about:blank#blocked" "/cache"
  <> get_favicon_path "about:blank" "/cache"
  /\ get_favicon_path "http://?x" "/cache" <> get_favicon_path "http://" "/cache"
  /\ get_favicon_path "http://www.www.a.com/" "/cache"
     <> get_favicon_path "http://www.a.com/" "/cache".
Proof. vm_compute. repeat split; discriminate. Qed.

(* ================================================================== *)
(** ** Programs and their traces *)

Import Lock Download Replies.

Section Traces.

Context {A B : Type}.

Lemma runs_bind_done (p : prog A) (k : A -> prog B) t1 a t2 o :
  runs p t1 (Done a) -> runs (k a) t2 o -> runs (bind p k) (t1 ++ t2)%list o.
Proof.
  revert t1. induction p as [r|e|X c h IH]; cbn; intros t1.
  - intros [-> [= ->]]. trivial.
  - intros [_ [=]].
  - intros (x & t' & -> & Hp) Hk. exists x, (t' ++ t2)%list. split; [reflexivity|].
    now apply IH.
Qed.

Lemma runs_bind_exn (p : prog A) (k : A -> prog B) t e :
  runs p t (Exn e) -> runs (bind p k) t (Exn e).
Proof.
  revert t. induction p as [r|e'|X c h IH]; cbn; intros t.
  - intros [_ [=]].
  - intros [-> [= ->]]. auto.
  - intros (x & t' & -> & Hp). exists x, t'. split; [reflexivity|]. now apply IH.
Qed.

Lemma runs_bind_inv (p : prog A) (k : A -> prog B) t o :
  runs (bind p k) t o ->
  (exists t1 a t2, t = (t1 ++ t2)%list /\ runs p t1 (Done a) /\ runs (k a) t2 o)
  \/ (exists e, runs p t (Exn e) /\ o = Exn e).
Proof.
  revert t. induction p as [r|e|X c h IH]; cbn; intros t.
  - intros H. left. exists [], r, t. auto.
  - intros [-> ->]. right. exists e. auto.
  - intros (x & t' & -> & H). apply IH in H as [(t1 & a & t2 & -> & H1 & H2)|(e & H1 & ->)].
    + left. exists (Ev c x :: t1), a, t2. split; [reflexivity|]. split; [|assumption].
      exists x, t1. auto.
    + right. exists e. split; [|reflexivity]. exists x, t'. auto.
Qed.

End Traces.

Lemma runs_call {X : Type} (c : sys X) t o :
  runs (call c) t o <-> exists x, t = [Ev c x] /\ o = Done x.
Proof.
  unfold call; cbn. split.
  - intros (x & t' & -> & -> & ->). eauto.
  - intros (x & -> & ->). exists x, []. auto.
Qed.

Lemma run_with_runs {R : Type} reply (p : prog R) :
  runs p (fst (run_with reply p)) (snd (run_with reply p)).
Proof.
  induction p as [r|e|X c k IH]; cbn; auto.
  specialize (IH (reply X c)). destruct (run_with reply (k (reply X c))) as [t o].
  exists (reply X c), t. auto.
Qed.

(** The sequential interpreter produces a run. *)
Lemma exec_prog_runs {R : Type} pid (p : prog R) w :
  runs p (snd (fst (World.exec_prog pid p w))) (snd (World.exec_prog pid p w)).
Proof.
  revert w. induction p as [r|e|X c k IH]; intros w; cbn; auto.
  destruct (World.exec pid c w) as [w1 x]. specialize (IH x w1).
  destruct (World.exec_prog pid (k x) w1) as [[w2 t] o]. cbn in *.
  exists x, t. auto.
Qed.

Lemma exec_prog_bind {P Q : Type} pid (p : prog P) (k : P -> prog Q) w :
  World.exec_prog pid (bind p k) w
  = let '(w1, t1, o1) := World.exec_prog pid p w in
    match o1 with
    | Done a => let '(w2, t2, o2) := World.exec_prog pid (k a) w1 in
                (w2, (t1 ++ t2)%list, o2)
    | Exn e => (w1, t1, Exn e)
    end.
Proof.
  revert w. induction p as [r|e|X c h IH]; intros w; cbn.
  - destruct (World.exec_prog pid (k r) w) as [[w2 t2] o2]. reflexivity.
  - reflexivity.
  - destruct (World.exec pid c w) as [w1 x]. rewrite IH.
    destruct (World.exec_prog pid (h x) w1) as [[w2 t1] [a|e]].
    + destruct (World.exec_prog pid (k a) w2) as [[w3 t2] o2]. reflexivity.
    + reflexivity.
Qed.

Lemma view_inj {X : Type} (c : sys X) (x y : X) : view c x = view c y -> x = y.
Proof.
  destruct c; cbn; intros H;
    try (now destruct x, y); congruence.
Qed.

Lemma ev_inj {X : Type} (c : sys X) (x y : X) : Ev c x = Ev c y -> x = y.
Proof.
  intros H. apply (view_inj c). exact (f_equal event_view H).
Qed.

(** A program's run is determined by the replies: two runs that agree as
    far as they both go are the same run. *)
Lemma runs_deterministic {R : Type} (p : prog R) t1 o1 r1 t2 o2 r2 :
  runs p t1 o1 -> runs p t2 o2 -> (t1 ++ r1 = t2 ++ r2)%list ->
  t1 = t2 /\ o1 = o2 /\ r1 = r2.
Proof.
  revert t1 t2. induction p as [r|e|X c k IH]; cbn; intros t1 t2.
  - intros [-> ->] [-> ->] H. auto.
  - intros [-> ->] [-> ->] H. auto.
  - intros (x & t1' & -> & H1) (y & t2' & -> & H2) H. cbn in H.
    pose proof (f_equal (@tl event) H) as Hrest. cbn in Hrest.
    assert (Hev : Ev c x = Ev c y).
    { pose proof (f_equal (@hd_error event) H) as Hh. cbn in Hh. congruence. }
    apply ev_inj in Hev. subst y.
    destruct (IH x t1' t2' H1 H2 Hrest) as (-> & -> & ->). auto.
Qed.

(* ================================================================== *)
(** ** ProcessLock: the runs of [acquire] *)

Import Behaviour.

Lemma drop_ref_runs old t o :
  runs (drop_ref old) t o <-> t = drop_calls old /\ o = Done tt.
Proof.
  unfold drop_ref, drop_calls. destruct old as [[f [|]]|]; cbn.
  - tauto.
  - split.
    + intros ([] & t' & -> & -> & ->). auto.
    + intros [-> ->]. exists tt, []. auto.
  - tauto.
Qed.

Lemma break_lock_runs self t o :
  runs (break_lock self) t o
  <-> exists u, t = [Ev (Unlink (lock_file_path self)) u] /\ o = Done tt.
Proof.
  unfold break_lock; cbn. split.
  - intros (u & t' & -> & -> & ->). eauto.
  - intros (u & -> & ->). exists u, []. auto.
Qed.

Lemma errno_eqb_spec a b : reflect (a = b) (errno_eqb a b).
Proof. destruct a, b; cbn; constructor; congruence. Qed.

(** One level of [acquire]. *)
Lemma acquire_step fuel self is_retry t o :
  runs (acquire (S fuel) self is_retry) t o <->
  exists f,
    (exists pid, t = (attempt self f None ++ record_pid f pid)%list
                 /\ o = Done (true, holding self f))
    \/ (exists e, e <> EWOULDBLOCK /\ t = attempt self f (Some e)
                  /\ o = Exn (OSError e))
    \/ (exists ts e, runs (is_stale (holding self f)) ts (Exn e)
                     /\ t = (attempt self f busy ++ ts)%list /\ o = Exn e)
    \/ (exists ts b, runs (is_stale (holding self f)) ts (Done b)
                     /\ b && negb is_retry = false
                     /\ t = (attempt self f busy ++ ts ++ [Ev (Close f) tt])%list
                     /\ o = Done (false, given_up self f))
    \/ (exists ts u t', runs (is_stale (holding self f)) ts (Done true)
                        /\ is_retry = false
                        /\ t = (broken self f ts u ++ t')%list
                        /\ runs (acquire fuel (holding self f) true) t' o).
Proof.
  cbn [acquire bind call]. fold (holding self). split.
  - intros (f & t0 & -> & H). exists f.
    apply runs_bind_inv in H as [(tc & [] & t1 & -> & Hc & H)|(e & Hc & _)];
      [|apply drop_ref_runs in Hc as [_ [=]]].
    apply drop_ref_runs in Hc as [-> _].
    cbn [bind] in H. destruct H as (r & t2 & -> & H).
    destruct r as [e|].
    + destruct (errno_eqb_spec e EWOULDBLOCK) as [->|Hne]; cbn [negb] in H.
      * apply runs_bind_inv in H as [(ts & b & t3 & -> & Hs & H)|(e & Hs & ->)].
        -- destruct (b && negb is_retry) eqn:Hb.
           ++ apply andb_prop in Hb as [-> Hr]. apply negb_true_iff in Hr.
              apply runs_bind_inv in H as [(tu & [] & t4 & -> & Hu & H)|(e & Hu & _)];
                [|apply break_lock_runs in Hu as (u & _ & [=])].
              apply break_lock_runs in Hu as (u & -> & _).
              do 4 right. exists ts, u, t4. repeat split; auto.
              unfold broken, attempt. cbn. now rewrite <- !app_assoc.
           ++ cbn in H. destruct H as ([] & t4 & -> & -> & ->).
              do 3 right; left. exists ts, b. repeat split; auto.
              unfold attempt. cbn. now rewrite <- !app_assoc.
        -- do 2 right; left. exists t2, e. repeat split; auto.
           unfold attempt. cbn. now rewrite <- !app_assoc.
      * cbn in H. destruct H as [-> ->]. right; left. exists e. auto.
    + cbn in H. destruct H as (pid & t3 & -> & [] & t4 & -> & -> & ->).
      left. exists pid. split; [|reflexivity].
      unfold attempt, record_pid. cbn. now rewrite <- !app_assoc.
  - intros (f & H).
    assert (Hd : forall t' o' (k : unit -> prog (bool * LockFile)),
               runs (k tt) t' o' ->
               runs (bind (drop_ref (lock_file self)) k)
                    (drop_calls (lock_file self) ++ t')%list o').
    { intros t' o' k Hk. apply (runs_bind_done _ _ _ tt); [|exact Hk].
      now apply drop_ref_runs. }
    destruct H as [(pid & -> & ->)|[(e & Hne & -> & ->)|[(ts & e & Hs & -> & ->)
                  |[(ts & b & Hs & Hb & -> & ->)|(ts & u & t' & Hs & -> & -> & H)]]]];
      unfold broken, attempt; cbn [app]; rewrite <- ?app_assoc; cbn [app];
      exists f; eexists; (split; [reflexivity|]); apply Hd; cbn [bind app].
    + exists None, (record_pid f pid). split; [reflexivity|]. cbn.
      exists pid. eexists. split; [reflexivity|]. exists tt, []. auto.
    + exists (Some e), []. split; [reflexivity|].
      destruct (errno_eqb_spec e EWOULDBLOCK); [contradiction|]. cbn. auto.
    + exists busy. eexists. split; [reflexivity|]. cbn [busy errno_eqb negb].
      now apply runs_bind_exn.
    + exists busy. eexists. split; [reflexivity|]. cbn [busy errno_eqb negb].
      apply (runs_bind_done _ _ _ b); [exact Hs|]. rewrite Hb. cbn.
      exists tt, []. auto.
    + exists busy. eexists. split; [reflexivity|]. cbn [busy errno_eqb negb].
      apply (runs_bind_done _ _ _ true); [exact Hs|]. cbn [andb negb].
      apply (runs_bind_done _ _ [_] tt); [|exact H].
      apply break_lock_runs. eauto.
Qed.

Lemma count_app f (a b : list event) :
  count f (a ++ b) = (count f a + count f b)%nat.
Proof. unfold count. now rewrite filter_app, length_app. Qed.

Lemma count_none f (t : list event) :
  Forall (fun e => f e = false) t -> count f t = O.
Proof.
  unfold count. induction 1 as [|e t He _ IH]; cbn; [reflexivity|]. now rewrite He.
Qed.

(** Inversion of a run, call by call. *)
Ltac run_inv H :=
  repeat first
    [ progress cbn [runs bind call] in H
    | match type of H with
      | exists _, _ => destruct H as (? & ? & -> & H)
      | _ /\ _ => destruct H as [-> ->]
      | runs ?p _ _ =>
          match p with
          | context [match ?x with _ => _ end] => destruct x eqn:?
          end
      end ].

(** Staleness is evaluated without touching the lock: no open, no flock,
    no unlink; and it never exhausts the recursion depth. *)
Lemma is_stale_quiet self ts o :
  runs (is_stale self) ts o ->
  Forall (fun e => locking e = false) ts /\ o <> Exn RecursionError.
Proof.
  unfold is_stale, is_stale_running, _is_file_stale. intros H.
  run_inv H; split; try discriminate; repeat constructor.
Qed.

Lemma is_stale_counts self ts o :
  runs (is_stale self) ts o ->
  count is_flock ts = O /\ count is_unlink ts = O /\ count is_open ts = O.
Proof.
  intros H. apply is_stale_quiet in H as [H _].
  repeat split; apply count_none; eapply Forall_impl; try exact H;
    cbn; unfold locking; intros e He;
    apply orb_false_iff in He as [He Ho]; apply orb_false_iff in He as [Hf Hu]; assumption.
Qed.

Lemma attempt_counts self f r :
  count is_flock (attempt self f r) = 1%nat
  /\ count is_unlink (attempt self f r) = O
  /\ count is_open (attempt self f r) = 1%nat.
Proof.
  unfold attempt, drop_calls. destruct (lock_file self) as [[g [|]]|]; cbn; auto.
Qed.

Lemma acquire_run_sound fuel self t o :
  (2 <= fuel)%nat -> runs (acquire fuel self false) t o -> acquire_run self t o.
Proof.
  intros Hfuel H. destruct fuel as [|[|fuel]]; try lia.
  apply acquire_step in H as (f & [(pid & -> & ->)|[(e & Hne & -> & ->)
    |[(ts & e & Hs & -> & ->)|[(ts & b & Hs & Hb & -> & ->)
    |(ts & u & t' & Hs & _ & -> & H)]]]]).
  - constructor.
  - now constructor.
  - now constructor.
  - rewrite andb_true_r in Hb. subst b. now constructor.
  - apply acquire_step in H as (g & [(pid & -> & ->)|[(e & Hne & -> & ->)
      |[(ts2 & e & Hs2 & -> & ->)|[(ts2 & b & Hs2 & _ & -> & ->)
      |(ts2 & u2 & t2 & _ & [=] & _)]]]]).
    + exact (@run_retry_won self f ts u g pid Hs).
    + exact (@run_retry_error self f ts u g e Hs Hne).
    + exact (@run_retry_stale_raises self f ts u g ts2 e Hs Hs2).
    + exact (@run_retry_busy self f ts u g ts2 b Hs Hs2).
Qed.

Lemma acquire_run_complete fuel self t o :
  (2 <= fuel)%nat -> acquire_run self t o -> runs (acquire fuel self false) t o.
Proof.
  intros Hfuel H. destruct fuel as [|[|fuel]]; try lia.
  apply acquire_step.
  destruct H as [f pid|f ts Hs|f ts u g pid Hs|f ts u g ts2 b Hs Hs2|f e Hne
                |f ts e Hs|f ts u g e Hs Hne|f ts u g ts2 e Hs Hs2];
    exists f.
  - left. eauto.
  - do 3 right; left. exists ts, false. auto.
  - do 4 right. exists ts, u. eexists. repeat split; [exact Hs|].
    apply acquire_step. exists g. left. eauto.
  - do 4 right. exists ts, u. eexists. repeat split; [exact Hs|].
    apply acquire_step. exists g. do 3 right; left. exists ts2, b.
    repeat split; [exact Hs2 | apply andb_false_r].
  - right; left. eauto.
  - do 2 right; left. eauto.
  - do 4 right. exists ts, u. eexists. repeat split; [exact Hs|].
    apply acquire_step. exists g. right; left. eauto.
  - do 4 right. exists ts, u. eexists. repeat split; [exact Hs|].
    apply acquire_step. exists g. do 2 right; left. eauto.
Qed.

Lemma acquire_run_counts self t o :
  acquire_run self t o ->
  count is_flock t = S (count is_unlink t)
  /\ count is_open t = count is_flock t
  /\ (count is_unlink t <= 1)%nat
  /\ o <> Exn RecursionError.
Proof.
  intros H.
  destruct H as [f pid|f ts Hs|f ts u g pid Hs|f ts u g ts2 b Hs Hs2|f e Hne
                |f ts e Hs|f ts u g e Hs Hne|f ts u g ts2 e Hs Hs2];
    unfold broken; rewrite ?count_app;
    repeat match goal with
      | |- context [attempt ?s ?f ?r] =>
          let Ha := fresh in
          destruct (attempt_counts s f r) as (Ha & ? & ?);
          rewrite !Ha; clear Ha;
          generalize dependent (attempt s f r); intros
      end;
    repeat match goal with
      | Hr : runs (is_stale _) ?ts _ |- _ =>
          let Hq := fresh in
          pose proof (is_stale_quiet _ _ _ Hr) as [_ Hq];
          apply is_stale_counts in Hr as (? & ? & ?)
      end;
    cbn; repeat split; try lia; try discriminate;
    intros [= ->];
    match goal with Hx : Exn RecursionError <> _ |- _ => now apply Hx end.
Qed.

Import Scenario.

Example acquire_in_empty_directory :
  World.exec_prog 100 (acquire RECURSION_LIMIT the_lock false) (start 0 [])
  = (held,
     [Ev (OpenW lock_path) 0%nat; Ev (FlockExNb 0%nat) None; Ev Getpid 100;
      Ev (WriteFlush 0%nat "100") tt],
     Done (true, holding the_lock 0%nat))
  /\ World.content_at held lock_path = Some "100"
  /\ World.holder_at held lock_path = Some 100.
Proof. vm_compute. auto. Qed.

Example acquire_contended :
  run_with contended (acquire RECURSION_LIMIT the_lock false)
  = ([Ev (OpenW lock_path) 3%nat; Ev (FlockExNb 3%nat) (Some EWOULDBLOCK);
      Ev (ReadText lock_path) None; Ev (Unlink lock_path) false;
      Ev (OpenW lock_path) 3%nat; Ev (Close 3%nat) tt;
      Ev (FlockExNb 3%nat) (Some EWOULDBLOCK);
      Ev (ReadText lock_path) None; Ev (Close 3%nat) tt],
     Done (false, given_up the_lock 3%nat)).
Proof. vm_compute. reflexivity. Qed.

(** C9.  With two levels of recursion at its disposal, [acquire()] ends
    along every sequence of replies, and its runs are exactly the eight of
    [acquire_run]: the first attempt wins; or it fails on a record that is
    not stale and the answer is false at once; or the record is stale, it
    is deleted, and a single second attempt follows, whose failure gives
    false.  A run makes one attempt more than it deletes records, deletes
    at most once, and never exhausts the recursion depth. *)
Theorem acquire_retries_at_most_once
  (fuel : nat) (self : LockFile) (Hfuel : (2 <= fuel)%nat) :
  (forall t o, runs (acquire fuel self false) t o <-> acquire_run self t o)
  /\ (forall t o, runs (acquire fuel self false) t o ->
        count is_flock t = S (count is_unlink t)
        /\ count is_open t = count is_flock t
        /\ (count is_unlink t <= 1)%nat
        /\ o <> Exn RecursionError)
  /\ (forall reply,
        acquire_run self (fst (run_with reply (acquire fuel self false)))
                    (snd (run_with reply (acquire fuel self false)))).
Proof.
  assert (Hiff : forall t o, runs (acquire fuel self false) t o <-> acquire_run self t o).
  { intros t o. split; [now apply acquire_run_sound | now apply acquire_run_complete]. }
  split; [exact Hiff|]. split.
  - intros t o H. apply (acquire_run_counts self). now apply Hiff.
  - intros reply. apply Hiff. apply run_with_runs.
Qed.

Lemma acquire_retries_at_most_once_witness :
  acquire_run the_lock
              (fst (run_with contended (acquire RECURSION_LIMIT the_lock false)))
              (snd (run_with contended (acquire RECURSION_LIMIT the_lock false))).
Proof.
  refine (proj2 (proj2 (acquire_retries_at_most_once RECURSION_LIMIT the_lock _)) contended).
  unfold RECURSION_LIMIT. lia.
Defined.

(* ================================================================== *)
(** ** The record's text *)

Import Numeral PyInt.

Section IntText.

Import Text.

Lemma digits_of_numeral (d : Decimal.uint) (acc : Z) (b : bool) :
  digits_from (NilEmpty.string_of_uint d) acc b
  = match d with
    | Decimal.Nil => if b then Some acc else None
    | _ => Some (uint_value d acc)
    end.
Proof.
  revert acc b.
  induction d as [|d IH|d IH|d IH|d IH|d IH|d IH|d IH|d IH|d IH|d IH];
    intros acc b; [reflexivity|..];
    cbn [NilEmpty.string_of_uint digits_from uint_value];
    match goal with
    | |- context [is_digit ?c] => change (is_digit c) with true; cbv iota
    end;
    rewrite IH; destruct d; reflexivity.
Qed.

Lemma uint_value_acc (d : Decimal.uint) (acc : positive) :
  Z.pos (Pos.of_uint_acc d acc) = uint_value d (Z.pos acc).
Proof.
  revert acc. induction d; intros acc; cbn [Pos.of_uint_acc uint_value];
    [reflexivity|..]; rewrite IHd; f_equal; lia.
Qed.

Lemma uint_value_of_uint (d : Decimal.uint) :
  Z.of_N (Pos.of_uint d) = uint_value d 0.
Proof.
  induction d; cbn [Pos.of_uint uint_value]; [reflexivity | exact IHd |..];
    cbn [Z.of_N]; rewrite uint_value_acc; reflexivity.
Qed.

Lemma uint_value_to_uint (p : positive) : uint_value (Pos.to_uint p) 0 = Z.pos p.
Proof.
  rewrite <- uint_value_of_uint, DecimalPos.Unsigned.of_to. reflexivity.
Qed.

Lemma forallb_rev_onto f (s acc : string) :
  forallb f (rev_onto s acc) = forallb f s && forallb f acc.
Proof.
  revert acc. induction s as [|c s IH]; intros acc; cbn; [reflexivity|].
  rewrite IH. cbn. now rewrite andb_assoc, (andb_comm (forallb f s)).
Qed.

Lemma rev_onto_rev_onto (s acc acc' : string) :
  rev_onto (rev_onto s acc) acc' = rev_onto acc (s ++ acc').
Proof.
  revert acc acc'. induction s as [|c s IH]; intros acc acc'; cbn; [reflexivity|].
  now rewrite IH.
Qed.

Lemma lstrip_id (s : string) : forallb not_space s = true -> lstrip s = s.
Proof.
  destruct s as [|c s]; cbn; [reflexivity|]. unfold not_space.
  intros H. apply andb_prop in H as [H _]. apply negb_true_iff in H. now rewrite H.
Qed.

Lemma strip_id (s : string) : forallb not_space s = true -> strip s = s.
Proof.
  intros H. unfold strip. rewrite (lstrip_id s H).
  assert (Hr : forallb not_space (rev s) = true).
  { unfold rev. now rewrite forallb_rev_onto, H. }
  rewrite (lstrip_id _ Hr). unfold rev. rewrite rev_onto_rev_onto. cbn.
  apply append_empty_r.
Qed.

Lemma numeral_no_space (d : Decimal.uint) :
  forallb not_space (NilEmpty.string_of_uint d) = true.
Proof. induction d; cbn [NilEmpty.string_of_uint forallb]; [reflexivity|..]; now rewrite IHd. Qed.

End IntText.

Lemma str_has_no_space (z : Z) : Text.forallb not_space (py_str z) = true.
Proof.
  unfold py_str. destruct z as [|p|p]; [reflexivity|..]; cbn [Z.to_int NilZero.string_of_int];
    unfold NilZero.string_of_uint;
    pose proof (DecimalPos.Unsigned.to_uint_nonnil p) as Hn;
    destruct (Pos.to_uint p) eqn:E; try congruence;
    rewrite <- E; cbn [Text.forallb]; now rewrite ?numeral_no_space.
Qed.

Lemma int_of_str (z : Z) : py_int (py_str z) = Some z.
Proof.
  unfold py_int. rewrite (strip_id _ (str_has_no_space z)).
  unfold py_str; destruct z as [|p|p]; [reflexivity|..];
    cbn [Z.to_int NilZero.string_of_int]; unfold NilZero.string_of_uint;
    pose proof (DecimalPos.Unsigned.to_uint_nonnil p) as Hn;
    pose proof (uint_value_to_uint p) as Hv;
    pose proof (digits_of_numeral (Pos.to_uint p) 0 false) as Hd;
    destruct (Pos.to_uint p) eqn:E; try congruence;
    cbn [NilEmpty.string_of_uint] in *; rewrite Hd, Hv; reflexivity.
Qed.

Lemma int_of_stripped_str (z : Z) : py_int (Text.strip (py_str z)) = Some z.
Proof. rewrite (strip_id _ (str_has_no_space z)). apply int_of_str. Qed.


(* ================================================================== *)
(** ** The staleness evaluation *)

Import Staleness Decorator Replying Scenario.

Lemma cons_ev_inv {X : Type} (c : sys X) (x y : X) (t t' : list event) :
  Ev c x :: t = Ev c y :: t' -> x = y /\ t = t'.
Proof.
  intros H. split.
  - apply (ev_inj c). pose proof (f_equal (@hd_error event) H) as Hh. cbn in Hh. congruence.
  - exact (f_equal (@tl event) H).
Qed.

Lemma is_stale_table self ts o :
  runs (is_stale self) ts o <-> is_stale_run self ts o.
Proof.
  split.
  - unfold is_stale, is_stale_running, _is_file_stale. intros H.
    run_inv H;
    match goal with
    | |- is_stale_run _ [Ev _ None] _ => apply stale_vanished
    | |- is_stale_run _ [Ev _ (Some ?s)] _ =>
        eapply (@stale_overflow self s); eassumption
    | |- is_stale_run _ [Ev _ (Some ?s); Ev (Kill ?z 0) ?r] _ =>
        apply (@stale_dead self s z r); solve [assumption | reflexivity]
    | |- is_stale_run _ [Ev _ (Some ?s); Ev Time ?n; Ev _ ?m] _ =>
        apply (@stale_unreadable self s n m); assumption
    | |- is_stale_run _ [Ev _ (Some ?s); Ev (Kill ?z 0) ?r; Ev Time ?n; Ev _ ?m] _ =>
        apply (@stale_young self s z r n m); solve [assumption | reflexivity]
    | |- is_stale_run _ [Ev _ (Some ?s); Ev (Kill ?z 0) ?r; Ev Time ?n; Ev _ ?m;
                         Ev (Kill _ 9) ?k] _ =>
        apply (@stale_aged self s z r n m k); solve [assumption | reflexivity]
    end.
  - unfold is_stale, is_stale_running, _is_file_stale.
    intros [|s now m Hp|s pid Hp Hf|s pid r Hp Hf Hg|s pid r now m Hp Hf Hg Ha
           |s pid r now m k Hp Hf Hg Ha]; unfold read, age_calls, parsed, aged in *;
      cbn [runs bind call app]; eexists; eexists; (split; [reflexivity|]);
      try (destruct r as [[]|]; try discriminate Hg);
      try destruct m; try destruct k; try discriminate Ha;
      repeat first
        [ progress cbn [runs bind call]
        | rewrite Ha
        | rewrite Hp
        | rewrite Hf
        | split; reflexivity
        | eexists; eexists; split; [reflexivity|] ].
Qed.

(** X2.  A record whose text is not a number is judged by its age alone:
    after reading it, [is_stale()] reads the clock and the file's
    modification time, answers whether the age exceeds [stale_age_sec]
    (true when the file has meanwhile vanished), and sends no signal. *)
Theorem unreadable_record_is_judged_by_age
  (self : LockFile) (s : string) (Hbad : parsed s = None) :
  (forall now m,
      runs (is_stale self) (read self (Some s) :: age_calls self now m)
           (Done (aged self now m)))
  /\ (forall ts o,
        runs (is_stale self) (read self (Some s) :: ts) o ->
        exists now m, ts = age_calls self now m /\ o = Done (aged self now m)).
Proof.
  split.
  - intros now m. apply is_stale_table. now constructor.
  - intros ts o H. apply is_stale_table in H.
    remember (read self (Some s) :: ts) as t eqn:Et.
    destruct H as [|s' now m Hp|s' pid Hp Hf|s' pid r Hp Hf Hg|s' pid r now m Hp Hf Hg Ha
                  |s' pid r now m k Hp Hf Hg Ha];
      unfold read in Et; apply cons_ev_inv in Et as [Es Et];
      try discriminate Es; injection Es as <-; try congruence.
    subst ts. eauto.
Qed.

Lemma unreadable_record_is_judged_by_age_witness :
  runs (is_stale the_lock)
       [Ev (ReadText lock_path) (Some "not a pid"); Ev Time 1000;
        Ev (StatMtime lock_path) (Some 990)]
       (Done false).
Proof.
  assert (Hbad : parsed "not a pid" = None) by reflexivity.
  exact (proj1 (unreadable_record_is_judged_by_age the_lock "not a pid" Hbad)
               1000 (Some 990)).
Defined.

(** X3.  [is_stale()] sends a signal other than the probe 0 only at the
    end of one kind of run: the record's text is the number of the
    signalled process, the probe did not report that process gone, and the
    record's age exceeds [stale_age_sec] (or the file vanished before its
    age was read). *)
Theorem is_stale_kills_only_an_aged_record
  (self : LockFile) (ts : list event) (o : outcome bool) (pid : Z)
  (Hrun : runs (is_stale self) ts o)
  (Hkill : In (Some pid) (List.map signalled ts)) :
  exists s r now m k,
    ts = [read self (Some s); Ev (Kill pid 0) r; Ev Time now;
          Ev (StatMtime (lock_file_path self)) m; Ev (Kill pid 9) k]
    /\ parsed s = Some pid /\ gone r = false /\ aged self now m = true.
Proof.
  apply is_stale_table in Hrun.
  destruct Hrun as [|s now m Hp|s p Hp Hf|s p r Hp Hf Hg|s p r now m Hp Hf Hg Ha
                   |s p r now m k Hp Hf Hg Ha];
    cbn in Hkill; intuition (try discriminate).
  assert (p = pid) by congruence. subst p.
  exists s, r, now, m, k. auto.
Qed.

Lemma is_stale_kills_only_an_aged_record_witness :
  exists s r now m k,
    fst (run_with (hung_holder 61) (is_stale the_lock))
    = [read the_lock (Some s); Ev (Kill 4711 0) r; Ev Time now;
       Ev (StatMtime lock_path) m; Ev (Kill 4711 9) k]
    /\ parsed s = Some 4711 /\ gone r = false /\ aged the_lock now m = true.
Proof.
  apply (is_stale_kills_only_an_aged_record
           the_lock _ (snd (run_with (hung_holder 61) (is_stale the_lock))) 4711).
  - apply run_with_runs.
  - vm_compute. auto 10.
Defined.

(* ================================================================== *)
(** ** Release, and the decorator *)

Lemma acquire_returns_file fuel self is_retry t b self' :
  runs (acquire fuel self is_retry) t (Done (b, self')) ->
  exists f, self' = if b then holding self f else given_up self f.
Proof.
  revert self is_retry t. induction fuel as [|fuel IH]; intros self is_retry t H.
  - cbn in H. destruct H as [_ [=]].
  - apply acquire_step in H as (f & [(pid & _ & [= Hb Hs])|[(e & _ & _ & [=])
      |[(ts & e & _ & _ & [=])|[(ts & b' & _ & _ & _ & [= Hb Hs])
      |(ts & u & t' & _ & _ & _ & H)]]]]).
    + subst. exists f. reflexivity.
    + subst. exists f. reflexivity.
    + apply IH in H as (g & ->). exists g. destruct b; reflexivity.
Qed.

(** X4.  What [release()] does after an [acquire()] that returned.  After
    False the object still holds the file it closed, and [release()] (so
    also [__exit__]) raises ValueError before making any call.  After True
    it unlocks, closes and unlinks, returns whether or not the record was
    still there, and leaves an object on which a further [release()] does
    nothing. *)
Theorem release_after_acquire
  (fuel : nat) (self : LockFile) (is_retry : bool) (t : list event)
  (b : bool) (self' : LockFile)
  (Hrun : runs (acquire fuel self is_retry) t (Done (b, self'))) :
  (b = false -> release self' = Raise ValueError /\ exit self' = Raise ValueError)
  /\ (b = true ->
      exists f,
        lock_file self' = Some (File f false)
        /\ (forall t' o',
            runs (release self') t' o' <->
            exists u,
              t' = [Ev (FlockUn f) tt; Ev (Close f) tt;
                    Ev (Unlink (lock_file_path self)) u]
              /\ o' = Done (set_lock_file self None))
        /\ release (set_lock_file self None) = Ret (set_lock_file self None)).
Proof.
  apply acquire_returns_file in Hrun as (f & ->). split; intros ->.
  - split; reflexivity.
  - exists f. split; [reflexivity|]. split; [|reflexivity].
    intros t' o'. unfold release; cbn. split.
    + intros ([] & ? & -> & [] & ? & -> & u & ? & -> & -> & ->). exists u. auto.
    + intros (u & -> & ->). exists tt. eexists. split; [reflexivity|].
      exists tt. eexists. split; [reflexivity|]. exists u, []. auto.
Qed.

Lemma release_after_acquire_witness :
  release (given_up the_lock 3%nat) = Raise ValueError.
Proof.
  assert (H : runs (acquire RECURSION_LIMIT the_lock false)
                   (fst (run_with contended (acquire RECURSION_LIMIT the_lock false)))
                   (Done (false, given_up the_lock 3%nat))).
  { exact (run_with_runs contended (acquire RECURSION_LIMIT the_lock false)). }
  exact (proj1 (proj1 (release_after_acquire _ _ _ _ _ _ H) eq_refl)).
Defined.

(** How a [with] block ends, from how its body and [__exit__] end. *)
Lemma with_exit_runs {R : Type} (body : prog R) self tf (r : outcome R) te oe :
  runs body tf r -> runs (exit self) te oe ->
  runs (with_exit body self) (tf ++ te)
       (match oe, r with
        | Exn e, _ => Exn e
        | Done s, Done x => Done (x, s)
        | Done _, Exn e => Exn e
        end).
Proof.
  revert tf. induction body as [x|e|X c k IH]; cbn; intros tf.
  - intros [-> ->] He. cbn.
    destruct oe as [s|e].
    + rewrite <- (List.app_nil_r te). apply (runs_bind_done _ _ te s []); cbn; auto.
    + now apply runs_bind_exn.
  - intros [-> ->] He. cbn.
    destruct oe as [s|e'].
    + rewrite <- (List.app_nil_r te). apply (runs_bind_done _ _ te s []); cbn; auto.
    + now apply runs_bind_exn.
  - intros (x & t' & -> & H) He. exists x, (t' ++ te)%list. split; [reflexivity|].
    now apply IH.
Qed.

(** X5.  The decorator on a busy lock: [__enter__] ignores the False of
    [acquire()], so the decorated function runs all the same; then
    [__exit__] raises ValueError, whatever the function returned or
    raised. *)
Theorem decorated_function_runs_without_the_lock
  {R : Type} (self self' : LockFile) (func : prog R)
  (ta tf : list event) (r : outcome R)
  (Hbusy : runs (acquire RECURSION_LIMIT self false) ta (Done (false, self')))
  (Hfunc : runs func tf r) :
  runs (wrapper self func) (ta ++ tf) (Exn ValueError).
Proof.
  pose proof (acquire_returns_file _ _ _ _ _ _ Hbusy) as (f & ->).
  unfold wrapper, enter.
  generalize dependent (acquire RECURSION_LIMIT self false). intros acq Hbusy.
  apply (runs_bind_done _ _ ta (given_up self f) tf).
  - rewrite <- (List.app_nil_r ta).
    apply (runs_bind_done _ _ ta (false, given_up self f) []); cbn; auto.
  - pose proof (with_exit_runs func (given_up self f) tf r [] (Exn ValueError) Hfunc) as H.
    rewrite List.app_nil_r in H. apply H. cbn. auto.
Qed.

Lemma decorated_function_runs_without_the_lock_witness :
  runs (wrapper the_lock (call (Exists "/cache/x.png")))
       (fst (run_with contended (acquire RECURSION_LIMIT the_lock false))
        ++ [Ev (Exists "/cache/x.png") true])
       (Exn ValueError).
Proof.
  assert (Hbusy : runs (acquire RECURSION_LIMIT the_lock false)
                       (fst (run_with contended (acquire RECURSION_LIMIT the_lock false)))
                       (Done (false, given_up the_lock 3%nat))).
  { exact (run_with_runs contended (acquire RECURSION_LIMIT the_lock false)). }
  assert (Hfunc : runs (call (Exists "/cache/x.png")) [Ev (Exists "/cache/x.png") true]
                       (Done true)).
  { apply runs_call. exists true. auto. }
  exact (decorated_function_runs_without_the_lock _ _ _ _ _ _ Hbusy Hfunc).
Defined.

(** X6.  The decorator on a lock it gets: after the function's calls come
    unlock, close and unlink, whether the function returns or raises; a
    returned value is passed on, an exception goes on after the release. *)
Theorem decorated_function_releases_on_every_exit
  {R : Type} (self self' : LockFile) (func : prog R)
  (ta tf : list event) (r : outcome R) (u : bool)
  (Hwon : runs (acquire RECURSION_LIMIT self false) ta (Done (true, self')))
  (Hfunc : runs func tf r) :
  exists f,
    lock_file self' = Some (File f false)
    /\ runs (wrapper self func)
            (ta ++ tf ++ [Ev (FlockUn f) tt; Ev (Close f) tt;
                          Ev (Unlink (lock_file_path self)) u])
            (match r with
             | Done x => Done (x, set_lock_file self None)
             | Exn e => Exn e
             end).
Proof.
  pose proof (acquire_returns_file _ _ _ _ _ _ Hwon) as (f & ->).
  exists f. split; [reflexivity|].
  unfold wrapper, enter.
  generalize dependent (acquire RECURSION_LIMIT self false). intros acq Hwon.
  apply (runs_bind_done _ _ ta (holding self f)).
  - rewrite <- (List.app_nil_r ta).
    apply (runs_bind_done _ _ ta (true, holding self f) []); cbn; auto.
  - apply (with_exit_runs func (holding self f) tf r _ (Done (set_lock_file self None)) Hfunc).
    unfold exit, release; cbn.
    exists tt. eexists. split; [reflexivity|].
    exists tt. eexists. split; [reflexivity|]. exists u, []. auto.
Qed.

Lemma decorated_function_releases_on_every_exit_witness :
  exists f,
    lock_file (holding the_lock 3%nat) = Some (File f false)
    /\ runs (wrapper the_lock (@Raise bool TimeoutExpired))
            (fst (run_with uncontended (acquire RECURSION_LIMIT the_lock false))
             ++ [] ++ [Ev (FlockUn f) tt; Ev (Close f) tt; Ev (Unlink lock_path) false])
            (Exn TimeoutExpired).
Proof.
  assert (Hwon : runs (acquire RECURSION_LIMIT the_lock false)
                      (fst (run_with uncontended (acquire RECURSION_LIMIT the_lock false)))
                      (Done (true, holding the_lock 3%nat))).
  { exact (run_with_runs uncontended (acquire RECURSION_LIMIT the_lock false)). }
  assert (Hfunc : runs (@Raise bool TimeoutExpired) [] (Exn TimeoutExpired)).
  { cbn. auto. }
  exact (decorated_function_releases_on_every_exit _ _ _ _ _ _ false Hwon Hfunc).
Defined.

(* ================================================================== *)
(** ** The lock in the modelled environment *)

Import World Result.

Lemma upd_same {A} (f : nat -> A) i a : upd f i a i = a.
Proof. unfold upd. now rewrite Nat.eqb_refl. Qed.

Lemma upd_other {A} (f : nat -> A) i a j : j <> i -> upd f i a j = f j.
Proof. unfold upd. intros H. apply Nat.eqb_neq in H. now rewrite H. Qed.

Lemma bind_path_same d p i : bind_path d p i p = i.
Proof. unfold bind_path. now rewrite String.eqb_refl. Qed.

Lemma bind_path_other d p i q : q <> p -> bind_path d p i q = d q.
Proof. unfold bind_path. intros H. apply String.eqb_neq in H. now rewrite H. Qed.

Lemma skip_empty n : skip n "" = "".
Proof. destruct n; reflexivity. Qed.

Lemma write_at_start data : write_at 0 data "" = data.
Proof. cbn. now rewrite skip_empty, append_empty_r. Qed.

Lemma parsed_empty : PyInt.py_int (Text.strip "") = None.
Proof. reflexivity. Qed.

(** Symbolic execution of calls in a world given by its fields. *)
Ltac wstep :=
  repeat first
    [ progress cbn -[upd bind_path write_at PyInt.py_str PyInt.py_int Text.strip
                     Z.gtb Z.sub Z.add Z.max String.eqb]
    | rewrite upd_same
    | rewrite bind_path_same
    | rewrite write_at_start
    | rewrite parsed_empty
    | rewrite Nat.eqb_refl
    | progress unfold close_file, unlock_if, create_or_truncate ].

(** X7.  On a lock nobody holds (no record, or a record left unlocked),
    [acquire()] by a fresh object returns True at its first attempt, the
    record then holds [str(pid)] and the lock belongs to the caller;
    [release()] afterwards succeeds and removes the record, leaving every
    other directory entry, the clock and the set of live processes as they
    were. *)
Theorem acquire_then_release_on_a_free_lock
  (w : world) (pid : Z) (self : LockFile) (fuel : nat)
  (Hself : lock_file self = None)
  (Hfree : free w (lock_file_path self)) :
  let path := lock_file_path self in
  let f := next_fd w in
  let r1 := exec_prog pid (acquire (S fuel) self false) w in
  let r2 := exec_prog pid (release (holding self f)) (world_after r1) in
  outcome_of r1 = Done (true, holding self f)
  /\ calls_of r1
     = [Ev (OpenW path) f; Ev (FlockExNb f) None; Ev Getpid pid;
        Ev (WriteFlush f (PyInt.py_str pid)) tt]
  /\ content_at (world_after r1) path = Some (PyInt.py_str pid)
  /\ holder_at (world_after r1) path = Some pid
  /\ outcome_of r2 = Done (set_lock_file self None)
  /\ dir (world_after r2) path = None
  /\ (forall q, q <> path -> dir (world_after r2) q = dir w q)
  /\ now (world_after r2) = now w
  /\ alive (world_after r2) = alive w.
Proof.
  intros path f r1 r2. subst r1 r2 f path.
  unfold free in Hfree. unfold world_after, outcome_of, calls_of, content_at, holder_at.
  cbn [acquire]. rewrite Hself. cbn [drop_ref bind call exec_prog exec].
  unfold create_or_truncate.
  destruct (dir w (lock_file_path self)) as [i|] eqn:Hd;
    repeat (wstep; rewrite ?Hd, ?Hfree);
    repeat split; try reflexivity;
    intros q Hq; rewrite ?bind_path_other by assumption; reflexivity.
Qed.

Lemma acquire_then_release_on_a_free_lock_witness :
  World.content_at
    (world_after (exec_prog 100 (acquire RECURSION_LIMIT the_lock false) (start 0 [])))
    lock_path = Some (PyInt.py_str 100)
  /\ dir (world_after
            (exec_prog 100 (release (holding the_lock 0%nat))
               (world_after
                  (exec_prog 100 (acquire RECURSION_LIMIT the_lock false) (start 0 [])))))
         lock_path = None.
Proof.
  assert (Hself : lock_file the_lock = None) by reflexivity.
  assert (Hfree : free (start 0 []) (lock_file_path the_lock)) by exact I.
  pose proof (acquire_then_release_on_a_free_lock
                (start 0 []) 100 the_lock 999 Hself Hfree) as H.
  split; [exact (proj1 (proj2 (proj2 H)))|].
  exact (proj1 (proj2 (proj2 (proj2 (proj2 (proj2 H)))))).
Defined.




(* ================================================================== *)
(** ** DownloadCoordinator *)

Import Coordinator.

Section Dict.

Let F (d : list (string * string)) (kv : string * string) := set_item d (fst kv) (snd kv).
Let G (acc : list string) (k : string) :=
  if existsb (String.eqb k) acc then acc else (acc ++ [k])%list.

Lemma set_item_keys d k v :
  List.map fst (set_item d k v) = G (List.map fst d) k.
Proof.
  unfold G. induction d as [|[k' v'] d IH]; cbn; [reflexivity|].
  rewrite (String.eqb_sym k k').
  destruct (String.eqb k' k) eqn:E; cbn; [reflexivity|].
  rewrite IH. destruct (existsb (String.eqb k) (List.map fst d)); reflexivity.
Qed.

Lemma fold_set_item_keys pairs d :
  List.map fst (fold_left F pairs d) = fold_left G (List.map fst pairs) (List.map fst d).
Proof.
  revert d. induction pairs as [|[k v] pairs IH]; intros d; cbn; [reflexivity|].
  rewrite IH. unfold F; cbn. now rewrite set_item_keys.
Qed.

Lemma lookup_set_item d k v u :
  lookup u (set_item d k v) = if String.eqb k u then Some v else lookup u d.
Proof.
  induction d as [|[k' v'] d IH]; cbn; [reflexivity|].
  destruct (String.eqb_spec k' k) as [->|Hne]; cbn.
  - destruct (String.eqb k u); reflexivity.
  - rewrite IH. destruct (String.eqb_spec k' u) as [->|]; [|reflexivity].
    destruct (String.eqb_spec k u); [congruence|reflexivity].
Qed.

Lemma fold_set_item_lookup pairs d u :
  lookup u (fold_left F pairs d)
  = fold_left (fun r kv => if String.eqb (fst kv) u then Some (snd kv) else r)
              pairs (lookup u d).
Proof.
  revert d. induction pairs as [|[k v] pairs IH]; intros d; cbn; [reflexivity|].
  rewrite IH. unfold F; cbn. now rewrite lookup_set_item.
Qed.

Lemma set_item_new d k v :
  existsb (String.eqb k) (List.map fst d) = false -> set_item d k v = (d ++ [(k, v)])%list.
Proof.
  induction d as [|[k' v'] d IH]; cbn; [reflexivity|].
  rewrite (String.eqb_sym k k'). destruct (String.eqb k' k); cbn; [discriminate|].
  intros H. now rewrite IH.
Qed.

Lemma existsb_eqb_In k l : existsb (String.eqb k) l = true <-> In k l.
Proof.
  rewrite existsb_exists. split.
  - intros (x & Hx & E). apply String.eqb_eq in E. now subst.
  - intros H. exists k. split; [assumption | apply String.eqb_refl].
Qed.

Lemma fold_set_item_distinct pairs d :
  NoDup (List.map fst d ++ List.map fst pairs) ->
  fold_left F pairs d = (d ++ pairs)%list.
Proof.
  revert d. induction pairs as [|[k v] pairs IH]; intros d H; cbn.
  - now rewrite List.app_nil_r.
  - unfold F; cbn. rewrite set_item_new.
    + rewrite IH; [now rewrite <- app_assoc|].
      rewrite map_app. cbn. now rewrite <- app_assoc.
    + cbn in H. apply NoDup_remove_2 in H.
      destruct (existsb (String.eqb k) (List.map fst d)) eqn:E; [|reflexivity].
      apply existsb_eqb_In in E. exfalso. apply H. apply in_or_app. now left.
Qed.

Lemma set_item_values d k v x :
  In x (set_item d k v) -> In x d \/ snd x = v.
Proof.
  induction d as [|[k' v'] d IH]; cbn.
  - intros [<-|[]]. now right.
  - destruct (String.eqb k' k); cbn.
    + intros [<-|H]; [now right | left; now right].
    + intros [<-|H]; [left; now left|]. apply IH in H as [H|H]; [left; now right | now right].
Qed.

Lemma fold_set_item_values pairs d x :
  In x (fold_left F pairs d) -> In x d \/ In (snd x) (List.map snd pairs).
Proof.
  revert d. induction pairs as [|[k v] pairs IH]; intros d; cbn; [now left|].
  intros H. apply IH in H as [H|H]; [|right; now right].
  unfold F in H. cbn in H. apply set_item_values in H as [H|H]; [now left|].
  right. left. now rewrite H.
Qed.

End Dict.

(** X9.  The dictionary [download()] builds from the pairs is keyed by
    URL: its keys are the URLs in order of first occurrence, each with the
    path of its last occurrence, and a list whose URLs are pairwise
    different is kept whole, whatever its paths: two URLs that share a
    cache path stay two entries. *)
Theorem ordered_dict_is_keyed_by_url (pairs : list (string * string)) :
  List.map fst (ordered_dict pairs) = first_occurrences (List.map fst pairs)
  /\ (forall u, lookup u (ordered_dict pairs) = last_value u pairs)
  /\ (NoDup (List.map fst pairs) -> ordered_dict pairs = pairs).
Proof.
  unfold ordered_dict, first_occurrences, last_value. repeat split.
  - apply (fold_set_item_keys pairs []).
  - intros u. apply (fold_set_item_lookup pairs [] u).
  - intros H. apply (fold_set_item_distinct pairs []). exact H.
Qed.

Lemma ordered_dict_is_keyed_by_url_witness :
  ordered_dict [("https://a.com/x?q=1", "/cache/p.png"); ("https://a.com/x?q=2", "/cache/p.png")]
  = [("https://a.com/x?q=1", "/cache/p.png"); ("https://a.com/x?q=2", "/cache/p.png")].
Proof.
  apply (proj2 (proj2 (ordered_dict_is_keyed_by_url _))).
  cbn. constructor; [|constructor; [|constructor]].
  - intros [H|[]]. discriminate H.
  - intros [].
Defined.

Lemma not_existing_exec pid items w :
  exec_prog pid (not_existing items) w
  = (w, List.map (fun up => exists_call w (snd up)) items,
     Done (List.filter (fun up => negb (exists_in w (snd up))) items)).
Proof.
  induction items as [|[u p] items IH]; [reflexivity|].
  cbn [not_existing]. rewrite exec_prog_bind. cbn [call exec_prog exec].
  rewrite exec_prog_bind, IH. cbn. unfold exists_call, exists_in.
  rewrite List.app_nil_r. destruct (dir w p); reflexivity.
Qed.

Lemma is_icon_downloaded_settled pid self path w :
  settled w self ->
  exec_prog pid (is_icon_downloaded self path) w
  = (w, check_calls w self path, Done (exists_in w path, self)).
Proof.
  unfold settled, is_icon_downloaded, check_calls. destruct (proc self) as [h|].
  - intros (rc & Hc). cbn. rewrite Hc. reflexivity.
  - intros _. reflexivity.
Qed.

Lemma check_all_settled pid self paths w :
  settled w self ->
  exec_prog pid (check_all self paths) w
  = (w, flat_map (check_calls w self) paths,
     Done (List.map (exists_in w) paths, self)).
Proof.
  intros Hs. induction paths as [|p paths IH]; [reflexivity|].
  cbn [check_all]. rewrite exec_prog_bind, is_icon_downloaded_settled by assumption.
  cbn [snd fst]. rewrite exec_prog_bind, IH. cbn. now rewrite List.app_nil_r.
Qed.

Lemma filter_none {A : Type} (f : A -> bool) (l : list A) :
  (forall x, In x l -> f x = false) -> List.filter f l = [].
Proof.
  induction l as [|a l IH]; cbn; intros H; [reflexivity|].
  rewrite (H a) by now left. apply IH. intros x Hx. apply H. now right.
Qed.

(** X10.  When the file of every pair is there, [run()] changes nothing
    in the environment and makes no call but [exists()]: one per entry of
    the dictionary, then one per pair; no lock is touched, no process is
    started, and every pair is reported ready. *)
Theorem run_with_every_file_present
  (w : world) (pid : Z) (cache_dir : string)
  (pairs : list (string * string)) (deadline : Z)
  (Hall : forall p, In p (List.map snd pairs) -> exists_in w p = true) :
  exec_prog pid (run cache_dir pairs deadline) w
  = (w,
     (List.map (fun up => exists_call w (snd up)) (ordered_dict pairs)
      ++ List.map (fun up => exists_call w (snd up)) pairs)%list,
     Done (List.map (fun _ => true) pairs, Download.init cache_dir pairs deadline)).
Proof.
  unfold run, download. rewrite !exec_prog_bind, not_existing_exec.
  assert (Hnone : List.filter (fun up => negb (exists_in w (snd up)))
                              (ordered_dict (url_paths (Download.init cache_dir pairs deadline)))
                  = []).
  { cbn [url_paths Download.init].
    apply filter_none. intros x Hx.
    unfold ordered_dict in Hx. apply fold_set_item_values in Hx as [[]|Hx].
    now rewrite (Hall _ Hx). }
  rewrite Hnone. cbn [exec_prog].
  rewrite check_all_settled by exact I.
  assert (Hcalls : flat_map (check_calls w (Download.init cache_dir pairs deadline))
                            (List.map snd pairs)
                   = List.map (fun up => exists_call w (snd up)) pairs).
  { clear. induction pairs as [|[u p] pairs IH]; [reflexivity|]. cbn. now rewrite <- IH. }
  assert (Hready : List.map (exists_in w) (List.map snd pairs)
                   = List.map (fun _ => true) pairs).
  { clear Hnone Hcalls. induction pairs as [|[u p] pairs IH]; [reflexivity|]. cbn.
    rewrite (Hall p) by now left. f_equal. apply IH. intros q Hq. apply Hall. now right. }
  rewrite Hcalls, Hready. cbn [url_paths Download.init]. now rewrite List.app_nil_r.
Qed.

Lemma run_with_every_file_present_witness :
  outcome_of (exec_prog 100 (run cache_dir [("https://a.com/", lock_path)] 0) held)
  = Done ([true], Download.init cache_dir [("https://a.com/", lock_path)] 0).
Proof.
  assert (Hall : forall p, In p (List.map snd [("https://a.com/", lock_path)]) ->
                           exists_in held p = true).
  { intros p [<-|[]]. vm_compute. reflexivity. }
  unfold outcome_of.
  rewrite (run_with_every_file_present held 100 cache_dir _ 0 Hall). reflexivity.
Defined.

(* ------------------------------------------------------------------ *)
(** *** A batch that is launched *)

Import Keeping.

Lemma acquire_free_exec pid self fuel w :
  lock_file self = None -> free w (lock_file_path self) ->
  exec_prog pid (acquire (S fuel) self false) w
  = (locked_by pid (lock_file_path self) w,
     acquire_calls pid (lock_file_path self) (next_fd w),
     Done (true, holding self (next_fd w))).
Proof.
  intros Hself Hfree. unfold free in Hfree. unfold locked_by, acquire_calls.
  cbn [acquire]. rewrite Hself. cbn [drop_ref bind call exec_prog exec].
  unfold create_or_truncate.
  destruct (dir w (lock_file_path self)) as [i|] eqn:Hd;
    repeat (wstep; rewrite ?Hd, ?Hfree); reflexivity.
Qed.

(** What taking the lock leaves alone, and what it sets. *)
Lemma locked_by_fields pid path w :
  free w path ->
  now (locked_by pid path w) = now w
  /\ can_launch (locked_by pid path w) = can_launch w
  /\ children (locked_by pid path w) = children w
  /\ next_child (locked_by pid path w) = next_child w
  /\ curl (locked_by pid path w) = curl w
  /\ alive (locked_by pid path w) = alive w
  /\ next_fd (locked_by pid path w) = S (next_fd w)
  /\ (forall q, q <> path -> dir (locked_by pid path w) q = dir w q)
  /\ holder_at (locked_by pid path w) path = Some pid
  /\ content_at (locked_by pid path w) path = Some (PyInt.py_str pid).
Proof.
  intros Hfree. unfold free in Hfree. unfold locked_by, holder_at, content_at.
  cbn [exec]. unfold create_or_truncate.
  destruct (dir w path) as [i|] eqn:Hd;
    repeat (wstep; rewrite ?Hd, ?Hfree);
    repeat split; try reflexivity;
    intros q Hq; rewrite ?bind_path_other by assumption; reflexivity.
Qed.

Lemma create_fields p a :
  now (fst (create_or_truncate p a)) = now a
  /\ children (fst (create_or_truncate p a)) = children a
  /\ next_child (fst (create_or_truncate p a)) = next_child a
  /\ files (fst (create_or_truncate p a)) = files a
  /\ next_fd (fst (create_or_truncate p a)) = next_fd a
  /\ alive (fst (create_or_truncate p a)) = alive a
  /\ can_launch (fst (create_or_truncate p a)) = can_launch a
  /\ curl (fst (create_or_truncate p a)) = curl a.
Proof. unfold create_or_truncate. destruct (dir a p); cbn; auto 10. Qed.

Lemma fold_create_fields outs a :
  let b := fold_left (fun a p => fst (create_or_truncate p a)) outs a in
  now b = now a /\ children b = children a /\ next_child b = next_child a
  /\ files b = files a /\ next_fd b = next_fd a /\ alive b = alive a.
Proof.
  revert a. induction outs as [|p outs IH]; intros a; cbn; [auto 10|].
  destruct (IH (fst (create_or_truncate p a))) as (H1 & H2 & H3 & H4 & H5 & H6).
  destruct (create_fields p a) as (G1 & G2 & G3 & G4 & G5 & G6 & _ & _).
  cbn in *. repeat split; congruence.
Qed.

Lemma create_exists p a q :
  exists_in (fst (create_or_truncate p a)) q
  = (String.eqb q p || exists_in a q)%bool.
Proof.
  unfold create_or_truncate, exists_in.
  destruct (String.eqb_spec q p) as [->|Hne].
  - destruct (dir a p) eqn:Hd; cbn; [now rewrite Hd|now rewrite bind_path_same].
  - destruct (dir a p) eqn:Hd; cbn; [reflexivity|].
    now rewrite bind_path_other.
Qed.

(** The files a batch has written are there. *)
Lemma fold_create_exists outs a q :
  exists_in (fold_left (fun a p => fst (create_or_truncate p a)) outs a) q
  = (existsb (String.eqb q) outs || exists_in a q)%bool.
Proof.
  revert a. induction outs as [|p outs IH]; intros a; cbn [fold_left existsb]; [reflexivity|].
  rewrite IH, create_exists.
  destruct (String.eqb q p), (existsb (String.eqb q) outs), (exists_in a q); reflexivity.
Qed.

Lemma path_join_inj d a b : path_join d a = path_join d b -> a = b.
Proof.
  unfold path_join. induction d as [|c d IH]; cbn.
  - now intros [= ->].
  - intros [= H]. auto.
Qed.

Lemma log_is_not_lock cache_dir : CURL_LOG_PATH cache_dir <> LOCK_PATH cache_dir.
Proof. intros H. apply path_join_inj in H. discriminate. Qed.

Lemma recursion_limit : RECURSION_LIMIT = S 999.
Proof. reflexivity. Qed.

Ltac wstep_plain :=
  repeat first
    [ progress cbn -[upd bind_path write_at PyInt.py_str PyInt.py_int Text.strip
                     Z.gtb Z.sub Z.add Z.max String.eqb locked_by job_list
                     create_or_truncate fold_left Text.join curl_in NEWLINE tick]
    | rewrite upd_same ].


Tactic Notation "wstep2" :=
  repeat first
    [ progress cbn -[upd bind_path write_at PyInt.py_str PyInt.py_int Text.strip
                     Z.gtb Z.sub Z.add Z.max String.eqb locked_by job_list
                     create_or_truncate fold_left Text.join curl_in NEWLINE tick]
    | rewrite upd_same ].
Tactic Notation "wstep2" "in" hyp(H) :=
  repeat first
    [ progress cbn -[upd bind_path write_at PyInt.py_str PyInt.py_int Text.strip
                     Z.gtb Z.sub Z.add Z.max String.eqb locked_by job_list
                     create_or_truncate fold_left Text.join curl_in NEWLINE tick] in H
    | rewrite upd_same in H ].


Section KeepingTheLock.

Variables (pid : Z) (path : string) (i : nat) (f : fd).

Lemma holds_create q a :
  holds pid path i f a -> holds pid path i f (fst (create_or_truncate q a)).
Proof.
  intros (Hd & Hi & Hl & Hf & o & Ho & Hp). unfold create_or_truncate, holds.
  destruct (dir a q) as [j|] eqn:Hq; cbn.
  - repeat split; try assumption; [|eauto].
    unfold upd. destruct (Nat.eqb_spec i j) as [<-|]; [cbn|]; assumption.
  - assert (Hne : path <> q) by congruence.
    rewrite bind_path_other by assumption.
    repeat split; try assumption; try lia; [|eauto].
    rewrite upd_other by lia. assumption.
Qed.

Lemma holds_fold_create outs a :
  holds pid path i f a ->
  holds pid path i f (fold_left (fun a p => fst (create_or_truncate p a)) outs a).
Proof.
  revert a. induction outs as [|q outs IH]; intros a H; cbn; [assumption|].
  apply IH. now apply holds_create.
Qed.

Lemma holds_exec pid' {X : Type} (c : sys X) a :
  holds pid path i f a ->
  keeps_lock path f (Ev c (snd (exec pid' c a))) = true ->
  holds pid path i f (fst (exec pid' c a)).
Proof.
  intros H Hk. pose proof H as (Hd & Hi & Hl & Hf & o & Ho & Hp).
  destruct c; cbn [exec keeps_lock] in *.
  - (* OpenW *)
    pose proof (holds_create path0 a H) as (Hd' & Hi' & Hl' & Hf' & o' & Ho' & Hp').
    destruct (create_fields path0 a) as (_ & _ & _ & _ & Hn & _).
    destruct (create_or_truncate path0 a) as [a1 j]. cbn [fst] in *.
    unfold holds. cbn. repeat split; try assumption; try lia.
    exists o'. split; [|assumption]. rewrite upd_other by lia. assumption.
  - (* FlockExNb *)
    destruct (files a f0) as [o0|] eqn:E0; [|exact H].
    destruct (o_open o0); [|exact H].
    destruct (i_lock (inodes a (o_ino o0))) as [g|] eqn:Eg.
    + destruct (Nat.eqb g f0); exact H.
    + unfold holds. cbn. repeat split; try assumption; [|eauto].
      rewrite upd_other; [assumption|]. intros ->. congruence.
  - (* FlockUn *)
    apply negb_true_iff, Nat.eqb_neq in Hk.
    destruct (files a f0) as [o0|] eqn:E0; [|exact H].
    unfold holds. cbn. repeat split; try assumption; [|eauto].
    unfold upd, unlock_if. destruct (Nat.eqb_spec i (o_ino o0)) as [<-|]; [|assumption].
    rewrite Hl. apply Nat.eqb_neq in Hk. rewrite Nat.eqb_sym, Hk. assumption.
  - (* WriteFlush *)
    destruct (files a f0) as [o0|] eqn:E0; [|exact H].
    destruct (o_open o0); [|exact H].
    unfold holds. cbn. repeat split; try assumption.
    + unfold upd. destruct (Nat.eqb_spec i (o_ino o0)) as [<-|]; [cbn|]; assumption.
    + unfold upd. destruct (Nat.eqb_spec f f0) as [<-|]; [|eauto].
      eexists. split; [reflexivity|]. cbn. congruence.
  - (* Close *)
    apply negb_true_iff, Nat.eqb_neq in Hk. unfold close_file.
    destruct (files a f0) as [o0|] eqn:E0; [|exact H].
    unfold holds. cbn. repeat split; try assumption.
    + unfold upd, unlock_if. destruct (Nat.eqb_spec i (o_ino o0)) as [<-|]; [|assumption].
      rewrite Hl. apply Nat.eqb_neq in Hk. rewrite Nat.eqb_sym, Hk. assumption.
    + exists o. split; [|assumption]. rewrite upd_other by congruence. assumption.
  - exact H.
  - exact H.
  - (* Kill *)
    destruct (alive a pid0); [|exact H].
    cbn in Hk. rewrite Hk. exact H.
  - exact H.
  - exact H.
  - (* Unlink *)
    destruct (dir a path0) eqn:E0; [|exact H].
    cbn in Hk. apply negb_true_iff, String.eqb_neq in Hk.
    unfold holds. cbn. rewrite bind_path_other by congruence.
    repeat split; try assumption. eauto.
  - exact H.
  - (* Popen *)
    destruct (can_launch a); [|exact H].
    unfold holds. cbn. repeat split; try assumption. eauto.
  - (* Communicate *)
    destruct (children a h) as [[|rc]|]; try exact H.
    destruct (curl a input) as [[d rc] outs].
    assert (Ht : holds pid path i f (tick d a)).
    { unfold holds. cbn. repeat split; try assumption. eauto. }
    apply (holds_fold_create outs) in Ht.
    destruct Ht as (Hd' & Hi' & Hl' & Hf' & o' & Ho' & Hp').
    unfold holds. cbn. repeat split; try assumption. eauto.
  - (* Wait *)
    destruct (children a h) as [[|rc]|]; try exact H;
      unfold holds; cbn; repeat split; try assumption; eauto.
  - exact H.
Qed.

Lemma holds_exec_prog pid' {R : Type} (p : prog R) a :
  holds pid path i f a ->
  List.forallb (keeps_lock path f) (calls_of (exec_prog pid' p a)) = true ->
  holds pid path i f (world_after (exec_prog pid' p a)).
Proof.
  revert a. induction p as [r|e|X c k IH]; intros a H; cbn; try (intros _; exact H).
  pose proof (holds_exec pid' c a H) as Hs.
  destruct (exec pid' c a) as [a1 x]. cbn [fst snd] in Hs.
  specialize (IH x a1).
  destruct (exec_prog pid' (k x) a1) as [[a2 t] o]. unfold calls_of, world_after in *.
  cbn in *. intros Hk. apply andb_prop in Hk as [Hc Ht]. auto.
Qed.

Lemma holds_holder a : holds pid path i f a -> holder_at a path = Some pid.
Proof.
  intros (Hd & _ & Hl & _ & o & Ho & Hp). unfold holder_at.
  rewrite Hd, Hl, Ho. cbn. now rewrite Hp.
Qed.

End KeepingTheLock.

Lemma locked_by_holds pid path w :
  dir w path = None ->
  holds pid path (next_ino w) (next_fd w) (locked_by pid path w).
Proof.
  intros Hd. unfold locked_by, holds. cbn [exec]. unfold create_or_truncate.
  repeat (wstep; rewrite ?Hd). repeat split; try lia. eauto.
Qed.

(** [download] when something is missing, the lock is free and curl can be
    started: what it returns, its calls, the clock, the child, the lock. *)
Lemma download_launch
  (w : world) (pid : Z) (cache_dir : string) (pairs : list (string * string))
  (timeout d rc : Z) (outs : list string)
  (Hneeded : needed_in w pairs <> [])
  (Hfree : free w (LOCK_PATH cache_dir))
  (Hlaunch : can_launch w = true)
  (Hcurl : curl w (job_list (needed_in w pairs)) = (d, rc, outs)) :
  let self := Download.init cache_dir pairs timeout in
  let h := next_child w in
  let r := exec_prog pid (download cache_dir self) w in
  outcome_of r
  = Done (set_proc (set_lockfile self (holding (lockfile self) (next_fd w))) (Some h))
  /\ calls_of r
     = (List.map (fun up => exists_call w (snd up)) (ordered_dict pairs)
        ++ acquire_calls pid (LOCK_PATH cache_dir) (next_fd w)
        ++ launch_calls (CURL_LOG_PATH cache_dir) (S (next_fd w)) h
                        (job_list (needed_in w pairs)) timeout rc)%list
  /\ now (world_after r) = now w + Z.max 0 d
  /\ children (world_after r) h = Some (Finished rc)
  /\ (dir w (LOCK_PATH cache_dir) = None ->
      holds pid (LOCK_PATH cache_dir) (next_ino w) (next_fd w) (world_after r))
  /\ (forall q, In q outs -> exists_in (world_after r) q = true).
Proof.
  intros self h r. subst r h.
  unfold download. rewrite exec_prog_bind, not_existing_exec.
  change (List.filter (fun up => negb (exists_in w (snd up))) (ordered_dict (url_paths self)))
    with (needed_in w pairs).
  destruct (needed_in w pairs) as [|n0 needed] eqn:Hn; [congruence|].
  rewrite exec_prog_bind, recursion_limit.
  rewrite acquire_free_exec by (try reflexivity; exact Hfree).
  destruct (locked_by_fields pid (LOCK_PATH cache_dir) w Hfree)
    as (L1 & L2 & L3 & L4 & L5 & L6 & L7 & L8 & L9 & L10).
  change (lock_file_path (lockfile self)) with (LOCK_PATH cache_dir).
  pose proof (locked_by_holds pid (LOCK_PATH cache_dir) w) as Hholds.
  set (wl := locked_by pid (LOCK_PATH cache_dir) w) in *.
  cbn [fst snd negb].
  match goal with
  | |- context [exec_prog pid ?body wl] =>
      pose proof (fun Hh => holds_exec_prog pid (LOCK_PATH cache_dir) (next_ino w) (next_fd w)
                                          pid body wl Hh) as Hinv;
      remember (exec_prog pid body wl) as res eqn:E
  end.
  cbn [bind call exec_prog exec] in E.
  destruct (create_fields (CURL_LOG_PATH cache_dir) wl)
    as (C1 & C2 & C3 & C4 & C5 & C6 & C7 & C8).
  destruct (create_or_truncate (CURL_LOG_PATH cache_dir) wl) as [w1 i].
  cbn [fst] in *.
  assert (Hc : curl w1 (job_list (n0 :: needed)) = (d, rc, outs)) by congruence.
  assert (Hl : can_launch w1 = true) by congruence.
  unfold job_list in Hc.
  repeat (wstep2 in E; rewrite ?Hl, ?Hc in E; unfold close_file in E).
  match type of E with
  | context [fold_left ?f outs ?a] =>
      destruct (fold_create_fields outs a) as (F1 & F2 & F3 & _ & _ & _);
      assert (Hthere : forall q, In q outs -> exists_in (fold_left f outs a) q = true);
      [ intros q Hq; rewrite fold_create_exists;
        apply orb_true_iff; left; apply existsb_exists; exists q;
        split; [exact Hq | apply String.eqb_refl]
      | set (wb := fold_left f outs a) in * ]
  end.
  cbn [tick set_now now children next_child set_files set_inodes set_children set_fs] in *.
  clearbody wb.
  repeat (wstep2 in E; rewrite ?F2, ?F3, ?upd_same in E).
  subst res. unfold world_after, outcome_of, calls_of in *. cbn [fst snd] in *.
  assert (Hh : next_child w1 = next_child w) by congruence.
  assert (Hfd : next_fd w1 = S (next_fd w)) by congruence.
  rewrite Hh, Hfd in *.
  split; [reflexivity|]. split; [reflexivity|].
  split; [cbn; rewrite F1, C1, L1; reflexivity|].
  split; [cbn; apply upd_same|].
  split; [|exact Hthere].
  intros Hnone. apply Hinv; [now apply Hholds|].
  cbn -[Nat.eqb]. rewrite andb_true_r. apply negb_true_iff, Nat.eqb_neq. lia.
Qed.

(** X11.  [download()] with something to fetch, a free lock and a curl
    that starts: it returns normally whatever the timeout, and only after
    the batch has ended.  [communicate()] has already waited for the child,
    so the clock has advanced by the whole run time of the batch, the
    child is no longer running, and [wait(timeout)] answers at once with
    the exit code. *)
Theorem download_waits_for_the_batch
  (w : world) (pid : Z) (cache_dir : string) (pairs : list (string * string))
  (timeout d rc : Z) (outs : list string)
  (Hneeded : needed_in w pairs <> [])
  (Hfree : free w (LOCK_PATH cache_dir))
  (Hlaunch : can_launch w = true)
  (Hcurl : curl w (job_list (needed_in w pairs)) = (d, rc, outs)) :
  let self := Download.init cache_dir pairs timeout in
  let h := next_child w in
  let r := exec_prog pid (download cache_dir self) w in
  outcome_of r
  = Done (set_proc (set_lockfile self (holding (lockfile self) (next_fd w))) (Some h))
  /\ now (world_after r) = now w + Z.max 0 d
  /\ children (world_after r) h = Some (Finished rc)
  /\ exists t0,
      calls_of r
      = (t0 ++ [Ev (Communicate h (job_list (needed_in w pairs))) tt;
                Ev (Wait h timeout) (Some rc)])%list.
Proof.
  intros self h r.
  destruct (download_launch w pid cache_dir pairs timeout d rc outs
                            Hneeded Hfree Hlaunch Hcurl)
    as (Ho & Hc & Hn & Hch & _).
  fold self h r in Ho, Hc, Hn, Hch.
  repeat split; try assumption.
  rewrite Hc. unfold launch_calls.
  exists (List.map (fun up => exists_call w (snd up)) (ordered_dict pairs)
          ++ acquire_calls pid (LOCK_PATH cache_dir) (next_fd w)
          ++ [Ev (OpenW (CURL_LOG_PATH cache_dir)) (S (next_fd w));
              Ev (Popen (S (next_fd w))) (Some h); Ev (Close (S (next_fd w))) tt])%list.
  rewrite <- !app_assoc. reflexivity.
Qed.

Lemma count_zero_app f (a b : list event) :
  count f a = O -> count f b = O -> count f (a ++ b) = O.
Proof. intros Ha Hb. now rewrite count_app, Ha, Hb. Qed.

Lemma count_exists_calls f (g : string -> event) (l : list (string * string)) :
  (forall p, f (g p) = false) ->
  count f (List.map (fun up => g (snd up)) l) = O.
Proof.
  intros H. apply count_none. apply Forall_forall. intros e He.
  apply in_map_iff in He as (x & <- & _). apply H.
Qed.

Lemma count_check_calls f w self paths :
  (forall X (c : sys X) x, f (Ev c x) = true ->
     match c with Exists _ | Poll _ => False | _ => True end) ->
  count f (flat_map (check_calls w self) paths) = O.
Proof.
  intros H. apply count_none. apply Forall_forall. intros e He.
  apply in_flat_map in He as (p & _ & He). unfold check_calls, exists_call in He.
  destruct (f e) eqn:E; [|reflexivity]. exfalso.
  destruct (proc self); cbn in He;
    repeat (destruct He as [<-|He]; [exact (H _ _ _ E)|]); exact He.
Qed.

(** X12.  [run()] after a batch it started itself (no lock record
    before, curl starts): the readiness loop finds the child ended, so it
    never releases.  The loop leaves the environment as [download()] left
    it, the result is the existence of each path in that environment, no
    call unlocks or unlinks, and the lock is still held by the caller when
    [run()] returns. *)
Theorem run_keeps_the_lock_after_the_batch
  (w : world) (pid : Z) (cache_dir : string) (pairs : list (string * string))
  (timeout d rc : Z) (outs : list string)
  (Hneeded : needed_in w pairs <> [])
  (Hnone : dir w (LOCK_PATH cache_dir) = None)
  (Hlaunch : can_launch w = true)
  (Hcurl : curl w (job_list (needed_in w pairs)) = (d, rc, outs)) :
  let self := Download.init cache_dir pairs timeout in
  let rd := exec_prog pid (download cache_dir self) w in
  let r := exec_prog pid (run cache_dir pairs timeout) w in
  world_after r = world_after rd
  /\ outcome_of r
     = Done (List.map (exists_in (world_after rd)) (List.map snd pairs),
             set_proc (set_lockfile self (holding (lockfile self) (next_fd w)))
                      (Some (next_child w)))
  /\ holder_at (world_after r) (LOCK_PATH cache_dir) = Some pid
  /\ count is_flock_un (calls_of r) = O
  /\ count is_unlink (calls_of r) = O.
Proof.
  intros self rd r.
  assert (Hfree : free w (LOCK_PATH cache_dir)) by (unfold free; now rewrite Hnone).
  destruct (download_launch w pid cache_dir pairs timeout d rc outs
                            Hneeded Hfree Hlaunch Hcurl)
    as (Ho & Hc & Hn & Hch & Hh & _).
  fold self rd in Ho, Hc, Hn, Hch, Hh. specialize (Hh Hnone).
  subst r. unfold run. fold self. rewrite exec_prog_bind. fold rd.
  destruct rd as [[wd td] od]. unfold world_after, outcome_of, calls_of in *.
  cbn [fst snd] in *. subst od.
  rewrite check_all_settled by (unfold settled; cbn; eauto).
  cbn [fst snd]. split; [reflexivity|]. split; [reflexivity|].
  split; [exact (holds_holder _ _ _ _ _ Hh)|].
  subst td. unfold acquire_calls, launch_calls.
  split; repeat apply count_zero_app;
    try (apply count_exists_calls; reflexivity);
    try reflexivity;
    apply count_check_calls; intros X c x; destruct c; cbn; auto; discriminate.
Qed.

Lemma download_waits_for_the_batch_witness :
  now (world_after
         (exec_prog 100
            (download cache_dir
               (Download.init cache_dir [("https://a.com/", "/cache/a.png")] 0))
            (start 5000 ["/cache/a.png"])))
  = 1000 + Z.max 0 5000.
Proof.
  assert (Hneeded : needed_in (start 5000 ["/cache/a.png"])
                              [("https://a.com/", "/cache/a.png")] <> [])
    by (vm_compute; discriminate).
  assert (Hfree : free (start 5000 ["/cache/a.png"]) (LOCK_PATH cache_dir)) by exact I.
  assert (Hlaunch : can_launch (start 5000 ["/cache/a.png"]) = true) by reflexivity.
  assert (Hcurl : curl (start 5000 ["/cache/a.png"])
                       (job_list (needed_in (start 5000 ["/cache/a.png"])
                                            [("https://a.com/", "/cache/a.png")]))
                  = (5000, 0, ["/cache/a.png"])) by reflexivity.
  exact (proj1 (proj2 (download_waits_for_the_batch
                         _ 100 cache_dir _ 0 5000 0 _ Hneeded Hfree Hlaunch Hcurl))).
Defined.

Lemma run_keeps_the_lock_after_the_batch_witness :
  holder_at (world_after
               (exec_prog 100 (run cache_dir [("https://a.com/", "/cache/a.png")] 0)
                          (start 5000 ["/cache/a.png"])))
            (LOCK_PATH cache_dir)
  = Some 100.
Proof.
  assert (Hneeded : needed_in (start 5000 ["/cache/a.png"])
                              [("https://a.com/", "/cache/a.png")] <> [])
    by (vm_compute; discriminate).
  assert (Hnone : dir (start 5000 ["/cache/a.png"]) (LOCK_PATH cache_dir) = None)
    by reflexivity.
  assert (Hlaunch : can_launch (start 5000 ["/cache/a.png"]) = true) by reflexivity.
  assert (Hcurl : curl (start 5000 ["/cache/a.png"])
                       (job_list (needed_in (start 5000 ["/cache/a.png"])
                                            [("https://a.com/", "/cache/a.png")]))
                  = (5000, 0, ["/cache/a.png"])) by reflexivity.
  exact (proj1 (proj2 (proj2 (run_keeps_the_lock_after_the_batch
                _ 100 cache_dir _ 0 5000 0 _ Hneeded Hnone Hlaunch Hcurl)))).
Defined.

(** X13.  When curl cannot be started, [download()] raises the error of
    [Popen] after it has taken the lock and opened the log: nothing
    releases, and the lock is still held by the caller when the exception
    leaves [download()]. *)
Theorem download_keeps_the_lock_when_curl_cannot_start
  (w : world) (pid : Z) (cache_dir : string) (pairs : list (string * string))
  (timeout : Z)
  (Hneeded : needed_in w pairs <> [])
  (Hnone : dir w (LOCK_PATH cache_dir) = None)
  (Hlaunch : can_launch w = false) :
  let self := Download.init cache_dir pairs timeout in
  let r := exec_prog pid (download cache_dir self) w in
  outcome_of r = Exn (OSError ENOENT)
  /\ calls_of r
     = (List.map (fun up => exists_call w (snd up)) (ordered_dict pairs)
        ++ acquire_calls pid (LOCK_PATH cache_dir) (next_fd w)
        ++ [Ev (OpenW (CURL_LOG_PATH cache_dir)) (S (next_fd w));
            Ev (Popen (S (next_fd w))) None])%list
  /\ holder_at (world_after r) (LOCK_PATH cache_dir) = Some pid.
Proof.
  intros self r. subst r.
  assert (Hfree : free w (LOCK_PATH cache_dir)) by (unfold free; now rewrite Hnone).
  unfold download. rewrite exec_prog_bind, not_existing_exec.
  change (List.filter (fun up => negb (exists_in w (snd up))) (ordered_dict (url_paths self)))
    with (needed_in w pairs).
  destruct (needed_in w pairs) as [|n0 needed] eqn:Hn; [congruence|].
  rewrite exec_prog_bind, recursion_limit.
  rewrite acquire_free_exec by (try reflexivity; exact Hfree).
  destruct (locked_by_fields pid (LOCK_PATH cache_dir) w Hfree)
    as (L1 & L2 & L3 & L4 & L5 & L6 & L7 & L8 & L9 & L10).
  change (lock_file_path (lockfile self)) with (LOCK_PATH cache_dir).
  pose proof (locked_by_holds pid (LOCK_PATH cache_dir) w Hnone) as Hholds.
  set (wl := locked_by pid (LOCK_PATH cache_dir) w) in *.
  cbn [fst snd negb].
  cbn [bind call exec_prog exec].
  pose proof (holds_create pid _ _ _ (CURL_LOG_PATH cache_dir) wl Hholds) as Hh1.
  destruct (create_fields (CURL_LOG_PATH cache_dir) wl)
    as (C1 & C2 & C3 & C4 & C5 & C6 & C7 & C8).
  destruct (create_or_truncate (CURL_LOG_PATH cache_dir) wl) as [w1 i].
  cbn [fst] in *.
  assert (Hl : can_launch w1 = false) by congruence.
  unfold outcome_of, calls_of, world_after.
  repeat (wstep2; rewrite ?Hl).
  assert (Hfd : next_fd w1 = S (next_fd w)) by congruence. rewrite Hfd.
  split; [reflexivity|]. split; [reflexivity|].
  apply (holds_holder pid _ (next_ino w) (next_fd w)).
  destruct Hh1 as (Hd & Hi & Hlk & Hf & o & Ho & Hp).
  unfold holds. cbn. repeat split; try assumption; try lia.
  exists o. split; [|assumption]. rewrite upd_other by lia. assumption.
Qed.

Lemma download_keeps_the_lock_when_curl_cannot_start_witness :
  holder_at (world_after
               (exec_prog 100
                  (download cache_dir
                     (Download.init cache_dir [("https://a.com/", "/cache/a.png")] 0))
                  without_curl))
            (LOCK_PATH cache_dir)
  = Some 100.
Proof.
  assert (Hneeded : needed_in without_curl [("https://a.com/", "/cache/a.png")] <> [])
    by (vm_compute; discriminate).
  assert (Hnone : dir without_curl (LOCK_PATH cache_dir) = None) by reflexivity.
  assert (Hlaunch : can_launch without_curl = false) by reflexivity.
  exact (proj2 (proj2 (download_keeps_the_lock_when_curl_cannot_start
                         _ 100 cache_dir _ 0 Hneeded Hnone Hlaunch))).
Defined.

(* ------------------------------------------------------------------ *)
(** *** Against every environment *)


Lemma release_unlocks_once l t o :
  runs (release l) t o -> (count is_flock_un t <= 1)%nat.
Proof.
  unfold release. destruct (lock_file l) as [[f [|]]|]; intros H; run_inv H; cbn; lia.
Qed.

Lemma is_stale_no_unlock self ts o :
  runs (is_stale self) ts o -> count is_flock_un ts = O.
Proof.
  intros H. apply is_stale_table in H.
  destruct H; try reflexivity.
Qed.

Lemma acquire_no_unlock fuel self is_retry t o :
  runs (acquire fuel self is_retry) t o -> count is_flock_un t = O.
Proof.
  revert self is_retry t. induction fuel as [|fuel IH]; intros self is_retry t H.
  - cbn in H. destruct H as [-> _]. reflexivity.
  - assert (Ha : forall f r, count is_flock_un (attempt self f r) = O).
    { intros f r. unfold attempt, drop_calls.
      destruct (lock_file self) as [[g [|]]|]; reflexivity. }
    apply acquire_step in H as (f & [(pid & -> & _)|[(e & _ & -> & _)
      |[(ts & e & Hs & -> & _)|[(ts & b & Hs & _ & -> & _)
      |(ts & u & t' & Hs & _ & -> & H)]]]]);
      unfold broken; rewrite ?count_app, ?Ha;
      try rewrite (is_stale_no_unlock _ _ _ Hs); try reflexivity.
    rewrite (IH _ _ _ H). reflexivity.
Qed.

Lemma not_existing_only_exists items t o :
  runs (not_existing items) t o -> count is_flock_un t = O /\ count poll_running t = O.
Proof.
  revert t o. induction items as [|[u p] items IH]; intros t o H.
  - cbn in H. destruct H as [-> _]. auto.
  - cbn [not_existing bind call runs] in H. destruct H as (b & t' & -> & H).
    apply runs_bind_inv in H as [(t1 & l & t2 & -> & H1 & H2)|(e & H1 & _)].
    + cbn in H2. destruct H2 as [-> _]. rewrite List.app_nil_r.
      apply IH in H1. cbn. exact H1.
    + apply IH in H1. cbn. exact H1.
Qed.

Lemma check_all_idle self paths t o :
  proc self = None ->
  runs (check_all self paths) t o -> count is_flock_un t = O.
Proof.
  revert self t o. induction paths as [|p paths IH]; intros self t o Hp H.
  - cbn in H. destruct H as [-> _]. reflexivity.
  - cbn [check_all] in H. unfold is_icon_downloaded in H. rewrite Hp in H.
    cbn [bind call runs] in H. destruct H as (b & t' & -> & H). cbn [fst snd] in H.
    apply runs_bind_inv in H as [(t1 & l & t2 & -> & H1 & H2)|(e & H1 & _)].
    + cbn in H2. destruct H2 as [-> _]. rewrite List.app_nil_r.
      exact (IH _ _ _ Hp H1).
    + exact (IH _ _ _ Hp H1).
Qed.

Lemma is_icon_downloaded_step self p t r :
  runs (is_icon_downloaded self p) t r ->
  (count is_flock_un t <= 1)%nat /\ (count is_flock_un t <= count poll_running t)%nat
  /\ forall b s', r = Done (b, s') -> (s' = self /\ count is_flock_un t = O) \/ proc s' = None.
Proof.
  unfold is_icon_downloaded. intros H.
  cbn [bind call runs] in H. destruct H as (b & t' & -> & H).
  destruct (proc self) as [h|] eqn:Hp.
  - cbn [bind call runs] in H. destruct H as (rc & t'' & -> & H).
    destruct rc as [rc|].
    + cbn in H. destruct H as [-> ->]. cbn. repeat split; try lia.
      intros b' s' [= _ Hs]. subst. left. auto.
    + apply runs_bind_inv in H as [(t1 & l & t2 & -> & H1 & H2)|(e & H1 & ->)].
      * cbn in H2. destruct H2 as [-> ->]. rewrite List.app_nil_r.
        pose proof (release_unlocks_once _ _ _ H1) as Hr.
        change (Ev (Exists p) b :: Ev (Poll h) None :: t1)%list
          with ([Ev (Exists p) b; Ev (Poll h) None] ++ t1)%list.
        rewrite !count_app. cbn. repeat split; try lia.
        intros b' s' [= _ Hs]. subst. right. reflexivity.
      * pose proof (release_unlocks_once _ _ _ H1) as Hr.
        change (Ev (Exists p) b :: Ev (Poll h) None :: t'')%list
          with ([Ev (Exists p) b; Ev (Poll h) None] ++ t'')%list.
        rewrite !count_app. cbn. repeat split; try lia. discriminate.
  - cbn in H. destruct H as [-> ->]. cbn. repeat split; try lia.
    intros b' s' [= _ Hs]. subst. left. auto.
Qed.

Lemma check_all_releases_once self paths t o :
  runs (check_all self paths) t o ->
  (count is_flock_un t <= 1)%nat /\ (count is_flock_un t <= count poll_running t)%nat.
Proof.
  revert self t o. induction paths as [|p paths IH]; intros self t o H.
  - cbn in H. destruct H as [-> _]. cbn. lia.
  - cbn [check_all] in H.
    apply runs_bind_inv in H as [(t1 & [b s'] & t2 & -> & H1 & H2)|(e & H1 & _)].
    + apply is_icon_downloaded_step in H1 as (Ha & Hb & Hc).
      cbn [fst snd] in H2.
      assert (Hrest : exists o', runs (check_all s' paths) t2 o').
      { apply runs_bind_inv in H2 as [(t3 & l' & t4 & -> & H3 & H4)|(e & H3 & _)].
        - cbn in H4. destruct H4 as [-> _]. rewrite List.app_nil_r. eauto.
        - eauto. }
      destruct Hrest as (o' & Hrest). rewrite !count_app.
      destruct (Hc b s' eq_refl) as [[-> Hz]|Hnone].
      * apply IH in Hrest. lia.
      * rewrite (check_all_idle _ _ _ _ Hnone Hrest). lia.
    + apply is_icon_downloaded_step in H1 as (Ha & Hb & _). auto.
Qed.

Lemma release_no_exists l t o :
  runs (release l) t o -> exists_log t = [].
Proof.
  unfold release. destruct (lock_file l) as [[f [|]]|]; cbn; intros H.
  - destruct H as [-> _]. reflexivity.
  - destruct H as ([] & ? & -> & [] & ? & -> & u & ? & -> & -> & _). reflexivity.
  - destruct H as [-> _]. reflexivity.
Qed.

Lemma exists_replies_log (t : list event) :
  exists_replies t = List.map snd (exists_log t).
Proof.
  induction t as [|e t IH]; [reflexivity|].
  unfold exists_replies, exists_log in *. cbn [flat_map].
  rewrite List.map_app, IH. f_equal.
  destruct e as [X c x]. destruct c; reflexivity.
Qed.

(** One round of the readiness loop asks [exists()] once, about its own
    path, and returns the answer. *)
Lemma is_icon_downloaded_log self p t b s' :
  runs (is_icon_downloaded self p) t (Done (b, s')) -> exists_log t = [(p, b)].
Proof.
  unfold is_icon_downloaded. intros H.
  cbn [bind call runs] in H. destruct H as (b' & t' & -> & H).
  destruct (proc self) as [h|].
  - cbn [bind call runs] in H. destruct H as (rc & t'' & -> & H).
    destruct rc as [rc|].
    + cbn in H. destruct H as [-> [= Hb _]]. subst. reflexivity.
    + apply runs_bind_inv in H as [(t1 & l & t2 & -> & H1 & H2)|(e & _ & [=])].
      cbn in H2. destruct H2 as [-> [= Hb _]]. subst b'. rewrite List.app_nil_r.
      pose proof (release_no_exists _ _ _ H1) as Hr.
      unfold exists_log in *. cbn. rewrite Hr. reflexivity.
  - cbn in H. destruct H as [-> [= Hb _]]. subst. reflexivity.
Qed.

Lemma is_stale_calm self ts o : runs (is_stale self) ts o -> Forall calm ts.
Proof.
  intros H. apply is_stale_table in H.
  destruct H; unfold read, age_calls; repeat constructor.
Qed.

Lemma calm_app (a b : list event) : Forall calm a -> Forall calm b -> Forall calm (a ++ b).
Proof. intros Ha Hb. apply Forall_app. auto. Qed.

Lemma acquire_calm fuel self is_retry t o :
  runs (acquire fuel self is_retry) t o -> Forall calm t.
Proof.
  revert self is_retry t. induction fuel as [|fuel IH]; intros self is_retry t H.
  - cbn in H. destruct H as [-> _]. constructor.
  - assert (Ha : forall f r, Forall calm (attempt self f r)).
    { intros f r. unfold attempt, drop_calls.
      destruct (lock_file self) as [[g [|]]|]; repeat constructor. }
    apply acquire_step in H as (f & [(pid & -> & _)|[(e & _ & -> & _)
      |[(ts & e & Hs & -> & _)|[(ts & b & Hs & _ & -> & _)
      |(ts & u & t' & Hs & _ & -> & H)]]]]);
      unfold broken;
      repeat first
        [ apply Ha
        | eapply is_stale_calm; eassumption
        | eapply IH; eassumption
        | apply calm_app
        | solve [repeat constructor] ].
Qed.

Lemma not_existing_calm items t o :
  runs (not_existing items) t o -> Forall calm t.
Proof.
  revert t o. induction items as [|[u p] items IH]; intros t o H.
  - cbn in H. destruct H as [-> _]. constructor.
  - cbn [not_existing bind call runs] in H. destruct H as (b & t' & -> & H).
    constructor; [split; reflexivity|].
    apply runs_bind_inv in H as [(t1 & l & t2 & -> & H1 & H2)|(e & H1 & _)].
    + cbn in H2. destruct H2 as [-> _]. rewrite List.app_nil_r. eapply IH; eassumption.
    + eapply IH; eassumption.
Qed.

Lemma download_calm cache_dir self t o :
  runs (download cache_dir self) t o -> Forall calm t.
Proof.
  unfold download. intros H.
  apply runs_bind_inv in H as [(t1 & needed & t2 & -> & H1 & H2)|(e & H1 & _)];
    [|eapply not_existing_calm; eassumption].
  apply calm_app; [eapply not_existing_calm; eassumption|].
  destruct needed as [|n0 needed].
  - cbn in H2. destruct H2 as [-> _]. constructor.
  - apply runs_bind_inv in H2 as [(t3 & [b l] & t4 & -> & H3 & H4)|(e & H3 & _)];
      [|eapply acquire_calm; eassumption].
    apply calm_app; [eapply acquire_calm; eassumption|].
    cbn [fst snd] in H4. destruct b; cbn [negb] in H4.
    + run_inv H4; repeat constructor.
    + cbn in H4. destruct H4 as [-> _]. constructor.
Qed.

Lemma calm_counts t :
  Forall calm t -> count is_flock_un t = O /\ count poll_running t = O.
Proof.
  intros H. split; apply count_none; eapply Forall_impl; try exact H;
    intros e [H1 H2]; assumption.
Qed.

(** The calls of [release()]: none, or unlock, close, unlink. *)
Lemma release_shape l t o :
  runs (release l) t o ->
  t = [] \/ exists f u, t = [Ev (FlockUn f) tt; Ev (Close f) tt;
                             Ev (Unlink (lock_file_path l)) u].
Proof.
  unfold release. destruct (lock_file l) as [[f [|]]|]; cbn; intros H.
  - destruct H as [-> _]. auto.
  - destruct H as ([] & ? & -> & [] & ? & -> & u & ? & -> & -> & _). right. eauto.
  - destruct H as [-> _]. auto.
Qed.

Lemma is_icon_downloaded_shape self p t r :
  runs (is_icon_downloaded self p) t r ->
  (count is_flock_un t = O
   /\ forall b s', r = Done (b, s') -> s' = self \/ proc s' = None)
  \/ (exists b h f post,
        t = (Ev (Exists p) b :: Ev (Poll h) None :: Ev (FlockUn f) tt :: post)%list
        /\ count is_flock_un post = O
        /\ forall b' s', r = Done (b', s') -> proc s' = None).
Proof.
  unfold is_icon_downloaded. intros H.
  cbn [bind call runs] in H. destruct H as (b & t' & -> & H).
  destruct (proc self) as [h|] eqn:Hp.
  - cbn [bind call runs] in H. destruct H as (rc & t'' & -> & H).
    destruct rc as [rc|].
    + cbn in H. destruct H as [-> ->]. left. split; [reflexivity|].
      intros b' s' [= _ Hs]. auto.
    + apply runs_bind_inv in H as [(t1 & l & t2 & -> & H1 & H2)|(e & H1 & ->)].
      * cbn in H2. destruct H2 as [-> ->]. rewrite List.app_nil_r.
        destruct (release_shape _ _ _ H1) as [->|(f & u & ->)].
        -- left. split; [reflexivity|]. intros b' s' [= _ Hs]. subst. now right.
        -- right. exists b, h, f. eexists. split; [reflexivity|]. split; [reflexivity|].
           intros b' s' [= _ Hs]. subst. reflexivity.
      * destruct (release_shape _ _ _ H1) as [->|(f & u & ->)].
        -- left. split; [reflexivity|]. discriminate.
        -- right. exists b, h, f. eexists. split; [reflexivity|]. split; [reflexivity|].
           discriminate.
  - cbn in H. destruct H as [-> ->]. left. split; [reflexivity|].
    intros b' s' [= _ Hs]. auto.
Qed.

Lemma check_all_unlocks_after_poll self paths t o :
  runs (check_all self paths) t o -> unlocks_after_poll t.
Proof.
  revert self t o. induction paths as [|p paths IH]; intros self t o H.
  - cbn in H. destruct H as [-> _]. now left.
  - cbn [check_all] in H.
    apply runs_bind_inv in H as [(t1 & [b s'] & t2 & -> & H1 & H2)|(e & H1 & _)].
    + cbn [fst snd] in H2.
      assert (Hrest : exists o', runs (check_all s' paths) t2 o').
      { apply runs_bind_inv in H2 as [(t3 & l' & t4 & -> & H3 & H4)|(e & H3 & _)].
        - cbn in H4. destruct H4 as [-> _]. rewrite List.app_nil_r. eauto.
        - eauto. }
      destruct Hrest as (o' & Hrest).
      apply is_icon_downloaded_shape in H1
        as [[Hz Hs]|(b0 & h & f & post & -> & Hpost & Hs)].
      * destruct (Hs b s' eq_refl) as [->|Hnone].
        -- destruct (IH _ _ _ Hrest) as [Hz2|(pre & h & f & post & -> & Hpre & Hpost)].
           ++ left. now rewrite count_app, Hz, Hz2.
           ++ right. exists (t1 ++ pre)%list, h, f, post.
              rewrite <- List.app_assoc. split; [reflexivity|].
              now rewrite count_app, Hz, Hpre.
        -- left. now rewrite count_app, Hz, (check_all_idle _ _ _ _ Hnone Hrest).
      * right. exists [Ev (Exists p) b0], h, f, (post ++ t2)%list.
        split; [reflexivity|]. split; [reflexivity|].
        now rewrite count_app, Hpost, (check_all_idle _ _ _ _ (Hs b s' eq_refl) Hrest).
    + apply is_icon_downloaded_shape in H1
        as [[Hz Hs]|(b0 & h & f & post & -> & Hpost & Hs)].
      * now left.
      * right. exists [Ev (Exists p) b0], h, f, post. auto.
Qed.

(** X14.  Along every run of [run()], whatever the environment replies,
    the calls are those of [download()] followed by those of the
    readiness loop; [download()] never unlocks; the loop unlocks at most
    once, and that unlock directly follows a poll that found the batch
    still running. *)
Theorem run_releases_at_most_once
  (cache_dir : string) (pairs : list (string * string)) (deadline : Z)
  (t : list event) (o : outcome (list bool * IconDownloader))
  (Hrun : runs (run cache_dir pairs deadline) t o) :
  exists td tc od,
    t = (td ++ tc)%list
    /\ runs (download cache_dir (Download.init cache_dir pairs deadline)) td od
    /\ match od with
       | Done self => runs (check_all self (List.map snd pairs)) tc o
       | Exn e => tc = [] /\ o = Exn e
       end
    /\ count is_flock_un td = O
    /\ unlocks_after_poll tc
    /\ (count is_flock_un t <= 1)%nat
    /\ (count is_flock_un t <= count poll_running t)%nat.
Proof.
  unfold run in Hrun.
  apply runs_bind_inv in Hrun as [(t1 & self & t2 & -> & H1 & H2)|(e & H1 & ->)].
  - exists t1, t2, (Done self).
    pose proof (download_calm _ _ _ _ H1) as Hc. apply calm_counts in Hc as [Hu Hp].
    pose proof (check_all_releases_once _ _ _ _ H2) as [Ha Hb].
    pose proof (check_all_unlocks_after_poll _ _ _ _ H2) as Hs.
    rewrite !count_app, Hu, Hp.
    split; [reflexivity|]. split; [exact H1|]. split; [exact H2|].
    split; [reflexivity|]. split; [exact Hs|]. split; lia.
  - exists t, [], (Exn e).
    pose proof (download_calm _ _ _ _ H1) as Hc. apply calm_counts in Hc as [Hu Hp].
    rewrite List.app_nil_r, Hu.
    split; [reflexivity|]. split; [exact H1|]. split; [split; reflexivity|].
    split; [reflexivity|]. split; [now left|]. split; lia.
Qed.

Lemma run_releases_at_most_once_witness :
  exists td tc od,
    fst (run_with still_running
           (run cache_dir [("https://a.com/", "/cache/a.png");
                           ("https://b.org/", "/cache/b.png")] 0))
    = (td ++ tc)%list
    /\ runs (download cache_dir
               (Download.init cache_dir [("https://a.com/", "/cache/a.png");
                                         ("https://b.org/", "/cache/b.png")] 0)) td od
    /\ count is_flock_un td = O
    /\ unlocks_after_poll tc.
Proof.
  destruct (run_releases_at_most_once
              _ _ _ _ _
              (run_with_runs still_running
                 (run cache_dir [("https://a.com/", "/cache/a.png");
                                 ("https://b.org/", "/cache/b.png")] 0)))
    as (td & tc & od & H1 & H2 & _ & H4 & H5 & _).
  exists td, tc, od. split; [exact H1|]. split; [exact H2|]. split; [exact H4|exact H5].
Defined.

Example run_releases_when_still_running :
  count is_flock_un
    (fst (run_with still_running
            (run cache_dir [("https://a.com/", "/cache/a.png");
                            ("https://b.org/", "/cache/b.png")] 0))) = 1%nat
  /\ count poll_running
       (fst (run_with still_running
               (run cache_dir [("https://a.com/", "/cache/a.png");
                               ("https://b.org/", "/cache/b.png")] 0))) = 1%nat.
Proof. vm_compute. auto. Qed.

(** X15.  What the readiness loop returns is, path by path and in order,
    the answer of the [exists()] call made for that path at that moment:
    the loop calls [exists()] exactly once per path, on that path and in
    the order of the paths, and the flags it returns are the answers to
    these calls, whatever happened to the batch and the lock. *)
Theorem readiness_is_existence_at_check_time
  (self self' : IconDownloader) (paths : list string)
  (t : list event) (ready : list bool)
  (Hrun : runs (check_all self paths) t (Done (ready, self'))) :
  exists_log t = combine paths ready
  /\ List.length ready = List.length paths
  /\ ready = exists_replies t.
Proof.
  assert (Hlog : exists_log t = combine paths ready
                 /\ List.length ready = List.length paths).
  { revert self self' t ready Hrun.
    induction paths as [|p paths IH]; intros self s' t bs H.
    - cbn in H. destruct H as [-> [= Hb _]]. subst. auto.
    - cbn [check_all] in H.
      apply runs_bind_inv in H as [(t1 & [b s1] & t2 & -> & H1 & H2)|(e & _ & [=])].
      cbn [fst snd] in H2.
      apply runs_bind_inv in H2 as [(t3 & [bs' s2] & t4 & -> & H3 & H4)|(e & _ & [=])].
      cbn in H4. destruct H4 as [-> [= Hbs Hs]]. subst bs s'. rewrite List.app_nil_r.
      apply IH in H3 as [Hl3 Hl].
      unfold exists_log. rewrite flat_map_app. fold (exists_log t1) (exists_log t3).
      rewrite (is_icon_downloaded_log _ _ _ _ _ H1), Hl3. cbn.
      split; [reflexivity|]. now rewrite Hl. }
  destruct Hlog as [Hlog Hlen]. split; [exact Hlog|]. split; [exact Hlen|].
  rewrite exists_replies_log, Hlog. clear - Hlen.
  revert ready Hlen. induction paths as [|p paths IH]; intros [|b ready] Hlen;
    try discriminate; [reflexivity|].
  cbn. f_equal. apply IH. now injection Hlen.
Qed.

Lemma readiness_is_existence_at_check_time_witness :
  exists_log
    (fst (run_with contended
            (check_all (Download.init cache_dir [] 0) ["/cache/a.png"; "/cache/b.png"])))
  = [("/cache/a.png", false); ("/cache/b.png", false)].
Proof.
  exact (proj1 (readiness_is_existence_at_check_time
                  (Download.init cache_dir [] 0) (Download.init cache_dir [] 0)
                  ["/cache/a.png"; "/cache/b.png"] _ [false; false]
                  (run_with_runs contended
                     (check_all (Download.init cache_dir [] 0)
                                ["/cache/a.png"; "/cache/b.png"])))).
Defined.

(* ================================================================== *)
(** ** PathResolver, further *)

Import Names.

Section UrlFacts.

Import Text.

Lemma key_url_sub_drop tail :
  forallb not_lf tail = true -> key_url_sub true tail = "".
Proof.
  induction tail as [|c tail IH]; cbn [key_url_sub forallb]; [reflexivity|]. unfold not_lf at 1.
  intros H. apply andb_prop in H as [Hc Ht]. apply negb_true_iff in Hc.
  rewrite Hc. auto.
Qed.

Lemma key_url_sub_app u s :
  forallb not_qh u = true ->
  key_url_sub false (u ++ s) = u ++ key_url_sub false s.
Proof.
  induction u as [|c u IH]; cbn [key_url_sub forallb append]; [reflexivity|]. unfold not_qh at 1.
  intros H. apply andb_prop in H as [Hc Hu]. apply negb_true_iff in Hc.
  rewrite Hc, IH by assumption. reflexivity.
Qed.

Lemma key_url_sub_clean b s : forallb not_qh (key_url_sub b s) = true.
Proof.
  revert b. induction s as [|c s IH]; intros b; cbn [key_url_sub forallb]; [reflexivity|].
  destruct b.
  - destruct (Ascii.eqb c LF) eqn:E; [|apply IH].
    cbn [forallb]. rewrite IH, andb_true_r. apply Ascii.eqb_eq in E. subst c. reflexivity.
  - destruct (is_qh c) eqn:E; [apply IH|]. cbn [forallb]. unfold not_qh at 1.
    rewrite E. apply IH.
Qed.

End UrlFacts.

(** X16.  [get_favicon_url] drops a query or fragment from any text, with
    or without a scheme: a [?] or [#] and what follows on the same line do
    not change the result, a text free of [?] and [#] is embedded as it
    is (scheme and [www.] included), and the embedded key never contains
    [?] or [#]. *)
Theorem favicon_url_drops_query_and_fragment
  (u : string) (q : ascii) (tail : string) (size : Z)
  (Hu : Text.forallb not_qh u = true) (Hq : is_qh q = true)
  (Htail : Text.forallb not_lf tail = true) :
  get_favicon_url (u ++ String q tail) size = get_favicon_url u size
  /\ key_url_sub false u = u
  /\ forall s, Text.forallb not_qh (key_url_sub false s) = true.
Proof.
  assert (Hplain : key_url_sub false u = u).
  { rewrite <- (append_empty_r u) at 1. rewrite key_url_sub_app by assumption.
    cbn [key_url_sub]. apply append_empty_r. }
  split; [|split; [exact Hplain | intros s; apply key_url_sub_clean]].
  unfold get_favicon_url. rewrite key_url_sub_app by assumption.
  cbn [key_url_sub]. rewrite Hq, key_url_sub_drop by assumption.
  now rewrite Hplain, append_empty_r.
Qed.

Lemma favicon_url_drops_query_and_fragment_witness :
  get_favicon_url "http://www.example.com/a?x=1#y" 32
  = get_favicon_url "http://www.example.com/a" 32.
Proof.
  assert (Hu : Text.forallb not_qh "http://www.example.com/a" = true) by reflexivity.
  assert (Hq : is_qh "?" = true) by reflexivity.
  assert (Ht : Text.forallb not_lf "x=1#y" = true) by reflexivity.
  exact (proj1 (favicon_url_drops_query_and_fragment
                  "http://www.example.com/a" "?" "x=1#y" 32 Hu Hq Ht)).
Defined.

Section NoScheme.

Import Text.

Lemma span_suffix_no_colon f s :
  forallb not_colon s = true -> forallb not_colon (snd (span f s)) = true.
Proof.
  induction s as [|c s IH]; cbn [span forallb snd]; [reflexivity|]. intros H.
  pose proof H as H'. apply andb_prop in H as [Hc Hs].
  destruct (f c).
  - destruct (span f s) as [a b] eqn:E. cbn [snd] in *. auto.
  - cbn [snd forallb]. exact H'.
Qed.

Lemma match_here_no_colon s : forallb not_colon s = true -> match_here s = None.
Proof.
  intros H. unfold match_here.
  pose proof (span_suffix_no_colon is_word s H) as Hs.
  destruct (span is_word s) as [w r1]. cbn [snd] in Hs.
  destruct (is_empty w); [reflexivity|].
  destruct r1 as [|c r1]; [reflexivity|].
  cbn [forallb] in Hs. apply andb_prop in Hs as [Hc _]. unfold not_colon in Hc.
  apply negb_true_iff in Hc. cbn [strip_prefix].
  rewrite Ascii.eqb_sym, Hc. reflexivity.
Qed.

Lemma file_url_sub_no_colon fuel s :
  forallb not_colon s = true -> file_url_sub fuel s = s.
Proof.
  revert s. induction fuel as [|fuel IH]; intros s H; [reflexivity|].
  cbn [file_url_sub]. rewrite match_here_no_colon by assumption.
  destruct s as [|c s]; [reflexivity|].
  cbn [forallb] in H. apply andb_prop in H as [_ H]. now rewrite IH.
Qed.

End NoScheme.

(** X17.  A URL without any colon gives the pattern of
    [get_favicon_path] nothing to match: nothing is removed, and the path
    is the digest of the whole quoted text, query and fragment included. *)
Theorem url_without_colon_is_hashed_whole
  (url dir : string) (Hurl : Text.forallb not_colon url = true) :
  get_favicon_path url dir = path_join dir (Sha256.hexdigest (quote url) ++ ".png").
Proof.
  unfold get_favicon_path. now rewrite file_url_sub_no_colon.
Qed.

Lemma url_without_colon_is_hashed_whole_witness :
  get_favicon_path "example.com/a?x=1" "/cache"
  = path_join "/cache" (Sha256.hexdigest (quote "example.com/a?x=1") ++ ".png").
Proof.
  assert (H : Text.forallb not_colon "example.com/a?x=1" = true) by reflexivity.
  exact (url_without_colon_is_hashed_whole "example.com/a?x=1" "/cache" H).
Defined.

Section DigestShape.

Import Sha256.

Lemma compress_length h block :
  List.length h = 8%nat -> List.length (compress h block) = 8%nat.
Proof.
  intros H. unfold compress. rewrite length_map, length_combine, H. reflexivity.
Qed.

Lemma fold_compress_length blocks h :
  List.length h = 8%nat -> List.length (fold_left compress blocks h) = 8%nat.
Proof.
  revert h. induction blocks as [|b blocks IH]; intros h H; cbn; [assumption|].
  apply IH. now apply compress_length.
Qed.

Lemma H0_length : List.length H0 = 8%nat.
Proof. vm_compute. reflexivity. Qed.

Lemma be_bytes_range n x : Forall byte_range (be_bytes n x).
Proof.
  induction n as [|n IH]; cbn [be_bytes]; constructor; [|assumption].
  unfold byte_range. apply Z.mod_pos_bound. lia.
Qed.

Lemma be_bytes_length n x : List.length (be_bytes n x) = n.
Proof. induction n as [|n IH]; cbn [be_bytes List.length]; congruence. Qed.

Lemma digest_shape msg :
  List.length (digest msg) = 32%nat /\ Forall byte_range (digest msg).
Proof.
  unfold digest.
  pose proof (fold_compress_length
                (chunks (List.length (pad msg)) 64 (pad msg)) H0 H0_length) as Hl.
  set (state := fold_left compress _ H0) in *. clearbody state.
  do 9 (destruct state as [|? state]; try discriminate Hl).
  split.
  - cbn [flat_map]. rewrite !length_app, !be_bytes_length. reflexivity.
  - cbn [flat_map]. repeat (apply Forall_app; split); try apply be_bytes_range. constructor.
Qed.

Lemma hex_digit_lower n : 0 <= n < 16 -> is_lower_hex (Text.hex_digit false n) = true.
Proof.
  intros H.
  assert (Hall : List.forallb
                   (fun k => is_lower_hex (Text.hex_digit false (Z.of_nat k)))
                   (seq 0 16) = true) by (vm_compute; reflexivity).
  rewrite forallb_forall in Hall. specialize (Hall (Z.to_nat n)).
  rewrite Z2Nat.id in Hall by lia. apply Hall. apply in_seq. lia.
Qed.

Lemma hex_of_bytes bs :
  Forall byte_range bs ->
  String.length (hex_of bs) = (2 * List.length bs)%nat
  /\ Text.forallb is_lower_hex (hex_of bs) = true.
Proof.
  induction 1 as [|b bs Hb _ IH]; cbn [hex_of fold_right]; [auto|].
  fold (hex_of bs). destruct IH as [IHl IHf].
  unfold Text.hex_byte. cbn [append String.length Text.forallb].
  rewrite IHl, IHf.
  rewrite !hex_digit_lower.
  - split; [cbn [List.length]; lia | reflexivity].
  - unfold byte_range in Hb. apply Z.mod_pos_bound. lia.
  - unfold byte_range in Hb. split; [apply Z.div_pos; lia | apply Z.div_lt_upper_bound; lia].
Qed.

End DigestShape.

(** X18.  Whatever the URL, the cache path is the directory, a slash, a
    name of exactly 64 characters out of [0-9a-f], and [.png]. *)
Theorem favicon_path_is_a_fixed_length_hex_name (url dir : string) :
  exists name,
    get_favicon_path url dir = dir ++ "/" ++ name ++ ".png"
    /\ String.length name = 64%nat
    /\ Text.forallb is_lower_hex name = true.
Proof.
  unfold get_favicon_path, path_join, Sha256.hexdigest.
  fold (hex_of (Sha256.digest
                  (Text.bytes (quote (file_url_sub (S (String.length url)) url))))).
  eexists. split; [reflexivity|].
  destruct (digest_shape (Text.bytes (quote (file_url_sub (S (String.length url)) url))))
    as [Hl Hr].
  destruct (hex_of_bytes _ Hr) as [Hlen Hhex].
  split; [rewrite Hlen, Hl; reflexivity | exact Hhex].
Qed.

(* ================================================================== *)
(** ** Two processes racing for the lock *)

Import Interleaving Race.

(** [acquire] alone: it follows the protocol whatever the replies, as long
    as they are the ones [rely] allows. *)
Section OneProcess.

Variables (path : string) (t0 limit : Z).

(** No record touched during the race is stale. *)
Lemma young (self : LockFile) (now m : Z) :
  limit - t0 <= stale_age_sec self -> now <= limit -> t0 <= m ->
  (now - m >? stale_age_sec self) = false.
Proof. intros. destruct (Z.gtb_spec (now - m) (stale_age_sec self)); [lia|reflexivity]. Qed.

Lemma acquire_within (me other : Z) (self : LockFile) (fuel : nat) :
  lock_file self = None -> lock_file_path self = path ->
  fits_c_int me = true -> fits_c_int other = true ->
  limit - t0 <= stale_age_sec self ->
  within path t0 limit me other 7 Fresh (acquire (S fuel) self false).
Proof.
  intros Hf Hp Hme Hot Hage.
  cbn [acquire]. rewrite Hf, Hp.
  cbn [within bind call drop_ref allowed rely next].
  split; [reflexivity|]. intros f _. split; [reflexivity|].
  intros r [-> | ->].
  - cbn [within bind call allowed rely next]. split; [exact I|]. intros pid ->.
    cbn [within bind call allowed rely next]. split; [now split|]. intros _. reflexivity.
  - cbn -[py_int py_str Text.strip fits_c_int Z.gtb Z.sub].
    rewrite Hp.
    split; [reflexivity|]. intros x (s & -> & [-> | [-> | ->]]).
    + rewrite parsed_empty.
      cbn -[py_int py_str Text.strip fits_c_int Z.gtb Z.sub].
      split; [exact I|]. intros now Hnow. split; [reflexivity|].
      intros x (m & -> & Hm). rewrite (young _ _ _ Hage Hnow Hm).
      cbn. split; [reflexivity|]. intros _. reflexivity.
    + rewrite int_of_stripped_str, Hme.
      cbn -[py_int py_str Text.strip fits_c_int Z.gtb Z.sub].
      split; [split; [reflexivity|now left]|]. intros x ->.
      cbn -[py_int py_str Text.strip fits_c_int Z.gtb Z.sub].
      split; [exact I|]. intros now Hnow. split; [reflexivity|].
      intros x (m & -> & Hm). rewrite (young _ _ _ Hage Hnow Hm).
      cbn. split; [reflexivity|]. intros _. reflexivity.
    + rewrite int_of_stripped_str, Hot.
      cbn -[py_int py_str Text.strip fits_c_int Z.gtb Z.sub].
      split; [split; [reflexivity|now right]|]. intros x ->.
      cbn -[py_int py_str Text.strip fits_c_int Z.gtb Z.sub].
      split; [exact I|]. intros now Hnow. split; [reflexivity|].
      intros x (m & -> & Hm). rewrite (young _ _ _ Hage Hnow Hm).
      cbn. split; [reflexivity|]. intros _. reflexivity.
Qed.

End OneProcess.

Section Record.

Variables (path : string) (t0 limit : Z).

Lemma inv_sym me other w sm so :
  inv path t0 me other w sm so -> inv path t0 other me w so sm.
Proof.
  unfold inv, record_ok, lock_of, apart.
  intros (Hn & Ha & Hb & Hx & Hap & Hl1 & Hl2 & Hrec).
  repeat (split; [solve [assumption | tauto | destruct (descriptor sm), (descriptor so); auto]|]).
  destruct sm, so; cbn in *; try exact Hrec;
    try (destruct Hrec as (i & Hd & T1 & T2 & Hlk & Hm & Hc); exists i;
         repeat split; try assumption; try tauto;
         destruct Hx; congruence).
Qed.

Lemma inv_tick me other w sm so dt :
  inv path t0 me other w sm so -> inv path t0 me other (tick dt w) sm so.
Proof.
  unfold inv. intros (Hn & H). split; [cbn; lia|].
  destruct sm, so; exact H.
Qed.

(** What a process that has opened the record knows of it. *)
Lemma inv_record me other w sm so f :
  inv path t0 me other w sm so -> descriptor sm = Some f ->
  exists i, dir w path = Some i
            /\ proc_ok w i me sm /\ proc_ok w i other so
            /\ record_ok t0 me other w i sm so.
Proof.
  intros (_ & _ & _ & _ & _ & _ & _ & H) Hd. rewrite Hd in H. exact H.
Qed.

(** The calls of [is_stale] that change nothing. *)
Lemma step_reads me other w so f (X : Type) (c : sys X) :
  inv path t0 me other w (Lost f) so -> now w <= limit ->
  match c with
  | ReadText p => p = path
  | Kill p sig => sig = 0 /\ (p = me \/ p = other)
  | Time => True
  | StatMtime p => p = path
  | _ => False
  end ->
  fst (exec me c w) = w /\ rely t0 limit me other c (snd (exec me c w)).
Proof.
  intros Hinv Hnow Hc.
  destruct (inv_record _ _ _ _ _ _ Hinv eq_refl) as (i & Hd & _ & _ & Hlk & Hm & Hcont).
  destruct Hinv as (_ & Ha & Hb & _).
  destruct c; try contradiction; cbn [exec rely fst snd].
  - subst. rewrite Hd. split; [reflexivity|]. eexists; split; [reflexivity|].
    unfold benign. cbn [written] in Hcont. tauto.
  - destruct Hc as [-> [-> | ->]]; rewrite ?Ha, ?Hb; cbn; auto.
  - auto.
  - subst. rewrite Hd. split; [reflexivity|]. eexists; split; [reflexivity|assumption].
Qed.

End Record.

(** Splitting the invariant, with [i] the record's file. *)
Ltac conj_split :=
  repeat match goal with
         | |- _ /\ _ => split
         | |- True => exact I
         end.

Ltac inv_with i :=
  unfold inv, record_ok, lock_of, apart, proc_ok;
  cbn [holder descriptor lost written now alive dir inodes files next_fd
       set_files set_inodes set_fs set_now i_lock i_mtime i_content];
  conj_split;
  [.. | exists i; rewrite ?upd_same, ?bind_path_same;
        cbn [i_lock i_mtime i_content]; conj_split];
  try rewrite upd_other by lia;
  try solve [assumption | reflexivity | lia | tauto | auto | congruence
             | eexists; eauto].

Section Calls.

Variables (path : string) (t0 limit : Z).

Lemma step_open me other w so :
  inv path t0 me other w Fresh so ->
  inv path t0 me other (fst (exec me (OpenW path) w))
      (Opened (snd (exec me (OpenW path) w))) so.
Proof.
  intros (Hn & Ha & Hb & Hx & Hap & Hl1 & Hl2 & Hrec).
  assert (Hnl : ~ lost so) by (intros H; now apply (Hl2 H)).
  cbn [exec]. unfold create_or_truncate.
  destruct so as [|g|g|g|g]; cbn [descriptor lost] in *; try tauto.
  1: unfold free in Hrec;
    destruct (dir w path) as [i|] eqn:Hd; cbn [fst snd];
      [inv_with i | inv_with (next_ino w)].
  all: destruct Hrec as (i & Hd & _ & [Hlt T] & Hlk & Hm & Hc); rewrite Hd; cbn [fst snd];
    inv_with i.
Qed.

Lemma step_flock me other w so f :
  inv path t0 me other w (Opened f) so ->
  let r := exec me (FlockExNb f) w in
  (snd r = None \/ snd r = Some EWOULDBLOCK)
  /\ inv path t0 me other (fst r)
         (match snd r with None => Won f | Some _ => Lost f end) so.
Proof.
  intros (Hn & Ha & Hb & Hx & Hap & Hl1 & Hl2 & Hrec).
  cbn [descriptor] in Hrec.
  destruct Hrec as (i & Hd & [Hlt Tm] & To & Hlk & Hm & Hc).
  cbn [exec]. rewrite Tm. cbn [o_open o_ino]. rewrite Hlk.
  unfold lock_of, apart in *.
  destruct so as [|g|g|g|g]; cbn [holder descriptor lost written proc_ok] in *.
  all: try (exfalso; now apply Hl2).
  all: try (apply Nat.eqb_neq in Hap as Hfg; rewrite Nat.eqb_sym in Hfg; rewrite Hfg).
  all: cbn [fst snd]; (split; [auto|]).
  all: inv_with i.
Qed.

Lemma step_write me other w so f :
  inv path t0 me other w (Won f) so ->
  inv path t0 me other (fst (exec me (WriteFlush f (py_str me)) w)) (Written f) so.
Proof.
  intros (Hn & Ha & Hb & Hx & Hap & Hl1 & Hl2 & Hrec).
  cbn [descriptor] in Hrec.
  destruct Hrec as (i & Hd & [Hlt Tm] & To & Hlk & Hm & Hc).
  cbn [exec]. rewrite Tm. cbn [o_open o_ino o_pos o_pid fst].
  unfold lock_of, apart in *.
  destruct so as [|g|g|g|g]; cbn [holder descriptor lost written proc_ok] in *.
  all: try (destruct Hx; discriminate).
  all: assert (Hempty : i_content (inodes w i) = "") by tauto;
    rewrite Hempty, write_at_start.
  all: inv_with i.
Qed.

Lemma step_close me other w so f :
  inv path t0 me other w (Lost f) so ->
  inv path t0 me other (fst (exec me (Close f) w)) (Lost f) so.
Proof.
  intros (Hn & Ha & Hb & Hx & Hap & Hl1 & Hl2 & Hrec).
  cbn [descriptor] in Hrec.
  destruct Hrec as (i & Hd & (Hlt & o & Tm & Ho) & To & Hlk & Hm & Hc).
  cbn [exec fst]. unfold close_file. rewrite Tm, Ho. unfold unlock_if. rewrite Hlk.
  unfold lock_of, apart in *.
  destruct so as [|g|g|g|g]; cbn [holder descriptor lost written proc_ok] in *.
  all: try (exfalso; now apply Hl1).
  all: try (apply Nat.eqb_neq in Hap as Hfg; rewrite Nat.eqb_sym in Hfg; rewrite Hfg).
  all: inv_with i.
Qed.

Lemma allowed_keeps_clock me other st w (X : Type) (c : sys X) :
  allowed path me other st c -> now (fst (exec me c w)) = now w.
Proof.
  destruct st, c; cbn [allowed]; try contradiction; intros Hal; cbn [exec];
    unfold create_or_truncate, close_file;
    repeat match goal with
           | |- context [dir w ?p] => destruct (dir w p)
           | |- context [match ?x with _ => _ end] => destruct x eqn:?
           | |- context [if ?x then _ else _] => destruct x eqn:?
           end; reflexivity.
Qed.

(** One call of a process that follows the protocol: the reply is as
    [rely] says and the environment still fits. *)
Lemma step_ok me other w sm so n p :
  inv path t0 me other w sm so ->
  within path t0 limit me other n sm p ->
  now w <= limit ->
  exists sm',
    inv path t0 me other (fst (step_proc me p w)) sm' so
    /\ within path t0 limit me other (pred n) sm' (snd (step_proc me p w))
    /\ now (fst (step_proc me p w)) = now w.
Proof.
  intros Hinv Hw Hnow.
  destruct p as [r|e|X c k].
  - exists sm. cbn. auto.
  - destruct Hw.
  - destruct n as [|n]; [destruct Hw|]. destruct Hw as [Hal Hk].
    cbn [step_proc pred].
    pose proof (allowed_keeps_clock me other sm w X c Hal) as Hclock.
    assert (Hcore : rely t0 limit me other c (snd (exec me c w))
                    /\ inv path t0 me other (fst (exec me c w))
                           (next sm c (snd (exec me c w))) so).
    { destruct sm.
      - destruct c; cbn [allowed] in Hal; try contradiction. subst.
        split; [exact I|]. now apply step_open.
      - destruct c; cbn [allowed] in Hal; try contradiction. subst.
        exact (step_flock me other w so f Hinv).
      - destruct c; cbn [allowed] in Hal; try contradiction.
        + destruct Hal as [-> ->]. split; [exact I|]. now apply step_write.
        + split; [reflexivity|exact Hinv].
      - destruct c; cbn [allowed] in Hal; contradiction.
      - assert (Hr := step_reads path t0 limit me other w so f X c Hinv Hnow).
        destruct c; cbn [allowed] in Hal; try contradiction.
        + subst. split; [exact I|]. now apply step_close.
        + destruct (Hr Hal) as [-> Hx]. split; [exact Hx|exact Hinv].
        + destruct (Hr Hal) as [-> Hx]. split; [exact Hx|exact Hinv].
        + destruct (Hr Hal) as [-> Hx]. split; [exact Hx|exact Hinv].
        + destruct (Hr Hal) as [-> Hx]. split; [exact Hx|exact Hinv]. }
    destruct (exec me c w) as [w' x]. cbn [fst snd] in *.
    exists (next sm c x). destruct Hcore as [Hx Hi]. auto.
Qed.

End Calls.

Section Schedules.

Variables (path : string) (t0 limit : Z) (pa pb : Z).

Lemma elapsed_nonneg (s : list turn) : 0 <= elapsed s.
Proof.
  induction s as [|u s IH]; [cbn; lia|].
  change (elapsed (u :: s)) with (delay u + elapsed s). destruct u; cbn [delay]; lia.
Qed.

Lemma interleave_good (s : list turn) :
  forall (c : config (bool * LockFile)) (na nb : nat),
    good path t0 limit pa pb na nb c -> now (env c) + elapsed s <= limit ->
    good path t0 limit pa pb (na - turns_of_a s) (nb - turns_of_b s)
         (interleave pa pb s c).
Proof.
  induction s as [|t s IH]; intros c na nb Hg Hlim.
  - cbn. now rewrite !Nat.sub_0_r.
  - destruct Hg as (sa & sb & Hinv & Hwa & Hwb).
    cbn [elapsed fold_right] in Hlim. fold (elapsed s) in Hlim.
    pose proof (elapsed_nonneg s) as He.
    cbn [interleave fold_left]. fold (interleave pa pb s (step pa pb c t)).
    destruct t as [dt|dt]; cbn [delay] in Hlim.
    + pose proof (inv_tick path t0 pa pb _ sa sb dt Hinv) as Ht.
      destruct (step_ok path t0 limit pa pb (tick dt (env c)) sa sb na (proc_a c) Ht Hwa)
        as (sa' & Hi & Hw & Hclock); [cbn; lia|].
      replace (na - turns_of_a (RunA dt :: s))%nat
        with (pred na - turns_of_a s)%nat by (unfold turns_of_a; cbn [filter is_a negb List.length]; destruct na; cbn [pred]; lia).
      replace (nb - turns_of_b (RunA dt :: s))%nat
        with (nb - turns_of_b s)%nat by (unfold turns_of_b; cbn [filter is_a negb List.length]; destruct nb; cbn [pred]; lia).
      apply IH.
      * exists sa', sb. unfold step.
        destruct (step_proc pa (proc_a c) (tick dt (env c))) as [w' p'].
        cbn [fst snd env proc_a proc_b] in *. auto.
      * unfold step.
        destruct (step_proc pa (proc_a c) (tick dt (env c))) as [w' p'].
        cbn [fst snd env] in *. rewrite Hclock. cbn. lia.
    + pose proof (inv_sym path t0 pa pb _ sa sb
                    (inv_tick path t0 pa pb _ sa sb dt Hinv)) as Ht.
      destruct (step_ok path t0 limit pb pa (tick dt (env c)) sb sa nb (proc_b c) Ht Hwb)
        as (sb' & Hi & Hw & Hclock); [cbn; lia|].
      replace (na - turns_of_a (RunB dt :: s))%nat
        with (na - turns_of_a s)%nat by (unfold turns_of_a; cbn [filter is_a negb List.length]; destruct na; cbn [pred]; lia).
      replace (nb - turns_of_b (RunB dt :: s))%nat
        with (pred nb - turns_of_b s)%nat by (unfold turns_of_b; cbn [filter is_a negb List.length]; destruct nb; cbn [pred]; lia).
      apply IH.
      * exists sa, sb'. unfold step.
        destruct (step_proc pb (proc_b c) (tick dt (env c))) as [w' p'].
        cbn [fst snd env proc_a proc_b] in *.
        split; [now apply inv_sym|]. auto.
      * unfold step.
        destruct (step_proc pb (proc_b c) (tick dt (env c))) as [w' p'].
        cbn [fst snd env] in *. rewrite Hclock. cbn. lia.
Qed.

Lemma good_winner_holds (w : world) (sa sb : stage) (r : bool * LockFile) :
  inv path t0 pa pb w sa sb -> verdict sa r -> fst r = true ->
  holder_at w path = Some pa.
Proof.
  intros (_ & _ & _ & Hx & _ & _ & _ & Hrec) Hv Hr.
  destruct sa; cbn [verdict] in Hv; try contradiction; [|congruence].
  cbn [descriptor] in Hrec.
  destruct Hrec as (i & Hd & (_ & pos & Hf) & _ & Hlk & _).
  unfold holder_at. rewrite Hd, Hlk. unfold lock_of. cbn [holder]. now rewrite Hf.
Qed.

Lemma good_one_winner (w : world) (sa sb : stage) (ra rb : bool * LockFile) :
  inv path t0 pa pb w sa sb -> verdict sa ra -> verdict sb rb ->
  fst ra = negb (fst rb).
Proof.
  intros (_ & _ & _ & Hx & _ & Hl1 & Hl2 & _) Hva Hvb.
  destruct sa, sb; cbn [verdict holder lost] in *; try contradiction.
  - destruct Hx; discriminate.
  - now rewrite Hva, Hvb.
  - now rewrite Hva, Hvb.
  - exfalso. now apply Hl1.
Qed.

Lemma within_done me other (st : stage) (p : prog (bool * LockFile)) :
  within path t0 limit me other 0 st p -> exists r, p = Ret r.
Proof. destruct p; cbn; [eauto|contradiction..]. Qed.

End Schedules.

(** X19.  Two processes call [acquire()] on the same free lock, their
    system calls interleaved in any order and any time passing between
    them, as long as the whole takes no longer than the stale age of
    either object and both process identifiers are live and fit a C int.
    Then neither call raises, each has returned after seven calls of its
    own, the two return opposite flags, and the one that returned [True]
    holds the [flock] on the record. *)
Theorem racing_acquires_have_one_winner
  (w : world) (pa pb : Z) (la lb : LockFile) (fa fb : nat) (s : list turn)
  (Ha : alive w pa = true) (Hb : alive w pb = true)
  (Hia : fits_c_int pa = true) (Hib : fits_c_int pb = true)
  (Hla : lock_file la = None) (Hlb : lock_file lb = None)
  (Hpath : lock_file_path lb = lock_file_path la)
  (Hfree : free w (lock_file_path la))
  (Hta : elapsed s <= stale_age_sec la) (Htb : elapsed s <= stale_age_sec lb) :
  let c := interleave pa pb s
             (Config w (acquire (S fa) la false) (acquire (S fb) lb false)) in
  (forall e, proc_a c <> Raise e) /\ (forall e, proc_b c <> Raise e)
  /\ ((7 <= turns_of_a s)%nat -> exists r, proc_a c = Ret r)
  /\ ((7 <= turns_of_b s)%nat -> exists r, proc_b c = Ret r)
  /\ (forall ra rb, proc_a c = Ret ra -> proc_b c = Ret rb -> fst ra = negb (fst rb))
  /\ (forall r, proc_a c = Ret r -> fst r = true ->
      holder_at (env c) (lock_file_path la) = Some pa)
  /\ (forall r, proc_b c = Ret r -> fst r = true ->
      holder_at (env c) (lock_file_path la) = Some pb).
Proof.
  set (path := lock_file_path la). set (t0 := now w). set (limit := now w + elapsed s).
  assert (Hg : good path t0 limit pa pb 7 7
                 (Config w (acquire (S fa) la false) (acquire (S fb) lb false))).
  { exists Fresh, Fresh. cbn [env proc_a proc_b]. split; [|split].
    - unfold inv. cbn [holder descriptor lost]. unfold apart. cbn [descriptor].
      repeat split; try assumption; try tauto; unfold t0; lia.
    - apply acquire_within; try assumption; try reflexivity. unfold limit, t0. lia.
    - apply acquire_within; try assumption. unfold limit, t0. lia. }
  apply (interleave_good path t0 limit pa pb s) in Hg; [|cbn [env]; unfold limit; lia].
  intros c. fold c in Hg. destruct Hg as (sa & sb & Hinv & Hwa & Hwb).
  split; [|split; [|split; [|split; [|split; [|split]]]]].
  - intros e He. rewrite He in Hwa. exact Hwa.
  - intros e He. rewrite He in Hwb. exact Hwb.
  - intros Hn. replace (7 - turns_of_a s)%nat with 0%nat in Hwa by lia.
    exact (within_done path t0 limit pa pb sa _ Hwa).
  - intros Hn. replace (7 - turns_of_b s)%nat with 0%nat in Hwb by lia.
    exact (within_done path t0 limit pb pa sb _ Hwb).
  - intros ra rb Ea Eb. rewrite Ea in Hwa. rewrite Eb in Hwb.
    exact (good_one_winner path t0 pa pb _ sa sb ra rb Hinv Hwa Hwb).
  - intros r Ea Hr. rewrite Ea in Hwa.
    exact (good_winner_holds path t0 pa pb _ sa sb r Hinv Hwa Hr).
  - intros r Eb Hr. rewrite Eb in Hwb.
    exact (good_winner_holds path t0 pb pa _ sb sa r (inv_sym path t0 pa pb _ sa sb Hinv) Hwb Hr).
Qed.

Lemma racing_acquires_have_one_winner_witness :
  let c := interleave 100 200 sample
             (Config (start 0 []) (acquire 1 the_lock false) (acquire 1 the_lock false)) in
  exists ra rb, proc_a c = Ret ra /\ proc_b c = Ret rb /\ fst ra = negb (fst rb).
Proof.
  assert (Ha : alive (start 0 []) 100 = true) by reflexivity.
  assert (Hb : alive (start 0 []) 200 = true) by reflexivity.
  assert (Hia : fits_c_int 100 = true) by reflexivity.
  assert (Hib : fits_c_int 200 = true) by reflexivity.
  assert (Hfree : free (start 0 []) (lock_file_path the_lock)) by exact I.
  assert (Ht : elapsed sample <= stale_age_sec the_lock) by (vm_compute; discriminate).
  assert (Hna : (7 <= turns_of_a sample)%nat) by (vm_compute; lia).
  assert (Hnb : (7 <= turns_of_b sample)%nat) by (vm_compute; lia).
  pose proof (racing_acquires_have_one_winner (start 0 []) 100 200 the_lock the_lock 0 0
                sample Ha Hb Hia Hib eq_refl eq_refl eq_refl Hfree Ht Ht) as H.
  cbv zeta in H. destruct H as (_ & _ & H3 & H4 & H5 & _).
  intros c. destruct (H3 Hna) as [ra Ea]. destruct (H4 Hnb) as [rb Eb].
  exists ra, rb. split; [exact Ea|]. split; [exact Eb|]. exact (H5 ra rb Ea Eb).
Defined.

(** In the sample schedule the second process locks first. *)
Example racing_sample :
  let c := interleave 100 200 sample
             (Config (start 0 []) (acquire 1 the_lock false) (acquire 1 the_lock false)) in
  option_map fst (match proc_a c with Ret r => Some r | _ => None end) = Some false
  /\ option_map fst (match proc_b c with Ret r => Some r | _ => None end) = Some true
  /\ holder_at (env c) lock_path = Some 200
  /\ content_at (env c) lock_path = Some "200".
Proof. vm_compute. repeat split. Qed.

(* ================================================================== *)
(** ** The claims on the lock record, the wait and the release *)

Import Findings.

(** C1.  The record does not keep the holder's identifier while the lock
    is held.  Process 100 holds the lock and the record reads 100;
    process 200 calls [acquire()], which opens the record for writing
    before it tries [flock]: the call returns False, process 100 still
    holds the lock, and the record is empty. *)
Theorem contender_empties_the_record :
  content_at held lock_path = Some "100"
  /\ holder_at held lock_path = Some 100
  /\ (let r := exec_prog 200 (acquire RECURSION_LIMIT the_lock false) held in
      flag_of (outcome_of r) = Some false
      /\ holder_at (world_after r) lock_path = Some 100
      /\ content_at (world_after r) lock_path = Some "").
Proof. vm_compute. repeat split. Qed.

(** C2.  With a deadline of zero [run()] still waits for the whole batch.
    One icon is missing, the lock is free and curl takes 5000 seconds:
    the run ends 5000 seconds after it began, and [wait(timeout=0)] is
    answered at once with the exit code, because [communicate()] has
    already waited for curl to end. *)
Theorem download_blocks_past_a_zero_deadline :
  let w := start 5000 ["/cache/a.png"] in
  let r := exec_prog 100 (run cache_dir [("https://a.com/", "/cache/a.png")] 0) w in
  now w = 1000
  /\ now (world_after r) = 6000
  /\ In (Ev (Wait 0%nat 0) (Some 0)) (calls_of r)
  /\ ready_of (outcome_of r) = Some [true].
Proof.
  vm_compute. repeat split.
  repeat (first [left; reflexivity | right]).
Qed.

(* ------------------------------------------------------------------ *)
(** *** C3: two URLs with one cache path *)

(** C3, as amended.  Two different URLs with the same cache path, whose
    file is missing, on a free lock and with a curl that starts: [run()]
    feeds curl one job list with two jobs, one per URL, both for the same
    file; when curl has written that file, both pairs are reported
    ready. *)
Theorem two_urls_on_one_path_are_two_jobs
  (w : world) (pid : Z) (cache_dir u1 u2 p : string) (deadline d rc : Z)
  (outs : list string)
  (Hu : u1 <> u2)
  (Hmissing : exists_in w p = false)
  (Hfree : free w (LOCK_PATH cache_dir))
  (Hlaunch : can_launch w = true)
  (Hcurl : curl w (job_list [(u1, p); (u2, p)]) = (d, rc, outs)) :
  let r := exec_prog pid (run cache_dir [(u1, p); (u2, p)] deadline) w in
  List.filter is_communicate (calls_of r)
  = [Ev (Communicate (next_child w)
           (Text.join NEWLINE ["parallel"; job (u1, p); job (u2, p)])) tt]
  /\ (In p outs -> exists self, outcome_of r = Done ([true; true], self)).
Proof.
  assert (Hdict : ordered_dict [(u1, p); (u2, p)] = [(u1, p); (u2, p)]).
  { unfold ordered_dict. cbn. apply String.eqb_neq in Hu. now rewrite Hu. }
  assert (Hneed : needed_in w [(u1, p); (u2, p)] = [(u1, p); (u2, p)]).
  { unfold needed_in. rewrite Hdict. cbn. now rewrite Hmissing. }
  intros r.
  assert (Hne : needed_in w [(u1, p); (u2, p)] <> []) by (rewrite Hneed; discriminate).
  rewrite <- Hneed in Hcurl.
  destruct (download_launch w pid cache_dir [(u1, p); (u2, p)] deadline d rc outs
                            Hne Hfree Hlaunch Hcurl)
    as (Ho & Hc & _ & Hch & _ & Hthere).
  subst r. unfold run. rewrite exec_prog_bind.
  set (rd := exec_prog pid (download cache_dir
                              (Download.init cache_dir [(u1, p); (u2, p)] deadline)) w) in *.
  destruct rd as [[wd td] od]. unfold outcome_of, calls_of, world_after in *.
  cbn [fst snd] in *. subst od td.
  rewrite check_all_settled by (unfold settled; cbn [proc set_proc]; eauto).
  cbn [fst snd]. split.
  - rewrite Hdict, Hneed. unfold job_list, curl_in.
    rewrite !List.filter_app. unfold acquire_calls, launch_calls, check_calls.
    cbn [proc set_proc set_lockfile List.map flat_map List.filter is_communicate
         exists_call app snd].
    reflexivity.
  - intros Hwritten. cbn [List.map snd]. rewrite (Hthere p Hwritten). eexists. reflexivity.
Qed.

Lemma two_urls_on_one_path_are_two_jobs_witness :
  let p := get_favicon_path page_1 cache_dir in
  let r := exec_prog 100 (run cache_dir [(page_1, p); (page_2, p)] 0) (start 0 [p]) in
  exists self, outcome_of r = Done ([true; true], self).
Proof.
  intros p r.
  assert (Hu : page_1 <> page_2) by discriminate.
  assert (Hm : exists_in (start 0 [p]) p = false) by reflexivity.
  assert (Hfree : free (start 0 [p]) (LOCK_PATH cache_dir)) by exact I.
  assert (Hl : can_launch (start 0 [p]) = true) by reflexivity.
  assert (Hc : curl (start 0 [p]) (job_list [(page_1, p); (page_2, p)]) = (0, 0, [p]))
    by reflexivity.
  assert (Hw : In p [p]) by (left; reflexivity).
  exact (proj2 (two_urls_on_one_path_are_two_jobs
                  (start 0 [p]) 100 cache_dir page_1 page_2 p 0 0 0 [p]
                  Hu Hm Hfree Hl Hc) Hw).
Defined.

(** C3, as the claim states it, fails.  The two pages of the scenario have
    one cache path, and [main] asks for two jobs, not one: the dictionary
    is keyed by URL.  When another process holds the lock, no job is
    issued at all. *)
Lemma one_page_is_fetched_twice :
  let p := get_favicon_path page_1 cache_dir in
  get_favicon_path page_2 cache_dir = p
  /\ List.filter is_communicate
       (calls_of (exec_prog 100 (main_icons cache_dir [page_1; page_2] 0) (start 0 [p])))
     = [Ev (Communicate 0%nat
              (Text.join NEWLINE ["parallel"; job (page_1, p); job (page_2, p)])) tt]
  /\ List.filter is_communicate
       (calls_of (exec_prog 200 (main_icons cache_dir [page_1; page_2] 0) held))
     = [].
Proof. vm_compute. repeat split. Qed.

(* ------------------------------------------------------------------ *)
(** *** C4: when [run()] releases *)

Lemma download_armed cache_dir self t self' :
  proc self = None ->
  runs (download cache_dir self) t (Done self') -> armed self'.
Proof.
  intros Hp H. unfold download in H.
  apply runs_bind_inv in H as [(t1 & needed & t2 & -> & H1 & H2)|(e & _ & [=])].
  destruct needed as [|n0 needed].
  - cbn in H2. destruct H2 as [_ [= ->]]. now left.
  - apply runs_bind_inv in H2 as [(t3 & [b l] & t4 & -> & H3 & H4)|(e & _ & [=])].
    apply acquire_returns_file in H3 as (f & Hl).
    cbn [fst snd] in H4. destruct b; cbn [negb] in H4; subst l.
    + run_inv H4; try discriminate;
        try (destruct H4 as [_ [= ->]]); try (right; exists f; reflexivity).
    + cbn in H4. destruct H4 as [_ [= ->]]. now left.
Qed.

Lemma check_all_no_poll self paths t o :
  proc self = None ->
  runs (check_all self paths) t o -> count poll_running t = O.
Proof.
  revert self t o. induction paths as [|p paths IH]; intros self t o Hp H.
  - cbn in H. destruct H as [-> _]. reflexivity.
  - cbn [check_all] in H. unfold is_icon_downloaded in H. rewrite Hp in H.
    cbn [bind call runs] in H. destruct H as (b & t' & -> & H). cbn [fst snd] in H.
    apply runs_bind_inv in H as [(t1 & l & t2 & -> & H1 & H2)|(e & H1 & _)].
    + cbn in H2. destruct H2 as [-> _]. rewrite List.app_nil_r.
      exact (IH _ _ _ Hp H1).
    + exact (IH _ _ _ Hp H1).
Qed.

(** One round of the loop: a poll that finds the batch running is
    followed by the release, after which no batch is remembered. *)
Lemma is_icon_downloaded_armed self p t r :
  armed self ->
  runs (is_icon_downloaded self p) t r ->
  count is_flock_un t = count poll_running t
  /\ exists b s', r = Done (b, s')
                  /\ ((s' = self /\ count poll_running t = O) \/ proc s' = None).
Proof.
  intros Harm H. unfold is_icon_downloaded in H.
  cbn [bind call runs] in H. destruct H as (b & t' & -> & H).
  destruct (proc self) as [h|] eqn:Hp.
  - destruct Harm as [Hn|(f & Hf)]; [congruence|].
    cbn [bind call runs] in H. destruct H as (rc & t'' & -> & H).
    destruct rc as [rc|].
    + cbn in H. destruct H as [-> ->]. split; [reflexivity|].
      exists b, self. split; [reflexivity|]. left. auto.
    + unfold release in H. rewrite Hf in H. cbn in H.
      destruct H as ([] & ? & -> & [] & ? & -> & u & ? & -> & -> & ->).
      split; [reflexivity|]. eexists; eexists. split; [reflexivity|]. right. reflexivity.
  - cbn in H. destruct H as [-> ->]. split; [reflexivity|].
    exists b, self. split; [reflexivity|]. left. auto.
Qed.

Lemma check_all_armed self paths t o :
  armed self ->
  runs (check_all self paths) t o ->
  count is_flock_un t = count poll_running t /\ exists r, o = Done r.
Proof.
  revert self t o. induction paths as [|p paths IH]; intros self t o Harm H.
  - cbn in H. destruct H as [-> ->]. split; [reflexivity|eauto].
  - cbn [check_all] in H.
    apply runs_bind_inv in H as [(t1 & [b s'] & t2 & -> & H1 & H2)|(e & H1 & _)].
    + pose proof (is_icon_downloaded_armed _ _ _ _ Harm H1)
        as (Hc & b' & s'' & [= <- <-] & Hs).
      cbn [fst snd] in H2.
      apply runs_bind_inv in H2 as [(t3 & l' & t4 & -> & H3 & H4)|(e & H3 & ->)].
      * cbn in H4. destruct H4 as [-> ->]. rewrite List.app_nil_r, !count_app.
        destruct Hs as [[-> Hz]|Hnone].
        -- destruct (IH _ _ _ Harm H3) as [Hr _]. split; [lia|eauto].
        -- rewrite (check_all_idle _ _ _ _ Hnone H3), (check_all_no_poll _ _ _ _ Hnone H3).
           split; [lia|eauto].
      * exfalso. destruct Hs as [[-> Hz]|Hnone].
        -- destruct (IH _ _ _ Harm H3) as [_ [r [=]]].
        -- assert (Ha : armed s') by now left.
           destruct (IH _ _ _ Ha H3) as [_ [r [=]]].
    + pose proof (is_icon_downloaded_armed _ _ _ _ Harm H1) as (_ & b' & s'' & [=] & _).
Qed.

(** C4, as amended.  Along every run of [run()], whatever the
    environment replies: the calls are those of [download()] followed by
    those of the readiness loop; [download()] neither polls nor unlocks;
    the loop unlocks exactly as often as a poll finds the batch still
    running, which is at most once, and the unlock directly follows that
    poll.  So when the polls find the batch ended, nothing is released. *)
Theorem run_releases_only_a_running_batch
  (cache_dir : string) (pairs : list (string * string)) (deadline : Z)
  (t : list event) (o : outcome (list bool * IconDownloader))
  (Hrun : runs (run cache_dir pairs deadline) t o) :
  exists td tc od,
    t = (td ++ tc)%list
    /\ runs (download cache_dir (Download.init cache_dir pairs deadline)) td od
    /\ match od with
       | Done self => runs (check_all self (List.map snd pairs)) tc o
       | Exn e => tc = [] /\ o = Exn e
       end
    /\ count is_flock_un td = O /\ count poll_running td = O
    /\ count is_flock_un tc = count poll_running tc
    /\ (count poll_running tc <= 1)%nat
    /\ unlocks_after_poll tc.
Proof.
  unfold run in Hrun.
  apply runs_bind_inv in Hrun as [(t1 & self & t2 & -> & H1 & H2)|(e & H1 & ->)].
  - exists t1, t2, (Done self).
    pose proof (download_armed cache_dir (Download.init cache_dir pairs deadline)
                  _ _ eq_refl H1) as Harm.
    pose proof (download_calm _ _ _ _ H1) as Hc. apply calm_counts in Hc as [Hu Hp].
    destruct (check_all_armed _ _ _ _ Harm H2) as [Heq _].
    pose proof (check_all_releases_once _ _ _ _ H2) as [Ha Hb].
    pose proof (check_all_unlocks_after_poll _ _ _ _ H2) as Hs.
    split; [reflexivity|]. split; [exact H1|]. split; [exact H2|].
    split; [exact Hu|]. split; [exact Hp|]. split; [exact Heq|].
    split; [lia|exact Hs].
  - exists t, [], (Exn e).
    pose proof (download_calm _ _ _ _ H1) as Hc. apply calm_counts in Hc as [Hu Hp].
    rewrite List.app_nil_r.
    split; [reflexivity|]. split; [exact H1|]. split; [split; reflexivity|].
    split; [exact Hu|]. split; [exact Hp|]. split; [reflexivity|].
    split; [cbn; lia|now left].
Qed.

Lemma run_releases_only_a_running_batch_witness :
  exists td tc,
    fst (run_with still_running
           (run cache_dir [("https://a.com/", "/cache/a.png");
                           ("https://b.org/", "/cache/b.png")] 0))
    = (td ++ tc)%list
    /\ count is_flock_un td = O
    /\ count is_flock_un tc = count poll_running tc.
Proof.
  destruct (run_releases_only_a_running_batch
              _ _ _ _ _
              (run_with_runs still_running
                 (run cache_dir [("https://a.com/", "/cache/a.png");
                                 ("https://b.org/", "/cache/b.png")] 0)))
    as (td & tc & od & H1 & _ & _ & H4 & _ & H6 & _).
  exists td, tc. split; [exact H1|]. split; [exact H4|exact H6].
Defined.

(** C4, as the claim states it, fails.  One icon is missing, the lock is
    free and the batch ends after five seconds: [run()] returns with the
    icon ready and has released nothing; process 100 is alive and still
    holds the lock, and the record is still there. *)
Lemma lock_is_kept_after_a_finished_batch :
  let r := exec_prog 100 (run cache_dir [("https://a.com/", "/cache/a.png")] 0)
                     (start 5 ["/cache/a.png"]) in
  ready_of (outcome_of r) = Some [true]
  /\ count is_flock_un (calls_of r) = O
  /\ count is_unlink (calls_of r) = O
  /\ holder_at (world_after r) lock_path = Some 100
  /\ alive (world_after r) 100 = true
  /\ content_at (world_after r) lock_path = Some "100".
Proof. vm_compute. repeat split. Qed.

(* ------------------------------------------------------------------ *)
(** *** C5: a record that holds no process identifier *)





(* ------------------------------------------------------------------ *)
(** *** C6: [release()] after [acquire()] *)




(* ------------------------------------------------------------------ *)
(** *** C7: two calls at once *)




(* ------------------------------------------------------------------ *)
(** *** C8: every file is there *)

Lemma not_existing_all_there items t o :
  runs (not_existing items) t o ->
  (forall p b, In (p, b) (exists_log t) -> b = true) ->
  t = List.map (fun up => Ev (Exists (snd up)) true) items /\ o = Done [].
Proof.
  revert t o. induction items as [|[u p] items IH]; intros t o H Hall.
  - cbn in H. destruct H as [-> ->]. auto.
  - cbn [not_existing bind call runs] in H. destruct H as (b & t' & -> & H).
    assert (Hb : b = true) by (apply (Hall p); cbn; auto). subst b.
    assert (Hall' : forall q c, In (q, c) (exists_log t') -> c = true).
    { intros q c Hin. apply (Hall q). cbn. auto. }
    apply runs_bind_inv in H as [(t1 & l & t2 & -> & H1 & H2)|(e & H1 & ->)].
    + cbn in H2. destruct H2 as [-> ->]. rewrite List.app_nil_r in *.
      destruct (IH _ _ H1 Hall') as [-> [= ->]]. auto.
    + destruct (IH _ _ H1 Hall') as [_ [=]].
Qed.

Lemma check_all_all_there self paths t o :
  proc self = None ->
  runs (check_all self paths) t o ->
  (forall p b, In (p, b) (exists_log t) -> b = true) ->
  t = List.map (fun p => Ev (Exists p) true) paths
  /\ o = Done (List.map (fun _ => true) paths, self).
Proof.
  intros Hp. revert t o. induction paths as [|p paths IH]; intros t o H Hall.
  - cbn in H. destruct H as [-> ->]. auto.
  - cbn [check_all] in H. unfold is_icon_downloaded in H. rewrite Hp in H.
    cbn [bind call runs] in H. destruct H as (b & t' & -> & H). cbn [fst snd] in H.
    assert (Hb : b = true) by (apply (Hall p); cbn; auto). subst b.
    assert (Hall' : forall q c, In (q, c) (exists_log t') -> c = true).
    { intros q c Hin. apply (Hall q). cbn. auto. }
    apply runs_bind_inv in H as [(t1 & l & t2 & -> & H1 & H2)|(e & H1 & ->)].
    + cbn in H2. destruct H2 as [-> ->]. rewrite List.app_nil_r in *.
      destruct (IH _ _ H1 Hall') as [-> [= ->]]. auto.
    + destruct (IH _ _ H1 Hall') as [_ [=]].
Qed.

Lemma count_exists_only f (paths : list string) :
  (forall p, f (Ev (Exists p) true) = false) ->
  count f (List.map (fun p => Ev (Exists p) true) paths) = O.
Proof.
  intros Hf. induction paths as [|p paths IH]; [reflexivity|].
  unfold count in *. cbn. now rewrite Hf.
Qed.

(** C8.  When every [exists()] asked during [run()] answers that the
    file is there, the run consists of these questions alone, one per
    dictionary entry and then one per pair: the lock record is never
    opened, [flock] is never called, no process is started, and every
    pair is reported ready. *)
Theorem run_on_a_full_cache_only_looks
  (cache_dir : string) (pairs : list (string * string)) (deadline : Z)
  (t : list event) (o : outcome (list bool * IconDownloader))
  (Hrun : runs (run cache_dir pairs deadline) t o)
  (Hall : forall p b, In (p, b) (exists_log t) -> b = true) :
  t = List.map (fun p => Ev (Exists p) true)
               (List.map snd (ordered_dict pairs) ++ List.map snd pairs)
  /\ o = Done (List.map (fun _ => true) pairs, Download.init cache_dir pairs deadline)
  /\ count is_flock t = O
  /\ count (is_open_of (LOCK_PATH cache_dir)) t = O
  /\ count is_launch t = O.
Proof.
  assert (Hshape :
    t = List.map (fun p => Ev (Exists p) true)
                 (List.map snd (ordered_dict pairs) ++ List.map snd pairs)
    /\ o = Done (List.map (fun _ => true) pairs, Download.init cache_dir pairs deadline)).
  { unfold run in Hrun.
    apply runs_bind_inv in Hrun as [(t1 & self & t2 & -> & H1 & H2)|(e & H1 & ->)].
    - unfold download in H1.
      apply runs_bind_inv in H1 as [(t3 & needed & t4 & -> & H3 & H4)|(e & H3 & [=])].
      assert (Hall3 : forall p b, In (p, b) (exists_log t3) -> b = true).
      { intros p b Hin. apply (Hall p). unfold exists_log in *.
        rewrite !flat_map_app, !in_app_iff. auto. }
      destruct (not_existing_all_there _ _ _ H3 Hall3) as [-> [= ->]].
      cbn in H4. destruct H4 as [-> [= Hs]]. subst self. rewrite List.app_nil_r in *.
      assert (Hall2 : forall p b, In (p, b) (exists_log t2) -> b = true).
      { intros p b Hin. apply (Hall p). unfold exists_log in *.
        rewrite !flat_map_app, !in_app_iff. auto. }
      destruct (check_all_all_there (Download.init cache_dir pairs deadline) _ _ _
                  eq_refl H2 Hall2) as [-> ->].
      rewrite List.map_app, !List.map_map. auto.
    - unfold download in H1.
      apply runs_bind_inv in H1 as [(t3 & needed & t4 & -> & H3 & H4)|(e' & H3 & [=])].
      + assert (Hall3 : forall p b, In (p, b) (exists_log t3) -> b = true).
        { intros p b Hin. apply (Hall p). unfold exists_log in *.
          rewrite !flat_map_app, !in_app_iff. auto. }
        destruct (not_existing_all_there _ _ _ H3 Hall3) as [-> [= ->]].
        cbn in H4. destruct H4 as [_ [=]].
      + assert (Hall3 : forall p b, In (p, b) (exists_log t) -> b = true) by exact Hall.
        destruct (not_existing_all_there _ _ _ H3 Hall3) as [_ [=]]. }
  destruct Hshape as [-> ->]. split; [reflexivity|]. split; [reflexivity|].
  split; [|split]; apply count_exists_only; reflexivity.
Qed.

Lemma run_on_a_full_cache_only_looks_witness :
  fst (run_with all_present
         (run cache_dir [("https://a.com/", "/cache/a.png");
                         ("https://b.org/", "/cache/b.png")] 0))
  = [Ev (Exists "/cache/a.png") true; Ev (Exists "/cache/b.png") true;
     Ev (Exists "/cache/a.png") true; Ev (Exists "/cache/b.png") true].
Proof.
  assert (Hall : forall p b,
             In (p, b)
                (exists_log
                   (fst (run_with all_present
                           (run cache_dir [("https://a.com/", "/cache/a.png");
                                           ("https://b.org/", "/cache/b.png")] 0)))) ->
             b = true).
  { vm_compute. intros p b H. intuition congruence. }
  exact (proj1 (run_on_a_full_cache_only_looks
                  _ _ _ _ _
                  (run_with_runs all_present
                     (run cache_dir [("https://a.com/", "/cache/a.png");
                                     ("https://b.org/", "/cache/b.png")] 0))
                  Hall)).
Defined.

